(** * LeapKit core: the asset manager

    A shallow embedding of the [assets] package: the two read operations
    of the manager ([Open], [ReadFile]), the fingerprinted path lookup
    ([PathFor]) and the tree synchroniser ([CopyAll], [Watch]).

    Conventions.
    - A Go [(value, error)] pair is a [result]; a Go [error] alone is an
      [option error] ([None] is [nil]).
    - The operating system is explicit: the process environment, the disk
      and the limits of inotify are fields of a [World]; a function that
      writes to the disk takes the disk and returns the new one.
    - [fs.FS] is an interface with the single method [Open]; an interface
      value is the record of its method.
    - The Go packages the code calls are modules of the same name, so
      that [os.MkdirAll] or [filepath.Walk] read as in the source. *)

From Stdlib Require Import Strings.String Strings.Ascii Strings.Byte.
From Stdlib Require Import Lia.
From stdpp Require Import base option list strings gmap sorting.

Local Open Scope string_scope.
Local Open Scope list_scope.

(** ** Errors and results *)

Inductive error : Type :=
| ErrNotExist                        (* fs.ErrNotExist, ENOENT *)
| ErrInvalid                         (* fs.ErrInvalid *)
| ErrExist                           (* EEXIST *)
| ENOTDIR
| EISDIR
| ErrWatcher                         (* an error of inotify *)
| Wrapped (msg : string) (e : error) (* fmt.Errorf("msg: %w", e) *).

Inductive result (A : Type) : Type :=
| Ok (a : A)
| Err (e : error).
Arguments Ok {A} a.
Arguments Err {A} e.

#[global] Instance error_eq_dec : EqDecision error.
Proof. solve_decision. Defined.

#[global] Instance result_eq_dec {A : Type} `{EqDecision A} : EqDecision (result A).
Proof. solve_decision. Defined.

(** ** Paths and the disk

    On disk a path is the list of its components ([filepath.Clean]ed and
    split at the separator); [filepath.Join] is then concatenation and
    the path "." is the empty list. *)

Abbreviation path := (list string).
Abbreviation bytes := (list byte).

Inductive node : Type :=
| File (data : bytes)
| Dir.

#[global] Instance byte_eq_dec : EqDecision byte := Byte.byte_eq_dec.

#[global] Instance node_eq_dec : EqDecision node.
Proof. solve_decision. Defined.

Definition IsDir (n : node) : bool :=
  match n with Dir => true | File _ => false end.

Record World : Type := mkWorld {
  env  : gmap string string;   (* os.Environ *)
  disk : gmap path node;       (* the file system *)
  inotify_instances : nat;     (* watchers the process may still create *)
  inotify_watches : nat        (* paths one watcher may hold *)
}.

(** ** fs.FS *)

Record FS : Type := mkFS {
  fs_Open : gmap path node -> string -> result node
}.

(** Components of a slash-separated name; empty components are dropped. *)
Fixpoint components_aux (cur : string) (s : string) : list string :=
  match s with
  | EmptyString => if decide (cur = "") then [] else [cur]
  | String c r =>
      if Ascii.eqb c "/"
      then (if decide (cur = "") then [] else [cur]) ++ components_aux "" r
      else components_aux (cur +:+ String c "") r
  end.

Definition components (s : string) : list string := components_aux "" s.

(** utf8.ValidString: the string is a sequence of well-formed UTF-8
    encodings (no overlong form, no surrogate half, nothing above
    U+10FFFF). *)
Module utf8.

Definition between (lo hi : N) (c : ascii) : bool :=
  ((lo <=? N_of_ascii c) && (N_of_ascii c <=? hi))%N.

Definition continuation : ascii -> bool := between 128 191.

(** The range of the second byte after a first byte that opens a
    sequence of three or of four bytes. *)
Definition second3 (c0 c1 : ascii) : bool :=
  if between 224 224 c0 then between 160 191 c1
  else if between 237 237 c0 then between 128 159 c1
  else between 128 191 c1.

Definition second4 (c0 c1 : ascii) : bool :=
  if between 240 240 c0 then between 144 191 c1
  else if between 244 244 c0 then between 128 143 c1
  else between 128 191 c1.

Fixpoint ValidString (s : string) : bool :=
  match s with
  | EmptyString => true
  | String c0 r0 =>
      if between 0 127 c0 then ValidString r0
      else
        match r0 with
        | EmptyString => false
        | String c1 r1 =>
            if between 194 223 c0 then continuation c1 && ValidString r1
            else
              match r1 with
              | EmptyString => false
              | String c2 r2 =>
                  if between 224 239 c0
                  then second3 c0 c1 && continuation c2 && ValidString r2
                  else
                    match r2 with
                    | EmptyString => false
                    | String c3 r3 =>
                        between 240 244 c0 && second4 c0 c1
                        && continuation c2 && continuation c3 && ValidString r3
                    end
              end
        end
  end.

End utf8.

Module fs.

(** The elements of a slash-separated name, the empty ones included. *)
Fixpoint elements_aux (cur : string) (s : string) : list string :=
  match s with
  | EmptyString => [cur]
  | String c r =>
      if Ascii.eqb c "/"
      then cur :: elements_aux "" r
      else elements_aux (cur +:+ String c "") r
  end.

Definition validElement (elem : string) : bool :=
  negb (String.eqb elem "" || String.eqb elem "." || String.eqb elem "..").

(** fs.ValidPath: valid UTF-8 and either the root "." or elements none
    of which is empty, "." or "..": no leading, trailing or doubled
    slash. *)
Definition ValidPath (name : string) : bool :=
  utf8.ValidString name
  && (String.eqb name "." || forallb validElement (elements_aux "" name)).

End fs.

Module fstest.

(** fstest.MapFS over a table of regular files: an immutable table from
    names to contents.  A name that is no valid path is not found; a
    name that is not in the table opens as a directory when it is "."
    or when the table holds a file below it. *)
Definition MapFS (files : gmap string bytes) : FS :=
  mkFS (fun _ name =>
          if negb (fs.ValidPath name) then Err ErrNotExist
          else
            match files !! name with
            | Some data => Ok (File data)
            | None =>
                if String.eqb name "." then Ok Dir
                else if decide (map_Exists
                                  (fun fname _ =>
                                     String.prefix (name +:+ "/") fname = true)
                                  files)
                     then Ok Dir
                     else Err ErrNotExist
            end).

End fstest.

Module os.

(** os.Getenv: the empty string when the variable is not set. *)
Definition Getenv (w : World) (key : string) : string :=
  default "" (env w !! key).

(** The path that os.DirFS(root) opens for a name: the name must be a
    valid path and hold no NUL byte; "." is the root itself. *)
Definition hasNUL (name : string) : bool :=
  existsb (fun c => Ascii.eqb c Ascii.zero) (list_ascii_of_string name).

Definition join (root : path) (name : string) : result path :=
  if negb (fs.ValidPath name) || hasNUL name then Err ErrInvalid
  else if String.eqb name "." then Ok root
  else Ok (root ++ components name).

(** os.DirFS(root): every [Open] looks the name up on the current disk. *)
Definition DirFS (root : path) : FS :=
  mkFS (fun d name =>
          match join root name with
          | Err e => Err e
          | Ok fullname =>
              match d !! fullname with
              | Some n => Ok n
              | None => Err ErrNotExist
              end
          end).

Definition Lstat (d : gmap path node) (p : path) : result node :=
  match d !! p with
  | Some n => Ok n
  | None => Err ErrNotExist
  end.

Definition Mkdir (d : gmap path node) (p : path) : gmap path node * option error :=
  match d !! p with
  | Some _ => (d, Some ErrExist)
  | None =>
      match p with
      | [] => (<[p := Dir]> d, None)
      | _ =>
          match d !! removelast p with
          | Some Dir => (<[p := Dir]> d, None)
          | Some (File _) => (d, Some ENOTDIR)
          | None => (d, Some ErrNotExist)
          end
      end
  end.

(** os.MkdirAll; the recursion goes up the path, so it runs on the
    reversed list of components. *)
Fixpoint MkdirAll_up (rp : path) (d : gmap path node) : gmap path node * option error :=
  match d !! rev rp with
  | Some Dir => (d, None)
  | Some (File _) => (d, Some ENOTDIR)
  | None =>
      match rp with
      | [] => Mkdir d []
      | _ :: rparent =>
          match MkdirAll_up rparent d with
          | (d', Some e) => (d', Some e)
          | (d', None) => Mkdir d' (rev rp)
          end
      end
  end.

Definition MkdirAll (d : gmap path node) (p : path) : gmap path node * option error :=
  MkdirAll_up (rev p) d.

(** os.Open of a path on disk, as far as its error goes; the handle is
    the path, read when [io.Copy] runs. *)
Definition Open (d : gmap path node) (p : path) : option error :=
  match d !! p with
  | Some _ => None
  | None => Some ErrNotExist
  end.

(** os.Create: the file is created or truncated. *)
Definition Create (d : gmap path node) (p : path) : gmap path node * option error :=
  match d !! p with
  | Some Dir => (d, Some EISDIR)
  | Some (File _) => (<[p := File []]> d, None)
  | None =>
      match d !! removelast p with
      | Some Dir => (<[p := File []]> d, None)
      | Some (File _) => (d, Some ENOTDIR)
      | None => (d, Some ErrNotExist)
      end
  end.

End os.

Module io.

(** io.ReadAll on an opened file. *)
Definition ReadAll (x : node) : result bytes :=
  match x with
  | File data => Ok data
  | Dir => Err ErrInvalid
  end.

(** io.Copy(dest, src) on two open files: the bytes the source holds
    when the copy runs, which is after [os.Create]. *)
Definition Copy (d : gmap path node) (dest src : path) : gmap path node * option error :=
  match d !! src with
  | Some (File data) => (<[dest := File data]> d, None)
  | Some Dir => (d, Some EISDIR)
  | None => (d, Some ErrNotExist)
  end.

End io.

Module filepath.

(** filepath.Ext: the suffix starting at the last dot of the last path
    element, empty when that element has no dot.  Go scans from the end
    of the string and stops at the first dot or separator. *)
Inductive ext_scan : Type :=
| ExtFound (e : string)   (* a dot was met first *)
| ExtSep                  (* a separator was met first *)
| ExtNone.                (* neither occurs *)

Fixpoint scan_ext (s : string) : ext_scan :=
  match s with
  | EmptyString => ExtNone
  | String c r =>
      match scan_ext r with
      | ExtFound e => ExtFound e
      | ExtSep => ExtSep
      | ExtNone =>
          if Ascii.eqb c "." then ExtFound (String c r)
          else if Ascii.eqb c "/" then ExtSep
          else ExtNone
      end
  end.

Definition Ext (name : string) : string :=
  match scan_ext name with
  | ExtFound e => e
  | _ => ""
  end.

(** filepath.Rel for a target at or below the base, the only case a walk
    from the base produces; for any other target Go climbs with "..",
    which component lists do not have, and the model returns an error. *)
Fixpoint Rel (base target : path) : result path :=
  match base, target with
  | [], t => Ok t
  | x :: base', y :: target' =>
      if decide (x = y) then Rel base' target' else Err ErrInvalid
  | _ :: _, [] => Err ErrInvalid
  end.

(** filepath.Dir and filepath.Base of a relative path. *)
Definition Dir (rel : path) : path := removelast rel.

Definition Base (rel : path) : path :=
  match last rel with
  | Some x => [x]
  | None => []
  end.

(** The name of [k] inside the directory [p], when [k] is an entry of it. *)
Fixpoint child_name (p k : path) : option string :=
  match p, k with
  | [], [n] => Some n
  | x :: p', y :: k' => if decide (x = y) then child_name p' k' else None
  | _, _ => None
  end.

(** The set of the names in the directory [p]. *)
Definition entries (d : gmap path node) (p : path) : gset string :=
  set_omap (child_name p) (dom d).

(** readDirNames: the entries of a directory, sorted. *)
Definition readDirNames (d : gmap path node) (p : path) : list string :=
  merge_sort String.le (elements (entries d p)).

(** filepath.Walk.  The callback receives the path and either the file
    information or the error of [Lstat] (the model has no failing
    [readDirNames], so the two are never both present; no callback here
    returns [SkipDir]).  Directories nest without bound, so the walk
    takes fuel: one unit per level. *)

Section Walk.

Context {St : Type}.
Variable dsk : St -> gmap path node.
Variable fn : path -> result node -> St -> St * option error.

Fixpoint walkNames (rec : path -> node -> St -> option (St * option error))
         (p : path) (names : list string) (s : St) : option (St * option error) :=
  match names with
  | [] => Some (s, None)
  | name :: rest =>
      let filename := p ++ [name] in
      match os.Lstat (dsk s) filename with
      | Err e =>
          match fn filename (Err e) s with
          | (s', Some e') => Some (s', Some e')
          | (s', None) => walkNames rec p rest s'
          end
      | Ok fileInfo =>
          match rec filename fileInfo s with
          | None => None
          | Some (s', Some e') => Some (s', Some e')
          | Some (s', None) => walkNames rec p rest s'
          end
      end
  end.

Fixpoint walk (fuel : nat) (p : path) (info : node) (s : St) : option (St * option error) :=
  match fuel with
  | 0 => None
  | S fuel' =>
      if negb (IsDir info) then Some (fn p (Ok info) s)
      else
        let names := readDirNames (dsk s) p in
        match fn p (Ok info) s with
        | (s1, Some e1) => Some (s1, Some e1)
        | (s1, None) => walkNames (walk fuel') p names s1
        end
  end.

Definition Walk (fuel : nat) (root : path) (s : St) : option (St * option error) :=
  match os.Lstat (dsk s) root with
  | Err e => Some (fn root (Err e) s)
  | Ok info => walk fuel root info s
  end.

End Walk.

(** The calls of a walk, recorded: [recorded fn] is [fn] on a state that
    also keeps one line per call, with the path, the state the call left
    and the error it returned. *)
Abbreviation call St := (path * St * option error)%type.

Definition recorded {St : Type} (fn : path -> result node -> St -> St * option error)
           (p : path) (info : result node) (s : St * list (call St))
  : (St * list (call St)) * option error :=
  let '(s', r) := fn p info s.1 in ((s', s.2 ++ [(p, s', r)]), r).

End filepath.

Module fsnotify.

Inductive Op : Type := Create | Write | Remove | Rename | Chmod.

#[global] Instance Op_eq_dec : EqDecision Op.
Proof. solve_decision. Defined.

Record Event : Type := mkEvent {
  Name : path;
  Ops  : list Op      (* the bit mask of the event *)
}.

#[global] Instance Event_eq_dec : EqDecision Event.
Proof. solve_decision. Defined.

Definition Has (e : Event) (op : Op) : bool := bool_decide (op ∈ Ops e).

(** fsnotify.NewWatcher: fails when the process is out of instances. *)
Definition NewWatcher (w : World) : result (gset path) :=
  if decide (inotify_instances w = 0) then Err ErrWatcher else Ok ∅.

(** watcher.Add: the path must exist; a new path needs a free watch. *)
Definition Add (w : World) (d : gmap path node) (watcher : gset path) (p : path)
  : gset path * option error :=
  match d !! p with
  | None => (watcher, Some ErrNotExist)
  | Some _ =>
      if decide (p ∈ watcher) then (watcher, None)
      else if decide (size watcher < inotify_watches w)
           then ({[p]} ∪ watcher, None)
           else (watcher, Some ErrWatcher)
  end.

End fsnotify.

(** ** Package assets *)

Record manager : Type := mkManager {
  embedded     : FS;
  folder       : FS;
  servingPath  : string;
  inputFolder  : path;
  outputFolder : path
}.

Module assets.

Definition HandlerPattern (m : manager) : string := servingPath m.

Definition Open (m : manager) (w : World) (name : string) : result node :=
  let ext := filepath.Ext name in
  if decide (ext = ".go") then Err ErrNotExist
  else
    let fn :=
      if decide (os.Getenv w "GO_ENV" = "development")
      then fs_Open (folder m)
      else fs_Open (embedded m) in
    fn (disk w) name.

Definition ReadFile (m : manager) (w : World) (name : string) : result bytes :=
  match fs_Open (embedded m) (disk w) name with
  | Err e => Err e
  | Ok x => io.ReadAll x
  end.

(** *** Fingerprinted paths *)

(** strings.TrimPrefix and path.Split, two functions of the Go library
    that the normalisation and the construction of a ServingPath need. *)
Fixpoint strip_prefix_str (pre s : string) : option string :=
  match pre with
  | EmptyString => Some s
  | String c pre' =>
      match s with
      | String c' s' => if Ascii.eqb c c' then strip_prefix_str pre' s' else None
      | EmptyString => None
      end
  end.

Definition TrimPrefix (s pre : string) : string :=
  default s (strip_prefix_str pre s).

(** path.Split: the directory part, up to and including the last slash,
    and the base name after it. *)
Fixpoint Split (s : string) : string * string :=
  match s with
  | EmptyString => ("", "")
  | String c r =>
      match Split r with
      | (EmptyString, f) =>
          if Ascii.eqb c "/" then (String c "", f) else ("", String c f)
      | (d, f) => (String c d, f)
      end
  end.

(** Modelled from the spec: the fixed public prefix under which every
    ServingPath is rooted; the constructor that sets it is not among the
    sources. *)
Definition publicPrefix : string := "public".

(** Modelled from the spec: an entry of the FingerprintIndex, the
    ServingPath of a logical path and the token it embeds. *)
Record entry : Type := mkEntry {
  entryPath  : string;   (* the ServingPath *)
  entryToken : string    (* the FingerprintToken *)
}.

#[global] Instance entry_eq_dec : EqDecision entry.
Proof. solve_decision. Defined.

(** Modelled from the spec: the normalisation of a logical path; the
    file that defines it (with [PathFor]) is not among the sources.
    A leading slash is stripped, then the public-prefix segment. *)
Definition normalize (name : string) : string :=
  TrimPrefix (TrimPrefix name "/") (publicPrefix +:+ "/").

(** Modelled from the spec: the ServingPath of a normalised logical
    path; the token goes immediately before the base name, inside the
    directory of the path, under a leading slash and the public prefix. *)
Definition serving (key token : string) : string :=
  let '(dir, base) := Split key in
  "/" +:+ publicPrefix +:+ "/" +:+ dir +:+ token +:+ "-" +:+ base.

Section WithHasher.

(** The ContentHasher: a pure function from bytes to a token. *)
Variable hash : bytes -> string.

(** Modelled from the spec: the entry of a normalised path, computed
    from the bytes read through the manager; a path that cannot be read
    is not found. *)
Definition fingerprint (m : manager) (w : World) (key : string) : result entry :=
  match ReadFile m w key with
  | Err _ => Err ErrNotExist
  | Ok data => Ok (mkEntry (serving key (hash data)) (hash data))
  end.

(** Modelled from the spec: [PathFor], the resolve operation of the
    FingerprintIndex; its source file is missing, only its test is
    present.  The index is keyed by the normalised path; an entry is
    computed on the first lookup and answered from the index after. *)
Definition PathFor (m : manager) (w : World) (index : gmap string entry)
           (name : string) : result string * gmap string entry :=
  let key := normalize name in
  match index !! key with
  | Some e => (Ok (entryPath e), index)
  | None =>
      match fingerprint m w key with
      | Err e => (Err e, index)
      | Ok e => (Ok (entryPath e), <[key := e]> index)
      end
  end.

(** Every entry of the index is the one the current bytes give. *)
Definition index_ok (m : manager) (w : World) (index : gmap string entry) : Prop :=
  forall key e, index !! key = Some e -> fingerprint m w key = Ok e.

End WithHasher.

(** *** The HTTP handler *)

(** strings.HasSuffix and strings.TrimSuffix *)
Definition HasSuffix (s suffix : string) : bool :=
  (String.length suffix <=? String.length s)%nat
  && String.eqb (substring (String.length s - String.length suffix)
                           (String.length suffix) s) suffix.

Definition TrimSuffix (s suffix : string) : string :=
  if HasSuffix s suffix
  then substring 0 (String.length s - String.length suffix) s
  else s.

Definition handlerPrefix (m : manager) : string :=
  TrimSuffix (servingPath m) "*".

Section Handler.

Context {Response : Type}.

(** http.ServeFileFS, of the Go library, is a parameter: it is handed the
    file system, which is the manager itself with its method [Open], the
    URL path of the request and the name to serve. *)
Variable ServeFileFS : (string -> result node) -> string -> string -> Response.

Definition HandlerFn (m : manager) (w : World) (urlPath : string) : Response :=
  ServeFileFS (Open m w) urlPath (TrimPrefix urlPath (handlerPrefix m)).

End Handler.

(** *** CopyAll *)

(** The callback that [CopyAll] hands to [filepath.Walk]. *)
Definition copyFn (m : manager) (p : path) (info : result node)
           (d : gmap path node) : gmap path node * option error :=
  match info with
  | Err e => (d, Some e)
  | Ok info =>
      if IsDir info then (d, None)
      else
        match filepath.Rel (inputFolder m) p with
        | Err e => (d, Some e)
        | Ok relativePath =>
            let destFolder := outputFolder m ++ filepath.Dir relativePath in
            match os.MkdirAll d destFolder with
            | (d1, Some e) => (d1, Some e)
            | (d1, None) =>
                let destPath := destFolder ++ filepath.Base relativePath in
                match os.Open d1 p with
                | Some e => (d1, Some e)
                | None =>
                    match os.Create d1 destPath with
                    | (d2, Some e) => (d2, Some e)
                    | (d2, None) => io.Copy d2 destPath p
                    end
                end
            end
      end
  end.

Definition CopyAll (fuel : nat) (m : manager) (d : gmap path node)
  : option (gmap path node * option error) :=
  match filepath.Walk id (copyFn m) fuel (inputFolder m) d with
  | None => None
  | Some (d', Some e) => Some (d', Some (Wrapped "error copying files" e))
  | Some (d', None) => Some (d', None)
  end.

(** The part of the disk below the input folder. *)
Definition sourceTree (m : manager) (d : gmap path node) : gmap path node :=
  filter (fun kv => inputFolder m `prefix_of` kv.1) d.

(** *** Watch *)

Inductive logline : Type :=
| LogError (e : error)                   (* log.Println(err) *)
| LogPrefixed (msg : string) (e : error) (* log.Println(msg, err) *).

Record loopState : Type := mkLoop {
  l_disk    : gmap path node;
  l_watcher : gset path;
  l_log     : list logline
}.

(** What [Watch] has come to when its set-up is over: it has panicked,
    or it has started the goroutine and blocks for ever. *)
Inductive started : Type :=
| Panicked (e : error) (log : list logline)
| Looping (st : loopState).

#[global] Instance logline_eq_dec : EqDecision logline.
Proof. solve_decision. Defined.

#[global] Instance loopState_eq_dec : EqDecision loopState.
Proof. solve_decision. Defined.

#[global] Instance started_eq_dec : EqDecision started.
Proof. solve_decision. Defined.

(** The callback of the walk that fills the watcher; it looks at neither
    the file information nor the error it is handed. *)
Definition addFn (w : World) (p : path) (_ : result node)
           (s : gmap path node * gset path)
  : (gmap path node * gset path) * option error :=
  let '(watcher', err) := fsnotify.Add w s.1 s.2 p in ((s.1, watcher'), err).

Definition logErr (err : option error) : list logline :=
  match err with
  | Some e => [LogError e]
  | None => []
  end.

(** [Watch] up to the start of the goroutine. *)
Definition Watch (fuel : nat) (m : manager) (w : World) : option started :=
  match CopyAll fuel m (disk w) with
  | None => None
  | Some (d1, err) =>
      let log := logErr err in
      match fsnotify.NewWatcher w with
      | Err e => Some (Panicked (Wrapped "error creating watcher" e) log)
      | Ok watcher =>
          match filepath.Walk fst (addFn w) fuel (inputFolder m) (d1, watcher) with
          | None => None
          | Some (_, Some e) =>
              Some (Panicked (Wrapped "error adding files to watcher" e) log)
          | Some (s, None) => Some (Looping (mkLoop s.1 s.2 log))
          end
      end
  end.

(** What the [select] of the goroutine receives: a value from one of the
    two channels, with the flag that tells a closed channel. *)
Inductive message : Type :=
| FromEvents (ok : bool) (event : fsnotify.Event)
| FromErrors (ok : bool) (err : error).

Inductive control : Type := Continue | Return.

#[global] Instance control_eq_dec : EqDecision control.
Proof. solve_decision. Defined.

Definition needsCopy (event : fsnotify.Event) : bool :=
  fsnotify.Has event fsnotify.Create
  || fsnotify.Has event fsnotify.Write
  || fsnotify.Has event fsnotify.Rename.

(** One turn of the loop of the goroutine. *)
Definition turn (fuel : nat) (m : manager) (w : World) (msg : message)
           (st : loopState) : option (loopState * control) :=
  match msg with
  | FromEvents ok event =>
      if negb ok then Some (st, Continue)
      else
        if negb (needsCopy event) then Some (st, Continue)
        else
          match CopyAll fuel m (l_disk st) with
          | None => None
          | Some (d', err) =>
              let watcher' :=
                if fsnotify.Has event fsnotify.Create
                then (fsnotify.Add w d' (l_watcher st) (fsnotify.Name event)).1
                else l_watcher st in
              Some (mkLoop d' watcher' (l_log st ++ logErr err), Continue)
          end
  | FromErrors ok err =>
      if negb ok then Some (st, Return)
      else Some (mkLoop (l_disk st) (l_watcher st)
                        (l_log st ++ [LogPrefixed "error:" err]), Continue)
  end.

(** The goroutine over a finite history: what it receives, interleaved
    with what the rest of the system does to the disk meanwhile. *)
Inductive input : Type :=
| Recv (msg : message)
| Outside (d : gmap path node).

Fixpoint loop (fuel : nat) (m : manager) (w : World) (history : list input)
         (st : loopState) : option (loopState * control) :=
  match history with
  | [] => Some (st, Continue)
  | Outside d :: rest =>
      loop fuel m w rest (mkLoop d (l_watcher st) (l_log st))
  | Recv msg :: rest =>
      match turn fuel m w msg st with
      | None => None
      | Some (st', Return) => Some (st', Return)
      | Some (st', Continue) => loop fuel m w rest st'
      end
  end.

End assets.

(** ** Sample data *)

Definition b (s : string) : bytes := list_byte_of_string s.

(** A toy hasher for the examples: the content itself, cut or padded
    with zeros to eight characters. *)
Fixpoint pad (n : nat) (s : string) : string :=
  match n with
  | 0 => ""
  | S n' =>
      match s with
      | EmptyString => String "0" (pad n' "")
      | String c r => String c (pad n' r)
      end
  end.

Definition toyHash (data : bytes) : string :=
  pad 8 (string_of_list_byte data).

Definition devEnv : gmap string string := {[ "GO_ENV" := "development" ]}.

Definition sampleDisk : gmap path node :=
  list_to_map
    [ ([], Dir);
      (["assets"], Dir);
      (["assets"; "a.js"], File (b "AA"));
      (["assets"; "b.js"], File (b "BB"));
      (["assets"; "sub"], Dir);
      (["assets"; "sub"; "c.css"], File (b "CC"));
      (["build"], Dir);
      (["build"; "main.js"], File (b "LIVE"));
      (["build"; "main.go"], File (b "package live")) ].

Definition sampleManager : manager :=
  mkManager
    (fstest.MapFS (list_to_map
       [ ("main.js", b "AAA");
         ("other/main.js", b "AAA");
         ("main.go", b "package main") ]))
    (os.DirFS ["build"])
    "/public/*" ["assets"] ["build"].

Definition prodWorld : World := mkWorld ∅ sampleDisk 8 64.
Definition devWorld : World := mkWorld devEnv sampleDisk 8 64.

(** A disk on which the output folder cannot be made: its name is
    taken by a regular file. *)
Definition blockedDisk : gmap path node :=
  list_to_map
    [ ([], Dir);
      (["assets"], Dir);
      (["assets"; "a.js"], File (b "AA"));
      (["assets"; "b.js"], File (b "BB"));
      (["build"], File (b "not a folder")) ].

Definition blockedWorld : World := mkWorld devEnv blockedDisk 8 64.

(** The same disk once the file in the way has been removed. *)
Definition repairedDisk : gmap path node := delete ["build"] blockedDisk.

(** A world in which no watcher can be created, and a manager whose
    input folder does not exist. *)
Definition noInotifyWorld : World := mkWorld devEnv sampleDisk 0 64.

Definition lostManager : manager :=
  mkManager (embedded sampleManager) (folder sampleManager)
            "/public/*" ["nowhere"] ["build"].

(** The sample disk after one pass of [CopyAll] from [assets] to [build]. *)
Definition syncedDisk : gmap path node :=
  list_to_map
    [ ([], Dir);
      (["assets"], Dir);
      (["assets"; "a.js"], File (b "AA"));
      (["assets"; "b.js"], File (b "BB"));
      (["assets"; "sub"], Dir);
      (["assets"; "sub"; "c.css"], File (b "CC"));
      (["build"], Dir);
      (["build"; "main.js"], File (b "LIVE"));
      (["build"; "main.go"], File (b "package live"));
      (["build"; "a.js"], File (b "AA"));
      (["build"; "b.js"], File (b "BB"));
      (["build"; "sub"], Dir);
      (["build"; "sub"; "c.css"], File (b "CC")) ].

(** The repaired disk after one pass. *)
Definition retriedDisk : gmap path node :=
  list_to_map
    [ ([], Dir);
      (["assets"], Dir);
      (["assets"; "a.js"], File (b "AA"));
      (["assets"; "b.js"], File (b "BB"));
      (["build"], Dir);
      (["build"; "a.js"], File (b "AA"));
      (["build"; "b.js"], File (b "BB")) ].

Definition syncedWorld : World := mkWorld devEnv syncedDisk 8 64.

(** A manager whose output folder lies inside its input folder, a small
    disk, and that disk after one and after two passes. *)
Definition nestedManager : manager :=
  mkManager (embedded sampleManager) (folder sampleManager)
            "/public/*" ["assets"] ["assets"; "out"].

Definition smallDisk : gmap path node :=
  list_to_map
    [ ([], Dir);
      (["assets"], Dir);
      (["assets"; "a.js"], File (b "AA")) ].

Definition nestedOnce : gmap path node :=
  list_to_map
    [ ([], Dir);
      (["assets"], Dir);
      (["assets"; "a.js"], File (b "AA"));
      (["assets"; "out"], Dir);
      (["assets"; "out"; "a.js"], File (b "AA")) ].

Definition nestedTwice : gmap path node :=
  list_to_map
    [ ([], Dir);
      (["assets"], Dir);
      (["assets"; "a.js"], File (b "AA"));
      (["assets"; "out"], Dir);
      (["assets"; "out"; "a.js"], File (b "AA"));
      (["assets"; "out"; "out"], Dir);
      (["assets"; "out"; "out"; "a.js"], File (b "AA")) ].

(** A manager that copies its input folder onto itself. *)
Definition selfManager : manager :=
  mkManager (embedded sampleManager) (folder sampleManager)
            "/public/*" ["assets"] ["assets"].

Definition emptiedDisk : gmap path node :=
  list_to_map
    [ ([], Dir);
      (["assets"], Dir);
      (["assets"; "a.js"], File []) ].

Definition writeEvent (p : path) : fsnotify.Event :=
  fsnotify.mkEvent p [fsnotify.Write].

(** ** Notions for the proofs *)

(** Among the calls [new] of a run that ended in state [s'] with result
    [r], a call that failed is the last one, left the final state and
    gave the result. *)
Definition aborts_at {St : Type} (new : list (filepath.call St)) (s' : St)
           (r : option error) : Prop :=
  forall i p s e, new !! i = Some (p, s, Some e) ->
                  S i = length new /\ s = s' /\ r = Some e.

(** What a recorded run is to the plain one: the same state and result,
    and the calls of the run added to the record. *)
Definition recorded_run {St : Type} (plain : option (St * option error))
           (tr : list (filepath.call St))
           (rec : option ((St * list (filepath.call St)) * option error)) : Prop :=
  match plain with
  | None => rec = None
  | Some (s', r) => exists new, rec = Some ((s', tr ++ new), r) /\ aborts_at new s' r
  end.

(** [d'] has all that [d] has, each entry of the kind it had. *)
Definition grows (d d' : gmap path node) : Prop :=
  forall k n, d !! k = Some n -> exists n', d' !! k = Some n' /\ IsDir n' = IsDir n.

(** Every file of [d] has its content on [d'], but for the paths in [Q]. *)
Definition keeps_files (Q : path -> Prop) (d d' : gmap path node) : Prop :=
  forall k c, d !! k = Some (File c) -> d' !! k = Some (File c) \/ Q k.

(** The two disks are the same below the input folder. *)
Definition same_source (m : manager) (d d' : gmap path node) : Prop :=
  forall k, inputFolder m `prefix_of` k -> d !! k = d' !! k.

(** The copy of the file at [q] is made on [d]: run on it, the callback
    of [CopyAll] succeeds and changes nothing. *)
Definition copied (m : manager) (q : path) (d : gmap path node) : Prop :=
  assets.copyFn m q (Ok (File [])) d = (d, None).

(** [x] comes after [d] in a pass that leaves the source alone. *)
Definition later (m : manager) (d x : gmap path node) : Prop :=
  same_source m d x /\ grows d x /\ forall q, copied m q d -> copied m q x.

(** The copy of one file once the destination folder is made: what
    [os.Open], [os.Create] and [io.Copy] do in a row. *)
Definition copyTo (dest p : path) (d : gmap path node) : gmap path node * option error :=
  match d !! p with
  | None => (d, Some ErrNotExist)
  | Some _ =>
      match d !! dest with
      | Some Dir => (d, Some EISDIR)
      | _ =>
          match <[dest := File []]> d !! p with
          | Some (File data) => (<[dest := File data]> d, None)
          | Some Dir => (<[dest := File []]> d, Some EISDIR)
          | None => (<[dest := File []]> d, Some ErrNotExist)
          end
      end
  end.

(** The paths at or below the destination of the relative path [r0]. *)
Definition dest_below (m : manager) (r0 : path) (k : path) : Prop :=
  (outputFolder m ++ r0) `prefix_of` k.

(** What a walk of the part [r0] of the source may do to the disk: add
    entries, and write files at or below the destination of [r0]. *)
Definition effects (m : manager) (r0 : path) (e e' : gmap path node) : Prop :=
  grows e e' /\ keeps_files (dest_below m r0) e e'.

(** The same for the walk of the entries [names] of the directory [r0]. *)
Definition effects_names (m : manager) (r0 : path) (names : list string)
           (e e' : gmap path node) : Prop :=
  grows e e'
  /\ keeps_files (fun k => exists n, n ∈ names /\ dest_below m (r0 ++ [n]) k) e e'.

(** Below the input folder no path of [e] is longer than [B]. *)
Definition depth_bound (m : manager) (B : nat) (e : gmap path node) : Prop :=
  forall k, inputFolder m `prefix_of` k -> is_Some (e !! k) -> length k <= B.

(** [e'] is [e] at every path that lies neither on the way to the output
    folder nor below it. *)
Definition frame (m : manager) (e e' : gmap path node) : Prop :=
  forall k, ~ outputFolder m `prefix_of` k -> ~ k `prefix_of` outputFolder m ->
            e' !! k = e !! k.

(** Every path of [d] is shorter than [n]. *)
Definition shallower (d : gmap path node) (n : nat) : Prop :=
  map_Forall (fun k _ => length k < n) d.

(** Every path strictly above [base ++ rel], from [base] on, is a
    directory of [d]: the walk from [base] comes to [base ++ rel]. *)
Definition dirs_above (d : gmap path node) (base rel : path) : Prop :=
  forall pre, pre `prefix_of` rel -> pre <> rel -> d !! (base ++ pre) = Some Dir.

(** The messages that end the goroutine: a closed Errors channel. *)
Definition closes (i : assets.input) : Prop :=
  exists err, i = assets.Recv (assets.FromErrors false err).

(** A disk whose input folder holds directories only, and one on which
    the name of the input folder is taken by a regular file. *)
Definition bareDisk : gmap path node :=
  list_to_map
    [ ([], Dir);
      (["assets"], Dir);
      (["assets"; "css"], Dir);
      (["assets"; "css"; "vendor"], Dir) ].

Definition fileDisk : gmap path node :=
  list_to_map
    [ ([], Dir);
      (["assets"], File (b "AA")) ].

(** The messages that the goroutine passes over: what comes from a
    closed Events channel, and the events that ask for no copy. *)
Definition ignored (i : assets.input) : Prop :=
  exists ok event,
    i = assets.Recv (assets.FromEvents ok event)
    /\ (ok = false \/ assets.needsCopy event = false).

(** A history for the examples: a closed Events channel, an error, a
    file removed, and then the Errors channel closed. *)
Definition closingHistory : list assets.input :=
  [ assets.Recv (assets.FromEvents false (fsnotify.mkEvent [] []));
    assets.Recv (assets.FromErrors true ErrWatcher);
    assets.Recv (assets.FromEvents true
                   (fsnotify.mkEvent ["assets"; "a.js"] [fsnotify.Remove]));
    assets.Recv (assets.FromErrors false ErrWatcher);
    assets.Recv (assets.FromEvents true
                   (fsnotify.mkEvent ["assets"; "b.js"] [fsnotify.Write])) ].

Definition quietHistory : list assets.input :=
  [ assets.Recv (assets.FromEvents false (fsnotify.mkEvent [] []));
    assets.Recv (assets.FromEvents true
                   (fsnotify.mkEvent ["assets"; "a.js"] [fsnotify.Remove]));
    assets.Recv (assets.FromEvents true
                   (fsnotify.mkEvent ["assets"; "a.js"]
                      [fsnotify.Chmod; fsnotify.Remove])) ].

(** A folder made in the source, and the events that tell of it. *)
Definition grownDisk : gmap path node :=
  <[ ["assets"; "img"] := Dir ]>
    (<[ ["assets"; "img"; "logo.png"] := File (b "PNG") ]> syncedDisk).

Definition createHistory : list assets.input :=
  [ assets.Outside grownDisk;
    assets.Recv (assets.FromEvents true
                   (fsnotify.mkEvent ["assets"; "img"] [fsnotify.Create]));
    assets.Recv (assets.FromErrors true ErrWatcher);
    assets.Recv (assets.FromEvents true
                   (fsnotify.mkEvent ["assets"; "gone"] [fsnotify.Create])) ].

(** The grown disk after one pass. *)
Definition grownSynced : gmap path node :=
  <[ ["build"; "img"] := Dir ]>
    (<[ ["build"; "img"; "logo.png"] := File (b "PNG") ]> grownDisk).

(** The goroutine before and after [createHistory]. *)
Definition watchingState : assets.loopState :=
  assets.mkLoop syncedDisk {[ ["assets"] ]} [].

Definition grownState : assets.loopState :=
  assets.mkLoop grownSynced {[ ["assets"; "img"]; ["assets"] ]}
                [assets.LogPrefixed "error:" ErrWatcher].

(** The walk from [base] comes to [k]: [k] is there, at or below
    [base], and every path between the two is a directory. *)
Definition reached (d : gmap path node) (base k : path) : Prop :=
  exists rel, k = base ++ rel /\ is_Some (d !! k) /\ dirs_above d base rel.

(** The goroutine as [Watch] starts it on the sample disk. *)
Definition startedState : assets.loopState :=
  assets.mkLoop syncedDisk
    {[ ["assets"]; ["assets"; "a.js"]; ["assets"; "b.js"];
       ["assets"; "sub"]; ["assets"; "sub"; "c.css"] ]}
    [].

(** A disk on which the place of a copy is taken by a directory. *)
Definition clashDisk : gmap path node :=
  list_to_map
    [ ([], Dir);
      (["assets"], Dir);
      (["assets"; "a.js"], File (b "AA"));
      (["build"], Dir);
      (["build"; "a.js"], Dir) ].

(** [e'] is [e] with some of its regular files cut to no bytes. *)
Definition emptied (e e' : gmap path node) : Prop :=
  forall k, e' !! k = e !! k
            \/ exists c, e !! k = Some (File c) /\ e' !! k = Some (File []).

(** * Properties *)

(** ** The read operations *)

Example Ext_examples :
  filepath.Ext "main.go" = ".go" /\ filepath.Ext "a.b/main" = ""
  /\ filepath.Ext "x/.go" = ".go" /\ filepath.Ext "main.js" = ".js"
  /\ filepath.Ext "dir.go/" = "".
Proof. repeat split; reflexivity. Qed.

(** [Open] refuses every name with the extension [.go], whatever the
    mode and whatever the two file systems hold. *)
Lemma Open_denylist (m : manager) (w : World) (name : string) :
  filepath.Ext name = ".go" -> assets.Open m w name = Err ErrNotExist.
Proof.
  intros Hext. unfold assets.Open. rewrite Hext.
  destruct (decide (".go" = ".go")); [reflexivity | contradiction].
Qed.

(** Past the extension check, [Open] reads the folder on disk exactly
    when GO_ENV is "development" at the time of the call. *)
Lemma Open_by_mode (m : manager) (w : World) (name : string) :
  filepath.Ext name <> ".go" ->
  assets.Open m w name =
  fs_Open (if decide (os.Getenv w "GO_ENV" = "development")
           then folder m else embedded m) (disk w) name.
Proof.
  intros Hext. unfold assets.Open.
  destruct (decide (filepath.Ext name = ".go")); [contradiction |].
  destruct (decide (os.Getenv w "GO_ENV" = "development")); reflexivity.
Qed.

(** [ReadFile] looks at the snapshot alone: neither the environment nor,
    for a snapshot that is a fixed table, the disk has a say. *)
Lemma ReadFile_snapshot_only (files : gmap string bytes) (fo : FS) (sp : string)
      (i o : path) (w w' : World) (name : string) :
  assets.ReadFile (mkManager (fstest.MapFS files) fo sp i o) w name =
  assets.ReadFile (mkManager (fstest.MapFS files) fo sp i o) w' name.
Proof. reflexivity. Qed.

(** C1 (the code departs from the claim): [ReadFile] has no extension
    check.  On a snapshot that holds [main.go] it returns the bytes of
    the file, in production and in development mode alike, where [Open]
    answers not-found. *)
Theorem ReadFile_serves_denylisted :
  filepath.Ext "main.go" = ".go"
  /\ assets.Open sampleManager prodWorld "main.go" = Err ErrNotExist
  /\ assets.Open sampleManager devWorld "main.go" = Err ErrNotExist
  /\ assets.ReadFile sampleManager prodWorld "main.go" = Ok (b "package main")
  /\ assets.ReadFile sampleManager devWorld "main.go" = Ok (b "package main").
Proof. repeat split; compute_done. Qed.

(** In development mode [Open] reads the disk as it is at the call. *)
Lemma Open_live_reads_disk (m : manager) (w : World) (root : path) (name : string) :
  folder m = os.DirFS root ->
  filepath.Ext name <> ".go" ->
  os.Getenv w "GO_ENV" = "development" ->
  assets.Open m w name
  = match os.join root name with
    | Err e => Err e
    | Ok fullname =>
        match disk w !! fullname with
        | Some n => Ok n
        | None => Err ErrNotExist
        end
    end.
Proof.
  intros Hfolder Hext Henv. rewrite Open_by_mode by assumption.
  destruct (decide (os.Getenv w "GO_ENV" = "development")); [| contradiction].
  now rewrite Hfolder.
Qed.

(** The path of a valid name below the root of an [os.DirFS]. *)
Lemma join_valid (root : path) (name : string) :
  fs.ValidPath name = true -> os.hasNUL name = false -> name <> "." ->
  os.join root name = Ok (root ++ components name).
Proof.
  intros Hvalid Hnul Hdot. unfold os.join. rewrite Hvalid, Hnul. cbn [negb orb].
  apply String.eqb_neq in Hdot. now rewrite Hdot.
Qed.

(** C2 (the code departs from the claim): in development mode [Open]
    reads the folder on disk, and sees the file [a.js] that a pass of
    [CopyAll] has written there; [ReadFile] still answers from the
    snapshot: it does not find [a.js], and for [main.js], which holds
    "LIVE" on disk, it returns the "AAA" of the snapshot. *)
Theorem ReadFile_ignores_live_folder :
  os.Getenv syncedWorld "GO_ENV" = "development"
  /\ assets.CopyAll 3 sampleManager (disk devWorld) = Some (disk syncedWorld, None)
  /\ assets.Open sampleManager devWorld "a.js" = Err ErrNotExist
  /\ assets.Open sampleManager syncedWorld "a.js" = Ok (File (b "AA"))
  /\ assets.ReadFile sampleManager syncedWorld "a.js" = Err ErrNotExist
  /\ assets.Open sampleManager syncedWorld "main.js" = Ok (File (b "LIVE"))
  /\ assets.ReadFile sampleManager syncedWorld "main.js" = Ok (b "AAA").
Proof. repeat split; compute_done. Qed.

(** C3, as stated, fails: were the variant fixed when the manager is
    built, one manager over one disk would answer [Open] the same way
    whatever the environment holds at the time of the call. *)
Lemma Open_mode_not_fixed :
  ~ (forall w1 w2 : World,
        disk w1 = disk w2 ->
        assets.Open sampleManager w1 "main.js" = assets.Open sampleManager w2 "main.js").
Proof.
  intros H. specialize (H prodWorld devWorld eq_refl). revert H. compute_done.
Qed.

(** C3 (amended): [Open] chooses between the snapshot and the live folder
    on every call, from the value GO_ENV has at that call: two worlds
    that agree on the disk and on whether GO_ENV is "development" get
    the same answer, the folder's when it is and the snapshot's when it
    is not. *)
Theorem Open_selects_per_call (m : manager) (w1 w2 : World) (name : string) :
  filepath.Ext name <> ".go" ->
  disk w1 = disk w2 ->
  (os.Getenv w1 "GO_ENV" = "development" <-> os.Getenv w2 "GO_ENV" = "development") ->
  assets.Open m w1 name = assets.Open m w2 name
  /\ (os.Getenv w1 "GO_ENV" = "development" ->
      assets.Open m w1 name = fs_Open (folder m) (disk w1) name)
  /\ (os.Getenv w1 "GO_ENV" <> "development" ->
      assets.Open m w1 name = fs_Open (embedded m) (disk w1) name).
Proof.
  intros Hext Hdisk Henv.
  rewrite !Open_by_mode by assumption. rewrite <- Hdisk.
  repeat split.
  - destruct (decide (os.Getenv w1 "GO_ENV" = "development")) as [H1 | H1];
      destruct (decide (os.Getenv w2 "GO_ENV" = "development")) as [H2 | H2];
      try reflexivity; tauto.
  - intros H1. destruct (decide _); [reflexivity | contradiction].
  - intros H1. destruct (decide _); [contradiction | reflexivity].
Qed.

Lemma Open_selects_per_call_witness :
  assets.Open sampleManager devWorld "main.js"
  = assets.Open sampleManager (mkWorld devEnv sampleDisk 1 1) "main.js"
  /\ (os.Getenv devWorld "GO_ENV" = "development" ->
      assets.Open sampleManager devWorld "main.js"
      = fs_Open (folder sampleManager) (disk devWorld) "main.js")
  /\ (os.Getenv devWorld "GO_ENV" <> "development" ->
      assets.Open sampleManager devWorld "main.js"
      = fs_Open (embedded sampleManager) (disk devWorld) "main.js").
Proof.
  apply (Open_selects_per_call sampleManager devWorld
           (mkWorld devEnv sampleDisk 1 1) "main.js").
  - compute_done.
  - reflexivity.
  - split; intros _; compute_done.
Defined.

(** ** Fingerprinted paths *)

Lemma string_app_nil (s : string) : "" +:+ s = s.
Proof. reflexivity. Qed.

Lemma string_app_cons (c : ascii) (s1 s2 : string) :
  String c s1 +:+ s2 = String c (s1 +:+ s2).
Proof. reflexivity. Qed.

Lemma string_app_length (s1 s2 : string) :
  String.length (s1 +:+ s2) = String.length s1 + String.length s2.
Proof.
  induction s1 as [| c s1 IH]; [reflexivity |].
  rewrite string_app_cons. cbn. now rewrite IH.
Qed.

(** Two splits of one string at the same position are the same split. *)
Lemma string_app_inj_length (s1 s2 r1 r2 : string) :
  String.length s1 = String.length s2 ->
  s1 +:+ r1 = s2 +:+ r2 -> s1 = s2 /\ r1 = r2.
Proof.
  revert s2. induction s1 as [| c s1 IH]; intros [| c' s2] Hlen Heq;
    rewrite ?string_app_cons, ?string_app_nil in Heq; cbn in Hlen;
    try discriminate.
  - split; [reflexivity | assumption].
  - injection Hlen as Hlen. injection Heq as -> Heq.
    destruct (IH s2 Hlen Heq) as [-> ->]. split; reflexivity.
Qed.

Lemma Split_app (s : string) :
  (assets.Split s).1 +:+ (assets.Split s).2 = s.
Proof.
  induction s as [| c s IH]; cbn; [reflexivity |].
  destruct (assets.Split s) as [[| c' d] f] eqn:Hs; cbn in *.
  - rewrite string_app_nil in IH.
    destruct (Ascii.eqb c "/"); cbn;
      rewrite ?string_app_cons, ?string_app_nil; now rewrite IH.
  - rewrite string_app_cons. now rewrite IH.
Qed.

Lemma string_prefix_app (p s : string) : String.prefix p (p +:+ s) = true.
Proof.
  induction p as [| c p IH]; [now destruct s |].
  rewrite string_app_cons. cbn.
  destruct (ascii_dec c c); [exact IH | contradiction].
Qed.

Lemma serving_public (key token : string) :
  String.prefix "/public/" (assets.serving key token) = true.
Proof.
  unfold assets.serving. destruct (assets.Split key) as [dir base].
  exact (string_prefix_app "/public/" (dir +:+ token +:+ "-" +:+ base)).
Qed.

Section Fingerprint.

Variable hash : bytes -> string.
Variable m : manager.
Variable w : World.

Lemma index_ok_empty : assets.index_ok hash m w ∅.
Proof. intros key e H. rewrite lookup_empty in H. discriminate. Qed.

(** On a sound index [PathFor] answers what the bytes give, and leaves
    a sound index. *)
Lemma PathFor_sound (index : gmap string assets.entry) (name : string) :
  assets.index_ok hash m w index ->
  (assets.PathFor hash m w index name).1
  = match assets.fingerprint hash m w (assets.normalize name) with
    | Ok e => Ok (assets.entryPath e)
    | Err e => Err e
    end
  /\ assets.index_ok hash m w (assets.PathFor hash m w index name).2.
Proof.
  intros Hok. unfold assets.PathFor.
  destruct (index !! assets.normalize name) as [e |] eqn:Hlook.
  - rewrite (Hok _ _ Hlook). split; [reflexivity | exact Hok].
  - destruct (assets.fingerprint hash m w (assets.normalize name)) as [e | e] eqn:Hfp;
      cbn; (split; [reflexivity |]); [| exact Hok].
    intros key e' Hk. destruct (decide (assets.normalize name = key)) as [<- | Hne].
    + rewrite lookup_insert_eq in Hk. congruence.
    + rewrite lookup_insert_ne in Hk by assumption. eauto.
Qed.

End Fingerprint.

Lemma pad_length (n : nat) (s : string) : String.length (pad n s) = n.
Proof.
  revert s. induction n as [| n IH]; intros s; [reflexivity |].
  destruct s; cbn; now rewrite IH.
Qed.

(** C4: two calls of [PathFor] for one logical path return the same
    answer when the bytes of the asset read the same at both calls: the
    second call on the index the first one left, and also a call on the
    empty index of a new process. *)
Theorem PathFor_deterministic (hash : bytes -> string) (m : manager)
        (w1 w2 : World) (index : gmap string assets.entry) (name : string) :
  assets.ReadFile m w1 (assets.normalize name)
  = assets.ReadFile m w2 (assets.normalize name) ->
  (assets.PathFor hash m w2 (assets.PathFor hash m w1 index name).2 name).1
  = (assets.PathFor hash m w1 index name).1
  /\ (assets.PathFor hash m w2 ∅ name).1 = (assets.PathFor hash m w1 ∅ name).1.
Proof.
  intros Hread.
  assert (Hfp : assets.fingerprint hash m w2 (assets.normalize name)
                = assets.fingerprint hash m w1 (assets.normalize name)).
  { unfold assets.fingerprint. now rewrite Hread. }
  split.
  - unfold assets.PathFor.
    destruct (index !! assets.normalize name) as [e |] eqn:Hlook; cbn [fst snd].
    + now rewrite Hlook.
    + destruct (assets.fingerprint hash m w1 (assets.normalize name)) as [e | e] eqn:H1;
        cbn [fst snd].
      * now rewrite lookup_insert_eq.
      * now rewrite Hlook, Hfp.
  - unfold assets.PathFor. rewrite lookup_empty, Hfp. reflexivity.
Qed.

Lemma PathFor_deterministic_witness :
  (assets.PathFor toyHash sampleManager devWorld
     (assets.PathFor toyHash sampleManager prodWorld ∅ "public/main.js").2
     "public/main.js").1
  = (assets.PathFor toyHash sampleManager prodWorld ∅ "public/main.js").1
  /\ (assets.PathFor toyHash sampleManager devWorld ∅ "public/main.js").1
     = (assets.PathFor toyHash sampleManager prodWorld ∅ "public/main.js").1.
Proof.
  apply (PathFor_deterministic toyHash sampleManager prodWorld devWorld ∅ "public/main.js").
  compute_done.
Defined.

(** C5: with or without the leading slash and the public prefix,
    "main.js" resolves to one ServingPath, and every ServingPath that
    [PathFor] returns starts with "/public/". *)
Theorem PathFor_normalizes (hash : bytes -> string) (m : manager) (w : World)
        (i1 i2 i3 i4 : gmap string assets.entry) :
  assets.index_ok hash m w i1 -> assets.index_ok hash m w i2 ->
  assets.index_ok hash m w i3 -> assets.index_ok hash m w i4 ->
  (assets.PathFor hash m w i2 "/main.js").1 = (assets.PathFor hash m w i1 "main.js").1
  /\ (assets.PathFor hash m w i3 "public/main.js").1 = (assets.PathFor hash m w i1 "main.js").1
  /\ (assets.PathFor hash m w i4 "/public/main.js").1 = (assets.PathFor hash m w i1 "main.js").1
  /\ (forall name sp,
        (assets.PathFor hash m w i1 name).1 = Ok sp ->
        String.prefix "/public/" sp = true).
Proof.
  intros H1 H2 H3 H4.
  rewrite (proj1 (PathFor_sound hash m w i1 "main.js" H1)).
  rewrite (proj1 (PathFor_sound hash m w i2 "/main.js" H2)).
  rewrite (proj1 (PathFor_sound hash m w i3 "public/main.js" H3)).
  rewrite (proj1 (PathFor_sound hash m w i4 "/public/main.js" H4)).
  repeat split; try reflexivity.
  intros name sp. rewrite (proj1 (PathFor_sound hash m w i1 name H1)).
  unfold assets.fingerprint.
  destruct (assets.ReadFile m w (assets.normalize name)); [| discriminate].
  cbn. intros [= <-]. apply serving_public.
Qed.

Lemma PathFor_normalizes_witness :
  (assets.PathFor toyHash sampleManager prodWorld ∅ "/main.js").1
  = (assets.PathFor toyHash sampleManager prodWorld ∅ "main.js").1
  /\ (assets.PathFor toyHash sampleManager prodWorld ∅ "public/main.js").1
     = (assets.PathFor toyHash sampleManager prodWorld ∅ "main.js").1
  /\ (assets.PathFor toyHash sampleManager prodWorld ∅ "/public/main.js").1
     = (assets.PathFor toyHash sampleManager prodWorld ∅ "main.js").1
  /\ (forall name sp,
        (assets.PathFor toyHash sampleManager prodWorld ∅ name).1 = Ok sp ->
        String.prefix "/public/" sp = true).
Proof.
  apply (PathFor_normalizes toyHash sampleManager prodWorld ∅ ∅ ∅ ∅);
    apply index_ok_empty.
Defined.

Example PathFor_main_js :
  (assets.PathFor toyHash sampleManager prodWorld ∅ "main.js").1
  = Ok "/public/AAA00000-main.js"
  /\ (assets.PathFor toyHash sampleManager prodWorld ∅ "public/other/main.js").1
     = Ok "/public/other/AAA00000-main.js".
Proof. split; compute_done. Qed.

(** C6: two logical paths with one base name and two directories resolve
    to two ServingPaths, whatever their contents, as long as tokens have
    one length; with the same bytes the two paths carry the same token. *)
Theorem PathFor_respects_folders (hash : bytes -> string) (m : manager) (w : World)
        (i1 i2 : gmap string assets.entry) (n1 n2 sp1 sp2 : string) :
  (forall x y, String.length (hash x) = String.length (hash y)) ->
  assets.index_ok hash m w i1 -> assets.index_ok hash m w i2 ->
  (assets.Split (assets.normalize n1)).2 = (assets.Split (assets.normalize n2)).2 ->
  (assets.Split (assets.normalize n1)).1 <> (assets.Split (assets.normalize n2)).1 ->
  (assets.PathFor hash m w i1 n1).1 = Ok sp1 ->
  (assets.PathFor hash m w i2 n2).1 = Ok sp2 ->
  sp1 <> sp2
  /\ (forall data,
        assets.ReadFile m w (assets.normalize n1) = Ok data ->
        assets.ReadFile m w (assets.normalize n2) = Ok data ->
        sp1 = assets.serving (assets.normalize n1) (hash data)
        /\ sp2 = assets.serving (assets.normalize n2) (hash data)).
Proof.
  intros Hlen H1 H2 Hbase Hdir.
  rewrite (proj1 (PathFor_sound hash m w i1 n1 H1)).
  rewrite (proj1 (PathFor_sound hash m w i2 n2 H2)).
  unfold assets.fingerprint.
  destruct (assets.ReadFile m w (assets.normalize n1)) as [data1 |]; [| discriminate].
  destruct (assets.ReadFile m w (assets.normalize n2)) as [data2 |]; [| discriminate].
  cbn. intros [= <-] [= <-]. split.
  - unfold assets.serving.
    destruct (assets.Split (assets.normalize n1)) as [dir1 base1].
    destruct (assets.Split (assets.normalize n2)) as [dir2 base2].
    cbn in Hbase, Hdir. subst base2. intros Heq.
    change (("/public/" +:+ (dir1 +:+ hash data1 +:+ "-" +:+ base1))
            = ("/public/" +:+ (dir2 +:+ hash data2 +:+ "-" +:+ base1))) in Heq.
    apply String.app_inj in Heq.
    assert (Hl := f_equal String.length Heq).
    rewrite !string_app_length, (Hlen data1 data2) in Hl.
    apply string_app_inj_length in Heq; [| lia].
    destruct Heq as [Heq _]. contradiction.
  - intros data [= ->] [= ->]. split; reflexivity.
Qed.

Lemma PathFor_respects_folders_witness :
  "/public/AAA00000-main.js" <> "/public/other/AAA00000-main.js"
  /\ (forall data,
        assets.ReadFile sampleManager prodWorld (assets.normalize "public/main.js")
        = Ok data ->
        assets.ReadFile sampleManager prodWorld (assets.normalize "public/other/main.js")
        = Ok data ->
        "/public/AAA00000-main.js"
        = assets.serving (assets.normalize "public/main.js") (toyHash data)
        /\ "/public/other/AAA00000-main.js"
           = assets.serving (assets.normalize "public/other/main.js") (toyHash data)).
Proof.
  apply (PathFor_respects_folders toyHash sampleManager prodWorld ∅ ∅
           "public/main.js" "public/other/main.js"
           "/public/AAA00000-main.js" "/public/other/AAA00000-main.js").
  - intros x y. unfold toyHash. now rewrite !pad_length.
  - apply index_ok_empty.
  - apply index_ok_empty.
  - compute_done.
  - compute_done.
  - compute_done.
  - compute_done.
Defined.

(** ** The calls of a walk *)

Section Recorded.

Context {St : Type}.
Variable dsk : St -> gmap path node.
Variable fn : path -> result node -> St -> St * option error.

Lemma aborts_at_nil (s : St) (r : option error) : aborts_at [] s r.
Proof. intros i p s0 e H. simplify_eq/=. Qed.

Lemma aborts_at_single (p : path) (s : St) (r : option error) :
  aborts_at [(p, s, r)] s r.
Proof.
  intros [| i] p0 s0 e H; simplify_eq/=. auto.
Qed.

Lemma aborts_at_app (new1 new2 : list (filepath.call St)) (s1 s' : St)
      (r : option error) :
  aborts_at new1 s1 None -> aborts_at new2 s' r -> aborts_at (new1 ++ new2) s' r.
Proof.
  intros H1 H2 i p s e Hi. rewrite length_app.
  destruct (decide (i < length new1)) as [Hlt | Hge].
  - rewrite lookup_app_l in Hi by assumption.
    destruct (H1 _ _ _ _ Hi) as (_ & _ & [=]).
  - rewrite lookup_app_r in Hi by lia.
    destruct (H2 _ _ _ _ Hi) as (Hlen & -> & ->).
    split; [lia | split; reflexivity].
Qed.

Abbreviation dsk' := (fun s : St * list (filepath.call St) => dsk s.1).

Lemma walkNames_recorded
      (rec : path -> node -> St -> option (St * option error))
      (rec' : path -> node -> St * list (filepath.call St)
              -> option ((St * list (filepath.call St)) * option error))
      (p : path) :
  (forall q info s tr, recorded_run (rec q info s) tr (rec' q info (s, tr))) ->
  forall names s tr,
    recorded_run (filepath.walkNames dsk fn rec p names s) tr
                 (filepath.walkNames dsk' (filepath.recorded fn) rec' p names (s, tr)).
Proof.
  intros Hrec names. induction names as [| name rest IH]; intros s tr; cbn.
  - exists []. rewrite app_nil_r. split; [reflexivity | apply aborts_at_nil].
  - destruct (os.Lstat (dsk s) (p ++ [name])) as [fileInfo | e0].
    + specialize (Hrec (p ++ [name]) fileInfo s tr).
      destruct (rec (p ++ [name]) fileInfo s) as [[s1 [e1 |]] |]; cbn in Hrec.
      * destruct Hrec as (new & -> & Hnew). exists new. auto.
      * destruct Hrec as (new & -> & Hnew).
        specialize (IH s1 (tr ++ new)).
        destruct (filepath.walkNames dsk fn rec p rest s1) as [[s2 r2] |]; cbn in IH |- *.
        -- destruct IH as (new2 & -> & Hnew2). exists (new ++ new2).
           rewrite app_assoc. split; [reflexivity |].
           eapply aborts_at_app; eassumption.
        -- exact IH.
      * rewrite Hrec. reflexivity.
    + unfold filepath.recorded at 1. cbn [fst snd].
      destruct (fn (p ++ [name]) (Err e0) s) as [s1 [e1 |]].
      * exists [(p ++ [name], s1, Some e1)]. split; [reflexivity | apply aborts_at_single].
      * specialize (IH s1 (tr ++ [(p ++ [name], s1, None)])).
        destruct (filepath.walkNames dsk fn rec p rest s1) as [[s2 r2] |]; cbn in IH |- *.
        -- destruct IH as (new2 & -> & Hnew2).
           exists ([(p ++ [name], s1, None)] ++ new2).
           rewrite app_assoc. split; [reflexivity |].
           eapply aborts_at_app; [apply aborts_at_single | eassumption].
        -- exact IH.
Qed.

Lemma walk_recorded (fuel : nat) :
  forall p info s tr,
    recorded_run (filepath.walk dsk fn fuel p info s) tr
                 (filepath.walk dsk' (filepath.recorded fn) fuel p info (s, tr)).
Proof.
  induction fuel as [| fuel IH]; intros p info s tr; cbn; [reflexivity |].
  destruct (negb (IsDir info)).
  - unfold filepath.recorded. cbn [fst snd].
    destruct (fn p (Ok info) s) as [s1 r1]. cbn.
    exists [(p, s1, r1)]. split; [reflexivity | apply aborts_at_single].
  - unfold filepath.recorded at 1. cbn [fst snd].
    destruct (fn p (Ok info) s) as [s1 [e1 |]].
    + exists [(p, s1, Some e1)]. split; [reflexivity | apply aborts_at_single].
    + assert (H := walkNames_recorded (filepath.walk dsk fn fuel)
                     (filepath.walk dsk' (filepath.recorded fn) fuel) p IH
                     (filepath.readDirNames (dsk s) p) s1 (tr ++ [(p, s1, None)])).
      destruct (filepath.walkNames dsk fn (filepath.walk dsk fn fuel) p
                  (filepath.readDirNames (dsk s) p) s1) as [[s2 r2] |]; cbn in H |- *.
      * destruct H as (new2 & -> & Hnew2).
        exists ([(p, s1, None)] ++ new2).
        rewrite app_assoc. split; [reflexivity |].
        eapply aborts_at_app; [apply aborts_at_single | eassumption].
      * exact H.
Qed.

Lemma Walk_recorded (fuel : nat) (root : path) (s : St) (tr : list (filepath.call St)) :
  recorded_run (filepath.Walk dsk fn fuel root s) tr
               (filepath.Walk dsk' (filepath.recorded fn) fuel root (s, tr)).
Proof.
  unfold filepath.Walk. cbn [fst snd].
  destruct (os.Lstat (dsk s) root) as [info | e0].
  - apply walk_recorded.
  - unfold filepath.recorded. cbn [fst snd].
    destruct (fn root (Err e0) s) as [s1 r1]. cbn.
    exists [(root, s1, r1)]. split; [reflexivity | apply aborts_at_single].
Qed.

End Recorded.

(** ** A failed copy *)

(** C8: in a pass of [CopyAll], a call of the callback that returns an
    error is the last call of the pass: the pass ends in the state that
    call left and [CopyAll] returns its error, wrapped.  In the loop of
    [Watch] the error goes to the log and the loop continues with what
    it receives next. *)
Theorem CopyAll_failure_aborts_pass (fuel : nat) (m : manager) (w : World)
        (d d' : gmap path node) (calls : list (filepath.call (gmap path node)))
        (r : option error) :
  filepath.Walk fst (filepath.recorded (assets.copyFn m)) fuel (inputFolder m) (d, [])
  = Some ((d', calls), r) ->
  assets.CopyAll fuel m d = Some (d', Wrapped "error copying files" <$> r)
  /\ (forall i p s e,
        calls !! i = Some (p, s, Some e) ->
        S i = length calls /\ s = d' /\ r = Some e)
  /\ (forall e st event,
        r = Some e -> assets.l_disk st = d -> assets.needsCopy event = true ->
        exists watcher',
          let st' := assets.mkLoop d' watcher'
                       (assets.l_log st
                        ++ [assets.LogError (Wrapped "error copying files" e)]) in
          assets.turn fuel m w (assets.FromEvents true event) st
          = Some (st', assets.Continue)
          /\ forall rest,
              assets.loop fuel m w (assets.Recv (assets.FromEvents true event) :: rest) st
              = assets.loop fuel m w rest st').
Proof.
  intros Hrun.
  assert (Hrec := Walk_recorded id (assets.copyFn m) fuel (inputFolder m) d []).
  change (filepath.Walk (fun s => id s.1) (filepath.recorded (assets.copyFn m))
            fuel (inputFolder m) (d, []))
    with (filepath.Walk fst (filepath.recorded (assets.copyFn m))
            fuel (inputFolder m) (d, [])) in Hrec.
  rewrite Hrun in Hrec. unfold recorded_run in Hrec.
  destruct (filepath.Walk id (assets.copyFn m) fuel (inputFolder m) d)
    as [[s' r'] |] eqn:Hplain; [| discriminate].
  destruct Hrec as (new & Heq & Hnew). cbn in Heq. injection Heq as <- <- <-.
  assert (Hcopy : assets.CopyAll fuel m d
                  = Some (d', Wrapped "error copying files" <$> r)).
  { unfold assets.CopyAll. rewrite Hplain. destruct r; reflexivity. }
  split; [exact Hcopy |]. split; [exact Hnew |].
  intros e st event -> Hd Hneeds.
  exists (if fsnotify.Has event fsnotify.Create
          then (fsnotify.Add w d' (assets.l_watcher st) (fsnotify.Name event)).1
          else assets.l_watcher st).
  assert (Hturn : assets.turn fuel m w (assets.FromEvents true event) st
                  = Some (assets.mkLoop d'
                            (if fsnotify.Has event fsnotify.Create
                             then (fsnotify.Add w d' (assets.l_watcher st)
                                     (fsnotify.Name event)).1
                             else assets.l_watcher st)
                            (assets.l_log st
                             ++ [assets.LogError (Wrapped "error copying files" e)]),
                          assets.Continue)).
  { unfold assets.turn. cbn [negb]. rewrite Hneeds. cbn [negb].
    rewrite Hd, Hcopy. reflexivity. }
  cbn zeta. split; [exact Hturn |].
  intros rest. cbn [assets.loop]. rewrite Hturn. reflexivity.
Qed.

Lemma CopyAll_failure_aborts_pass_witness :
  assets.CopyAll 3 sampleManager blockedDisk
  = Some (blockedDisk, Wrapped "error copying files" <$> Some ENOTDIR).
Proof.
  refine (proj1 (CopyAll_failure_aborts_pass 3 sampleManager blockedWorld
                   blockedDisk blockedDisk
                   [(["assets"], blockedDisk, None);
                    (["assets"; "a.js"], blockedDisk, Some ENOTDIR)]
                   (Some ENOTDIR) _)).
  compute_done.
Defined.

(** The pass that failed is tried again at the next event: once the file
    in the way is gone, the next event copies both files, and the log
    keeps the one error. *)
Example Watch_retries_after_failure :
  assets.loop 3 sampleManager blockedWorld
    [ assets.Recv (assets.FromEvents true (writeEvent ["assets"; "a.js"]));
      assets.Outside repairedDisk;
      assets.Recv (assets.FromEvents true (writeEvent ["assets"; "a.js"])) ]
    (assets.mkLoop blockedDisk ∅ [])
  = Some (assets.mkLoop retriedDisk ∅
            [assets.LogError (Wrapped "error copying files" ENOTDIR)],
          assets.Continue).
Proof. compute_done. Qed.

(** ** The operations on the disk *)

Lemma Dir_Base (rel : path) : filepath.Dir rel ++ filepath.Base rel = rel.
Proof.
  unfold filepath.Dir, filepath.Base.
  destruct rel as [| x rel _] using rev_ind; [reflexivity |].
  rewrite removelast_last, last_snoc. reflexivity.
Qed.

Lemma Dir_prefix (rel : path) : filepath.Dir rel `prefix_of` rel.
Proof. exists (filepath.Base rel). symmetry. apply Dir_Base. Qed.

Lemma Rel_Ok (base target rel : path) :
  filepath.Rel base target = Ok rel <-> target = base ++ rel.
Proof.
  revert target. induction base as [| x base IH]; intros target; cbn.
  - split; [intros [= ->] | intros ->]; reflexivity.
  - destruct target as [| y target]; [split; discriminate |].
    destruct (decide (x = y)) as [-> | Hne].
    + rewrite IH. split; [intros -> | intros [= ->]]; reflexivity.
    + split; [discriminate | intros [= Hxy _]; symmetry in Hxy; contradiction].
Qed.

Lemma Rel_app (base rel : path) : filepath.Rel base (base ++ rel) = Ok rel.
Proof. now apply Rel_Ok. Qed.

Lemma not_new (d : gmap path node) (k : path) (P : Prop) :
  d !! k = None -> is_Some (d !! k) -> P.
Proof. intros Hk [n Hn]. congruence. Qed.

Lemma Mkdir_fresh (d : gmap path node) (p : path) :
  d !! p = None -> p <> [] -> d !! removelast p = Some Dir ->
  os.Mkdir d p = (<[p := Dir]> d, None).
Proof.
  intros Hp Hne Hparent. unfold os.Mkdir. rewrite Hp.
  destruct p; [contradiction |]. now rewrite Hparent.
Qed.

(** What [os.MkdirAll] does: it adds directories, all of them above the
    path asked for, and when it fails it has added none. *)
Lemma MkdirAll_up_spec (rp : path) :
  forall d d' r,
    os.MkdirAll_up rp d = (d', r) ->
    (forall k n, d !! k = Some n -> d' !! k = Some n)
    /\ (forall k, d !! k = None -> is_Some (d' !! k) ->
                  d' !! k = Some Dir /\ k `prefix_of` rev rp)
    /\ (r = None -> d' !! rev rp = Some Dir)
    /\ (r <> None -> d' = d).
Proof.
  assert (Hsame : forall (d : gmap path node) (p : path) (r : option error),
             (r = None -> d !! p = Some Dir) ->
             (forall k n, d !! k = Some n -> d !! k = Some n)
             /\ (forall k, d !! k = None -> is_Some (d !! k) ->
                           d !! k = Some Dir /\ k `prefix_of` p)
             /\ (r = None -> d !! p = Some Dir)
             /\ (r <> None -> d = d)).
  { intros d p r Hr. split; [auto |]. split; [| auto].
    intros k Hnone Hsome. eapply not_new; eassumption. }
  assert (Hins : forall (d : gmap path node) (p : path),
             d !! p = None ->
             (forall k n, d !! k = Some n -> <[p := Dir]> d !! k = Some n)
             /\ (forall k, d !! k = None -> is_Some (<[p := Dir]> d !! k) ->
                           <[p := Dir]> d !! k = Some Dir /\ k = p)).
  { intros d p Hp. split.
    - intros k n Hk. rewrite lookup_insert_ne; [assumption | congruence].
    - intros k Hk Hsome. destruct (decide (p = k)) as [<- | Hne].
      + split; [apply lookup_insert_eq | reflexivity].
      + rewrite lookup_insert_ne in Hsome by assumption.
        eapply not_new; eassumption. }
  induction rp as [| x rp IH]; intros d d' r; cbn [os.MkdirAll_up].
  - cbn [rev]. destruct (d !! []) as [[c |] |] eqn:Hroot.
    + intros [= <- <-]. apply Hsame. discriminate.
    + intros [= <- <-]. apply Hsame. auto.
    + unfold os.Mkdir. rewrite Hroot. intros [= <- <-].
      destruct (Hins d [] Hroot) as [Hk Hn].
      split; [exact Hk |]. split; [| split].
      * intros k Hnone Hsome. destruct (Hn k Hnone Hsome) as [Hd ->].
        split; [exact Hd | reflexivity].
      * intros _. apply lookup_insert_eq.
      * congruence.
  - destruct (d !! rev (x :: rp)) as [[c |] |] eqn:Hp.
    + intros [= <- <-]. apply Hsame. discriminate.
    + intros [= <- <-]. apply Hsame. auto.
    + destruct (os.MkdirAll_up rp d) as [d1 [e1 |]] eqn:Hup.
      * destruct (IH _ _ _ Hup) as (_ & _ & _ & Heq).
        intros [= <- <-]. rewrite Heq by discriminate.
        apply Hsame. discriminate.
      * destruct (IH _ _ _ Hup) as (Hkeep & Hnew & Hdir & _).
        specialize (Hdir eq_refl).
        assert (Hfresh : d1 !! rev (x :: rp) = None).
        { destruct (d1 !! rev (x :: rp)) as [n |] eqn:H1; [| reflexivity].
          destruct (Hnew _ Hp (ex_intro _ n H1)) as [_ Hpre].
          apply prefix_length in Hpre. cbn [rev] in Hpre.
          rewrite length_app in Hpre. cbn in Hpre. lia. }
        cbn [rev] in *. rewrite Mkdir_fresh; [| assumption | |].
        2: { destruct (rev rp); discriminate. }
        2: { now rewrite removelast_last. }
        intros [= <- <-].
        destruct (Hins d1 _ Hfresh) as [Hk Hn].
        split; [| split; [| split]].
        -- intros k n Hkn. apply Hk. now apply Hkeep.
        -- intros k Hnone Hsome.
           destruct (decide (rev rp ++ [x] = k)) as [<- | Hne].
           { split; [apply lookup_insert_eq | reflexivity]. }
           rewrite lookup_insert_ne in Hsome |- * by assumption.
           destruct (Hnew _ Hnone Hsome) as [Hd Hpre].
           split; [exact Hd | now apply prefix_app_r].
        -- intros _. apply lookup_insert_eq.
        -- congruence.
Qed.

Lemma MkdirAll_spec (d d' : gmap path node) (p : path) (r : option error) :
  os.MkdirAll d p = (d', r) ->
  (forall k n, d !! k = Some n -> d' !! k = Some n)
  /\ (forall k, d !! k = None -> is_Some (d' !! k) ->
                d' !! k = Some Dir /\ k `prefix_of` p)
  /\ (r = None -> d' !! p = Some Dir)
  /\ (r <> None -> d' = d).
Proof.
  unfold os.MkdirAll. intros H. apply MkdirAll_up_spec in H.
  now rewrite rev_involutive in H.
Qed.

(** A directory that is there is made at no cost. *)
Lemma MkdirAll_there (d : gmap path node) (p : path) :
  d !! p = Some Dir -> os.MkdirAll d p = (d, None).
Proof.
  unfold os.MkdirAll. intros H. rewrite <- (rev_involutive p) in H.
  destruct (rev p); cbn [os.MkdirAll_up]; now rewrite H.
Qed.

(** ** The callback of CopyAll *)

Lemma grows_refl (d : gmap path node) : grows d d.
Proof. intros k n H. eauto. Qed.

Lemma grows_trans (d1 d2 d3 : gmap path node) :
  grows d1 d2 -> grows d2 d3 -> grows d1 d3.
Proof.
  intros H12 H23 k n H. destruct (H12 _ _ H) as (n2 & H2 & E2).
  destruct (H23 _ _ H2) as (n3 & H3 & E3). exists n3. split; congruence.
Qed.

Lemma grows_Dir (d d' : gmap path node) (k : path) :
  grows d d' -> d !! k = Some Dir -> d' !! k = Some Dir.
Proof.
  intros Hg Hk. destruct (Hg _ _ Hk) as ([c |] & Hn & E); [discriminate E | exact Hn].
Qed.

Lemma grows_File (d d' : gmap path node) (k : path) (c : bytes) :
  grows d d' -> d !! k = Some (File c) -> exists c', d' !! k = Some (File c').
Proof.
  intros Hg Hk. destruct (Hg _ _ Hk) as ([c' |] & Hn & E); [eauto | discriminate E].
Qed.

Lemma keeps_files_refl (Q : path -> Prop) (d : gmap path node) : keeps_files Q d d.
Proof. intros k c H. now left. Qed.

Lemma keeps_files_weaken (Q Q' : path -> Prop) (d d' : gmap path node) :
  (forall k, Q k -> Q' k) -> keeps_files Q d d' -> keeps_files Q' d d'.
Proof. intros HQ H k c Hk. destruct (H _ _ Hk); auto. Qed.

Lemma keeps_files_trans (Q : path -> Prop) (d1 d2 d3 : gmap path node) :
  keeps_files Q d1 d2 -> keeps_files Q d2 d3 -> keeps_files Q d1 d3.
Proof.
  intros H12 H23 k c Hk. destruct (H12 _ _ Hk) as [H2 | HQ]; [| now right].
  exact (H23 _ _ H2).
Qed.

Lemma grows_insert_file (d : gmap path node) (k : path) (c : bytes) :
  d !! k <> Some Dir -> grows d (<[k := File c]> d).
Proof.
  intros Hk k' n Hn. destruct (decide (k = k')) as [<- | Hne].
  - rewrite lookup_insert_eq. destruct n; [eauto | contradiction].
  - rewrite lookup_insert_ne by assumption. eauto.
Qed.

Lemma keeps_files_insert (d : gmap path node) (k : path) (n : node) :
  keeps_files (fun k' => k' = k) d (<[k := n]> d).
Proof.
  intros k' c Hk'. destruct (decide (k = k')) as [<- | Hne]; [now right |].
  left. now rewrite lookup_insert_ne.
Qed.

Section Callback.

Variable m : manager.

Lemma copyFn_dir (p : path) (info : node) (d : gmap path node) :
  IsDir info = true -> assets.copyFn m p (Ok info) d = (d, None).
Proof. intros H. unfold assets.copyFn. now rewrite H. Qed.

(** The callback looks at the kind of the file only. *)
Lemma copyFn_info (p : path) (i1 i2 : node) (d : gmap path node) :
  IsDir i1 = IsDir i2 ->
  assets.copyFn m p (Ok i1) d = assets.copyFn m p (Ok i2) d.
Proof. intros H. unfold assets.copyFn. now rewrite H. Qed.

Lemma copyFn_not_below (p : path) (info : node) (d d' : gmap path node)
      (r : option error) :
  ~ inputFolder m `prefix_of` p -> IsDir info = false ->
  assets.copyFn m p (Ok info) d = (d', r) -> d' = d /\ r <> None.
Proof.
  intros Hp Hfile. unfold assets.copyFn. rewrite Hfile.
  destruct (filepath.Rel (inputFolder m) p) as [rel | e] eqn:Hrel.
  - apply Rel_Ok in Hrel. destruct Hp. now exists rel.
  - intros [= <- <-]. split; [reflexivity | discriminate].
Qed.

(** On a regular file below the input folder the callback makes the
    destination folder and copies the file to its place in it. *)
Lemma copyFn_file (rel : path) (info : node) (d : gmap path node) :
  IsDir info = false ->
  assets.copyFn m (inputFolder m ++ rel) (Ok info) d
  = match os.MkdirAll d (outputFolder m ++ filepath.Dir rel) with
    | (d1, Some e) => (d1, Some e)
    | (d1, None) => copyTo (outputFolder m ++ rel) (inputFolder m ++ rel) d1
    end.
Proof.
  intros Hfile. unfold assets.copyFn. rewrite Hfile, Rel_app.
  destruct (os.MkdirAll d (outputFolder m ++ filepath.Dir rel)) as [d1 [e |]] eqn:Hmk;
    [reflexivity |].
  apply MkdirAll_spec in Hmk. destruct Hmk as (_ & _ & Hdir & _).
  specialize (Hdir eq_refl).
  rewrite <- app_assoc, Dir_Base.
  unfold os.Open, copyTo.
  destruct (d1 !! (inputFolder m ++ rel)) as [src |]; [| reflexivity].
  unfold os.Create, io.Copy.
  destruct (d1 !! (outputFolder m ++ rel)) as [[c |] |] eqn:Hdest.
  - destruct (<[outputFolder m ++ rel := File []]> d1 !! (inputFolder m ++ rel))
      as [[data |] |]; rewrite ?insert_insert_eq; reflexivity.
  - reflexivity.
  - destruct rel as [| x rel _] using rev_ind.
    { cbn in Hdir. rewrite app_nil_r in Hdir, Hdest. congruence. }
    rewrite app_assoc, removelast_last.
    unfold filepath.Dir in Hdir. rewrite removelast_last in Hdir. rewrite Hdir.
    destruct (<[(outputFolder m ++ rel) ++ [x] := File []]> d1
                !! (inputFolder m ++ rel ++ [x])) as [[data |] |];
      rewrite ?insert_insert_eq; reflexivity.
Qed.

Lemma copyTo_effects (dest p : path) (d d' : gmap path node) (r : option error) :
  copyTo dest p d = (d', r) ->
  grows d d' /\ keeps_files (fun k => k = dest) d d'
  /\ (forall k, d !! k = None -> is_Some (d' !! k) -> k = dest).
Proof.
  assert (Hnew : forall n k, d !! k = None -> is_Some (<[dest := n]> d !! k) -> k = dest).
  { intros n k Hk Hs. destruct (decide (dest = k)) as [<- | Hne]; [reflexivity |].
    rewrite lookup_insert_ne in Hs by assumption. eapply not_new; eassumption. }
  assert (Hsame : grows d d /\ keeps_files (fun k => k = dest) d d
                  /\ (forall k, d !! k = None -> is_Some (d !! k) -> k = dest)).
  { split; [apply grows_refl |]. split; [apply keeps_files_refl |].
    intros k Hk Hs. eapply not_new; eassumption. }
  unfold copyTo. destruct (d !! p) as [src |]; [| intros [= <- <-]; exact Hsame].
  assert (Hins : d !! dest <> Some Dir -> forall c,
             grows d (<[dest := File c]> d)
             /\ keeps_files (fun k => k = dest) d (<[dest := File c]> d)
             /\ (forall k, d !! k = None -> is_Some (<[dest := File c]> d !! k) -> k = dest)).
  { intros Hd c. split; [now apply grows_insert_file |].
    split; [apply keeps_files_insert | apply Hnew]. }
  destruct (d !! dest) as [[c |] |] eqn:Hdest.
  - destruct (<[dest := File []]> d !! p) as [[data |] |];
      intros [= <- <-]; apply Hins; discriminate.
  - intros [= <- <-]; exact Hsame.
  - destruct (<[dest := File []]> d !! p) as [[data |] |];
      intros [= <- <-]; apply Hins; discriminate.
Qed.

(** What one call of the callback does to the disk: entries are added
    and the one file written is the destination of the path. *)
Lemma copyFn_effects (p : path) (info : result node) (d d' : gmap path node)
      (r : option error) :
  assets.copyFn m p info d = (d', r) ->
  grows d d'
  /\ keeps_files (fun k => exists rel, p = inputFolder m ++ rel
                                      /\ k = outputFolder m ++ rel) d d'
  /\ (forall k, d !! k = None -> is_Some (d' !! k) ->
                exists rel, p = inputFolder m ++ rel
                            /\ k `prefix_of` outputFolder m ++ rel).
Proof.
  assert (Hsame : forall Q R,
             grows d d /\ keeps_files Q d d
             /\ (forall k, d !! k = None -> is_Some (d !! k) -> R k)).
  { intros Q R. split; [apply grows_refl |]. split; [apply keeps_files_refl |].
    intros k Hk Hs. eapply not_new; eassumption. }
  destruct info as [info | e]; [| intros [= <- <-]; apply Hsame].
  destruct (IsDir info) eqn:Hkind.
  { rewrite copyFn_dir by assumption. intros [= <- <-]; apply Hsame. }
  destruct (decide (inputFolder m `prefix_of` p)) as [[rel ->] | Hp].
  2: { intros H. apply copyFn_not_below in H; [| assumption..].
       destruct H as [-> _]. apply Hsame. }
  rewrite copyFn_file by assumption.
  destruct (os.MkdirAll d (outputFolder m ++ filepath.Dir rel)) as [d1 r1] eqn:Hmk.
  apply MkdirAll_spec in Hmk. destruct Hmk as (Hkeep & Hnew & _ & Hfail).
  destruct r1 as [e1 |].
  { intros [= <- <-]. rewrite Hfail by discriminate. apply Hsame. }
  intros Hto. apply copyTo_effects in Hto. destruct Hto as (Hg & Hk & Hn).
  split; [| split].
  - eapply grows_trans; [| exact Hg]. intros k n Hkn. exists n. auto.
  - intros k c Hkc. destruct (Hk k c (Hkeep _ _ Hkc)) as [H1 | ->]; [now left |].
    right. now exists rel.
  - intros k Hnone Hsome. exists rel. split; [reflexivity |].
    destruct (d1 !! k) as [n1 |] eqn:Hd1.
    + destruct (Hnew k Hnone (ex_intro _ n1 Hd1)) as [_ Hpre].
      etrans; [exact Hpre |]. apply prefix_app, Dir_prefix.
    + now rewrite (Hn k Hd1 Hsome).
Qed.

End Callback.

(** ** A copy that is made *)

Section Copied.

Variable m : manager.

Lemma same_source_refl (d : gmap path node) : same_source m d d.
Proof. intros k _. reflexivity. Qed.

Lemma same_source_sym (d d' : gmap path node) :
  same_source m d d' -> same_source m d' d.
Proof. intros H k Hk. symmetry. now apply H. Qed.

Lemma same_source_trans (d1 d2 d3 : gmap path node) :
  same_source m d1 d2 -> same_source m d2 d3 -> same_source m d1 d3.
Proof. intros H12 H23 k Hk. rewrite (H12 k Hk). now apply H23. Qed.

(** The copy of [q] is made exactly when [q] is a regular file below
    the input folder, its destination folder is there, and its
    destination holds its bytes. *)
Lemma copied_iff (q : path) (x : gmap path node) :
  copied m q x <->
  exists rel c,
    q = inputFolder m ++ rel
    /\ x !! q = Some (File c)
    /\ x !! (outputFolder m ++ filepath.Dir rel) = Some Dir
    /\ x !! (outputFolder m ++ rel) = Some (File c)
    /\ (outputFolder m ++ rel = q -> c = []).
Proof.
  unfold copied. split.
  - intros Hc.
    destruct (decide (inputFolder m `prefix_of` q)) as [[rel ->] | Hq].
    2: { apply copyFn_not_below in Hc; [| assumption | reflexivity].
         destruct Hc as [_ Hc]. contradiction. }
    rewrite copyFn_file in Hc by reflexivity.
    destruct (os.MkdirAll x (outputFolder m ++ filepath.Dir rel)) as [d1 [e1 |]] eqn:Hmk;
      [discriminate |].
    apply MkdirAll_spec in Hmk. destruct Hmk as (_ & _ & Hdir & _).
    specialize (Hdir eq_refl). unfold copyTo in Hc.
    destruct (d1 !! (inputFolder m ++ rel)) as [src |] eqn:Hsrc; [| discriminate].
    assert (Hwrite :
              d1 !! (outputFolder m ++ rel) <> Some Dir ->
              match <[outputFolder m ++ rel := File []]> d1 !! (inputFolder m ++ rel) with
              | Some (File data) => (<[outputFolder m ++ rel := File data]> d1, None)
              | Some Dir => (<[outputFolder m ++ rel := File []]> d1, Some EISDIR)
              | None => (<[outputFolder m ++ rel := File []]> d1, Some ErrNotExist)
              end = (x, None) ->
              exists c,
                x !! (inputFolder m ++ rel) = Some (File c)
                /\ x !! (outputFolder m ++ filepath.Dir rel) = Some Dir
                /\ x !! (outputFolder m ++ rel) = Some (File c)
                /\ (outputFolder m ++ rel = inputFolder m ++ rel -> c = [])).
    { intros Hnd Hw.
      destruct (<[outputFolder m ++ rel := File []]> d1 !! (inputFolder m ++ rel))
        as [[data |] |] eqn:Hread; try discriminate.
      injection Hw as <-. exists data.
      assert (Hne : outputFolder m ++ rel <> outputFolder m ++ filepath.Dir rel)
        by congruence.
      rewrite lookup_insert_eq, (lookup_insert_ne _ _ _ _ Hne).
      destruct (decide (outputFolder m ++ rel = inputFolder m ++ rel)) as [E | E].
      - rewrite E in Hread |- *. rewrite lookup_insert_eq in Hread |- *.
        injection Hread as <-. auto.
      - rewrite lookup_insert_ne in Hread |- * by assumption.
        repeat split; auto. contradiction. }
    exists rel. destruct (d1 !! (outputFolder m ++ rel)) as [[c0 |] |] eqn:Hdest;
      [| discriminate |];
      (destruct Hwrite as (c & H1 & H2 & H3 & H4); [discriminate | exact Hc |]);
      exists c; auto.
  - intros (rel & c & -> & Hq & Hdir & Hdest & Hself).
    rewrite copyFn_file by reflexivity.
    rewrite (MkdirAll_there _ _ Hdir). unfold copyTo. rewrite Hq, Hdest.
    destruct (decide (outputFolder m ++ rel = inputFolder m ++ rel)) as [E | E].
    + rewrite E, lookup_insert_eq. rewrite insert_id; [reflexivity |].
      rewrite <- E at 1. rewrite Hdest, (Hself E). reflexivity.
    + rewrite lookup_insert_ne by assumption. rewrite Hq.
      now rewrite insert_id.
Qed.

(** After the callback has copied a file with success, the copy is made. *)
Lemma copied_after (p : path) (info : node) (e e' : gmap path node) :
  IsDir info = false ->
  assets.copyFn m p (Ok info) e = (e', None) -> copied m p e'.
Proof.
  intros Hfile Hc.
  destruct (decide (inputFolder m `prefix_of` p)) as [[rel ->] | Hp].
  2: { apply copyFn_not_below in Hc; [| assumption..].
       destruct Hc as [_ Hc]. contradiction. }
  rewrite copyFn_file in Hc by assumption.
  destruct (os.MkdirAll e (outputFolder m ++ filepath.Dir rel)) as [d1 [e1 |]] eqn:Hmk;
    [discriminate |].
  apply MkdirAll_spec in Hmk. destruct Hmk as (_ & _ & Hdir & _).
  specialize (Hdir eq_refl). unfold copyTo in Hc.
  destruct (d1 !! (inputFolder m ++ rel)) as [src |] eqn:Hsrc; [| discriminate].
  apply copied_iff. exists rel.
  assert (Hne : d1 !! (outputFolder m ++ rel) <> Some Dir ->
                outputFolder m ++ rel <> outputFolder m ++ filepath.Dir rel)
    by congruence.
  destruct (d1 !! (outputFolder m ++ rel)) as [[c0 |] |] eqn:Hdest; [| discriminate |];
    (specialize (Hne ltac:(discriminate));
     destruct (<[outputFolder m ++ rel := File []]> d1 !! (inputFolder m ++ rel))
       as [[data |] |] eqn:Hread; try discriminate;
     injection Hc as <-; exists data;
     rewrite lookup_insert_eq, (lookup_insert_ne _ _ _ _ Hne);
     destruct (decide (outputFolder m ++ rel = inputFolder m ++ rel)) as [E | E];
     [ rewrite E in Hread |- *; rewrite lookup_insert_eq in Hread |- *;
       injection Hread as <-; auto
     | rewrite lookup_insert_ne in Hread |- * by assumption;
       repeat split; auto; contradiction ]).
Qed.

(** A call of the callback that leaves the source alone leaves the
    copies made before it as they are. *)
Lemma copied_stable (p q : path) (info : result node) (e e' : gmap path node)
      (r : option error) :
  assets.copyFn m p info e = (e', r) -> same_source m e e' ->
  copied m q e -> copied m q e'.
Proof.
  intros Hstep Hsrc Hq.
  destruct (copyFn_effects m _ _ _ _ _ Hstep) as (Hg & Hk & _).
  assert (Hq' := Hq). apply copied_iff in Hq'.
  destruct Hq' as (rel & c & -> & Hfile & Hdir & Hdest & Hself).
  destruct (Hk _ _ Hdest) as [Hkept | (rel' & -> & E)].
  - apply copied_iff. exists rel, c. repeat split; auto.
    + rewrite <- Hsrc; [assumption | now exists rel].
    + eapply grows_Dir; eassumption.
  - apply app_inv_head in E. subst rel'.
    assert (e' = e) as ->; [| assumption].
    destruct info as [info | e0]; [| now injection Hstep as <- _].
    destruct (IsDir info) eqn:Hkind.
    + rewrite copyFn_dir in Hstep by assumption. now injection Hstep as <- _.
    + rewrite (copyFn_info m _ info (File [])) in Hstep by assumption.
      unfold copied in Hq. rewrite Hq in Hstep. now injection Hstep as <- _.
Qed.

Lemma later_refl (d : gmap path node) : later m d d.
Proof. split; [apply same_source_refl |]. split; [apply grows_refl | auto]. Qed.

Lemma later_trans (d1 d2 d3 : gmap path node) :
  later m d1 d2 -> later m d2 d3 -> later m d1 d3.
Proof.
  intros (S12 & G12 & C12) (S23 & G23 & C23).
  split; [eapply same_source_trans; eassumption |].
  split; [eapply grows_trans; eassumption | auto].
Qed.

Lemma copyFn_later (p : path) (info : result node) (e e' : gmap path node)
      (r : option error) :
  assets.copyFn m p info e = (e', r) -> same_source m e e' -> later m e e'.
Proof.
  intros Hstep Hsrc. split; [assumption |]. split.
  - now destruct (copyFn_effects m _ _ _ _ _ Hstep).
  - intros q. eapply copied_stable; eassumption.
Qed.

End Copied.

(** ** The entries of a directory *)

Lemma child_name_spec (p k : path) (n : string) :
  filepath.child_name p k = Some n <-> k = p ++ [n].
Proof.
  revert k. induction p as [| x p IH]; intros k; cbn.
  - destruct k as [| y [| z k]]; split; try discriminate; congruence.
  - destruct k as [| y k]; [split; discriminate |].
    destruct (decide (x = y)) as [-> | Hne].
    + rewrite IH. split; congruence.
    + split; [discriminate | congruence].
Qed.

Lemma elem_of_entries (d : gmap path node) (p : path) (n : string) :
  n ∈ filepath.entries d p <-> is_Some (d !! (p ++ [n])).
Proof.
  unfold filepath.entries. rewrite elem_of_set_omap. split.
  - intros (k & Hk & Hn). apply child_name_spec in Hn. subst k.
    now apply elem_of_dom.
  - intros H. exists (p ++ [n]). split; [now apply elem_of_dom |].
    now apply child_name_spec.
Qed.

Lemma elem_of_readDirNames (d : gmap path node) (p : path) (n : string) :
  n ∈ filepath.readDirNames d p <-> is_Some (d !! (p ++ [n])).
Proof.
  unfold filepath.readDirNames.
  rewrite merge_sort_Permutation, elem_of_elements. apply elem_of_entries.
Qed.

Lemma readDirNames_NoDup (d : gmap path node) (p : path) :
  NoDup (filepath.readDirNames d p).
Proof.
  unfold filepath.readDirNames. rewrite merge_sort_Permutation.
  apply NoDup_elements.
Qed.

(** The listing of a directory depends on which entries it has only. *)
Lemma readDirNames_same (d x : gmap path node) (p : path) :
  (forall n, d !! (p ++ [n]) = x !! (p ++ [n])) ->
  filepath.readDirNames d p = filepath.readDirNames x p.
Proof.
  intros H. unfold filepath.readDirNames. f_equal. f_equal.
  apply set_eq. intros n. rewrite !elem_of_entries. now rewrite H.
Qed.

(** ** The walk of CopyAll *)

Section Dest.

Variable m : manager.

Lemma dest_below_child (r0 : path) (n : string) (k : path) :
  dest_below m (r0 ++ [n]) k -> dest_below m r0 k.
Proof.
  unfold dest_below. intros H. etrans; [| exact H].
  apply prefix_app, prefix_app_r. reflexivity.
Qed.

Lemma dest_below_disjoint (r0 : path) (n n' : string) (k : path) :
  dest_below m (r0 ++ [n]) k -> dest_below m (r0 ++ [n']) k -> n = n'.
Proof.
  unfold dest_below. intros [l1 H1] [l2 H2]. rewrite H1 in H2.
  rewrite !app_assoc in H2. rewrite <- !(app_assoc _ [_] _) in H2.
  apply app_inv_head in H2. now injection H2.
Qed.

Lemma effects_refl (r0 : path) (e : gmap path node) : effects m r0 e e.
Proof. split; [apply grows_refl | apply keeps_files_refl]. Qed.

Lemma effects_child (r0 : path) (n : string) (e e' : gmap path node) :
  effects m (r0 ++ [n]) e e' -> effects m r0 e e'.
Proof.
  intros [Hg Hk]. split; [assumption |].
  eapply keeps_files_weaken; [| exact Hk]. apply dest_below_child.
Qed.

Lemma effects_names_refl (r0 : path) (names : list string) (e : gmap path node) :
  effects_names m r0 names e e.
Proof. split; [apply grows_refl | apply keeps_files_refl]. Qed.

Lemma effects_names_cons (r0 : path) (n : string) (ns : list string)
      (e e1 e' : gmap path node) :
  effects m (r0 ++ [n]) e e1 -> effects_names m r0 ns e1 e' ->
  effects_names m r0 (n :: ns) e e'.
Proof.
  intros [G1 K1] [G2 K2]. split; [eapply grows_trans; eassumption |].
  eapply keeps_files_trans.
  - eapply keeps_files_weaken; [| exact K1].
    intros k Hk. exists n. split; [left | assumption].
  - eapply keeps_files_weaken; [| exact K2].
    intros k (n' & Hn' & Hk). exists n'. split; [now right | assumption].
Qed.

Lemma effects_of_names (r0 : path) (names : list string) (e e' : gmap path node) :
  effects_names m r0 names e e' -> effects m r0 e e'.
Proof.
  intros [Hg Hk]. split; [assumption |].
  eapply keeps_files_weaken; [| exact Hk].
  intros k (n & _ & Hn). eapply dest_below_child; eassumption.
Qed.

Lemma copyFn_effects_at (r0 : path) (info : result node) (e e' : gmap path node)
      (r : option error) :
  assets.copyFn m (inputFolder m ++ r0) info e = (e', r) -> effects m r0 e e'.
Proof.
  intros H. destruct (copyFn_effects m _ _ _ _ _ H) as (Hg & Hk & _).
  split; [assumption |]. eapply keeps_files_weaken; [| exact Hk].
  intros k (rel & E & ->). apply app_inv_head in E. subst rel.
  unfold dest_below. reflexivity.
Qed.

(** Between two parts of a pass that, together, leave the source as it
    was, the source is as it was: what the first part writes the second
    cannot write back. *)
Lemma source_between (r0 : path) (n : string) (ns : list string)
      (e e1 e' : gmap path node) :
  n ∉ ns ->
  effects m (r0 ++ [n]) e e1 -> effects_names m r0 ns e1 e' ->
  same_source m e e' -> same_source m e e1.
Proof.
  intros Hn [G1 K1] [G2 K2] Hsrc k Hk.
  destruct (e !! k) as [[c |] |] eqn:He.
  - destruct (grows_File _ _ _ _ G1 He) as [c1 H1]. rewrite H1. f_equal. f_equal.
    destruct (K1 _ _ He) as [Hsame | Hb1]; [congruence |].
    destruct (K2 _ _ H1) as [Hsame | (n' & Hn' & Hb2)].
    + rewrite <- (Hsrc k Hk), He in Hsame. congruence.
    + rewrite (dest_below_disjoint _ _ _ _ Hb1 Hb2) in Hn. contradiction.
  - symmetry. eapply grows_Dir; eassumption.
  - destruct (e1 !! k) as [n1 |] eqn:H1; [| reflexivity].
    destruct (G2 _ _ H1) as (n2 & H2 & _).
    rewrite <- (Hsrc k Hk), He in H2. discriminate.
Qed.

End Dest.

(** The pass is replayed on the disk it left.  Three facts carry the
    proof: a walk only adds entries and only writes files at or below
    the destination of the part of the source it walks ([effects]); so,
    when the whole pass leaves the source as it was, every part of it
    does ([source_between]); and then the copies a part has made stay
    made until the end ([later]). *)

Section Pass.

Variable m : manager.

Abbreviation walkNames := (filepath.walkNames id (assets.copyFn m)).
Abbreviation walk := (filepath.walk id (assets.copyFn m)).

(** One step of the loop over the entries of a directory. *)
Lemma walkNames_cons (rec : path -> node -> gmap path node
                           -> option (gmap path node * option error))
      (p : path) (n : string) (ns : list string) (e e' : gmap path node)
      (r : option error) :
  walkNames rec p (n :: ns) e = Some (e', r) ->
  (exists e0, e !! (p ++ [n]) = None /\ e' = e /\ r = Some e0)
  \/ (exists fi, e !! (p ++ [n]) = Some fi
       /\ ((exists err, rec (p ++ [n]) fi e = Some (e', Some err) /\ r = Some err)
           \/ (exists e1, rec (p ++ [n]) fi e = Some (e1, None)
                         /\ walkNames rec p ns e1 = Some (e', r)))).
Proof.
  cbn [filepath.walkNames]. unfold os.Lstat, id.
  destruct (e !! (p ++ [n])) as [fi |].
  - intros H. right. exists fi. split; [reflexivity |].
    destruct (rec (p ++ [n]) fi e) as [[e1 [err |]] |]; [| | discriminate].
    + injection H as <- <-. left. eauto.
    + right. eauto.
  - cbn. intros [= <- <-]. left. eauto.
Qed.

Lemma walkNames_step (rec : path -> node -> gmap path node
                           -> option (gmap path node * option error))
      (p : path) (n : string) (ns : list string) (x x1 : gmap path node) (fi : node) :
  x !! (p ++ [n]) = Some fi ->
  rec (p ++ [n]) fi x = Some (x1, None) ->
  walkNames rec p (n :: ns) x = walkNames rec p ns x1.
Proof.
  intros Hl Hr. cbn [filepath.walkNames]. unfold os.Lstat, id.
  now rewrite Hl, Hr.
Qed.

Lemma walkNames_stop (rec : path -> node -> gmap path node
                           -> option (gmap path node * option error))
      (p : path) (n : string) (ns : list string) (x x1 : gmap path node)
      (fi : node) (err : error) :
  x !! (p ++ [n]) = Some fi ->
  rec (p ++ [n]) fi x = Some (x1, Some err) ->
  walkNames rec p (n :: ns) x = Some (x1, Some err).
Proof.
  intros Hl Hr. cbn [filepath.walkNames]. unfold os.Lstat, id.
  now rewrite Hl, Hr.
Qed.

Section Names.

Variable rec : path -> node -> gmap path node -> option (gmap path node * option error).
Variable r0 : path.

Hypothesis rec_effects :
  forall n info e e' r,
    rec ((inputFolder m ++ r0) ++ [n]) info e = Some (e', r) ->
    effects m (r0 ++ [n]) e e'.

Lemma walkNames_effects (names : list string) :
  forall e e' r,
    walkNames rec (inputFolder m ++ r0) names e = Some (e', r) ->
    effects_names m r0 names e e'.
Proof.
  induction names as [| n ns IH]; intros e e' r H.
  - injection H as <- <-. apply effects_names_refl.
  - apply walkNames_cons in H.
    destruct H as [(e0 & _ & -> & _) | (fi & _ & [(err & H & _) | (e1 & H1 & H2)])].
    + apply effects_names_refl.
    + eapply effects_names_cons; [eapply rec_effects, H | apply effects_names_refl].
    + eapply effects_names_cons; [eapply rec_effects, H1 | eapply IH, H2].
Qed.

Hypothesis rec_later :
  forall n info e e' r,
    rec ((inputFolder m ++ r0) ++ [n]) info e = Some (e', r) ->
    same_source m e e' -> later m e e'.

Lemma walkNames_later (names : list string) :
  NoDup names ->
  forall e e' r,
    walkNames rec (inputFolder m ++ r0) names e = Some (e', r) ->
    same_source m e e' -> later m e e'.
Proof.
  induction names as [| n ns IH]; intros Hnd e e' r H Hsrc.
  - injection H as <- <-. apply later_refl.
  - apply NoDup_cons in Hnd. destruct Hnd as [Hn Hnd].
    apply walkNames_cons in H.
    destruct H as [(e0 & _ & -> & _) | (fi & _ & [(err & H & _) | (e1 & H1 & H2)])].
    + apply later_refl.
    + eapply rec_later; eassumption.
    + assert (S1 : same_source m e e1).
      { eapply source_between; [exact Hn | eapply rec_effects, H1 | | exact Hsrc].
        eapply walkNames_effects, H2. }
      eapply later_trans; [eapply rec_later; eassumption |].
      eapply IH; [assumption | exact H2 |].
      eapply same_source_trans; [apply same_source_sym, S1 | exact Hsrc].
Qed.

Hypothesis rec_ok :
  forall n info e e',
    rec ((inputFolder m ++ r0) ++ [n]) info e = Some (e', None) ->
    same_source m e e' ->
    forall x, later m e' x -> rec ((inputFolder m ++ r0) ++ [n]) info x = Some (x, None).

(** A pass over the entries that went through goes through again, and
    changes nothing, on any disk that comes after it. *)
Lemma walkNames_again (names : list string) :
  NoDup names ->
  forall e e',
    walkNames rec (inputFolder m ++ r0) names e = Some (e', None) ->
    same_source m e e' ->
    forall x, later m e' x ->
              walkNames rec (inputFolder m ++ r0) names x = Some (x, None).
Proof.
  induction names as [| n ns IH]; intros Hnd e e' H Hsrc x Hx; [reflexivity |].
  apply NoDup_cons in Hnd. destruct Hnd as [Hn Hnd].
  apply walkNames_cons in H.
  destruct H as [(e0 & _ & _ & [=]) | (fi & Hfi & [(err & _ & [=]) | (e1 & H1 & H2)])].
  assert (S1 : same_source m e e1).
  { eapply source_between; [exact Hn | eapply rec_effects, H1 | | exact Hsrc].
    eapply walkNames_effects, H2. }
  assert (S2 : same_source m e1 e').
  { eapply same_source_trans; [apply same_source_sym, S1 | exact Hsrc]. }
  assert (L2 : later m e1 e') by (eapply walkNames_later; eassumption).
  assert (Hxfi : x !! ((inputFolder m ++ r0) ++ [n]) = Some fi).
  { rewrite <- Hfi. symmetry.
    eapply same_source_trans; [exact Hsrc | apply Hx |].
    rewrite <- app_assoc. now apply prefix_app_r. }
  rewrite (walkNames_step rec _ n ns x x fi Hxfi).
  - eapply IH; eassumption.
  - eapply rec_ok; [exact H1 | exact S1 |]. eapply later_trans; eassumption.
Qed.

Hypothesis rec_err :
  forall n info e e' err,
    rec ((inputFolder m ++ r0) ++ [n]) info e = Some (e', Some err) ->
    same_source m e e' ->
    rec ((inputFolder m ++ r0) ++ [n]) info e' = Some (e', Some err).

(** A pass over the entries that failed fails again, at the same call
    and with nothing changed, on the disk it left. *)
Lemma walkNames_fails_again (names : list string) :
  NoDup names ->
  forall e e' err,
    walkNames rec (inputFolder m ++ r0) names e = Some (e', Some err) ->
    same_source m e e' ->
    walkNames rec (inputFolder m ++ r0) names e' = Some (e', Some err).
Proof.
  induction names as [| n ns IH]; intros Hnd e e' err H Hsrc; [discriminate |].
  apply NoDup_cons in Hnd. destruct Hnd as [Hn Hnd].
  assert (H' := H). apply walkNames_cons in H'.
  destruct H' as [(e0 & _ & -> & _) | (fi & Hfi & [(err' & H1 & [= <-]) | (e1 & H1 & H2)])].
  - exact H.
  - assert (Hfi' : e' !! ((inputFolder m ++ r0) ++ [n]) = Some fi).
    { rewrite <- Hfi. symmetry. apply Hsrc.
      rewrite <- app_assoc. now apply prefix_app_r. }
    eapply walkNames_stop; [exact Hfi' |]. eapply rec_err; eassumption.
  - assert (S1 : same_source m e e1).
    { eapply source_between; [exact Hn | eapply rec_effects, H1 | | exact Hsrc].
      eapply walkNames_effects, H2. }
    assert (S2 : same_source m e1 e').
    { eapply same_source_trans; [apply same_source_sym, S1 | exact Hsrc]. }
    assert (L2 : later m e1 e') by (eapply walkNames_later; eassumption).
    assert (Hfi' : e' !! ((inputFolder m ++ r0) ++ [n]) = Some fi).
    { rewrite <- Hfi. symmetry. apply Hsrc.
      rewrite <- app_assoc. now apply prefix_app_r. }
    rewrite (walkNames_step rec _ n ns e' e' fi Hfi').
    + eapply IH; eassumption.
    + eapply rec_ok; [exact H1 | exact S1 | exact L2].
Qed.

End Names.

End Pass.

(** A copy that failed fails again, in the same way, on the disk it left. *)
Lemma copyTo_fails_again (dest p : path) (d d' : gmap path node) (err : error) :
  copyTo dest p d = (d', Some err) -> copyTo dest p d' = (d', Some err).
Proof.
  unfold copyTo at 1. destruct (d !! p) as [src |] eqn:Hsrc.
  2: { intros [= <- <-]. unfold copyTo. now rewrite Hsrc. }
  assert (Hw : d !! dest <> Some Dir ->
               match <[dest := File []]> d !! p with
               | Some (File data) => (<[dest := File data]> d, None)
               | Some Dir => (<[dest := File []]> d, Some EISDIR)
               | None => (<[dest := File []]> d, Some ErrNotExist)
               end = (d', Some err) ->
               copyTo dest p d' = (d', Some err)).
  { intros Hnd H.
    destruct (<[dest := File []]> d !! p) as [[data |] |] eqn:Hread; try discriminate.
    - injection H as <- <-. unfold copyTo.
      rewrite Hread, lookup_insert_eq, insert_insert_eq, Hread. reflexivity.
    - destruct (decide (dest = p)) as [-> | Hne].
      + rewrite lookup_insert_eq in Hread. discriminate.
      + rewrite lookup_insert_ne in Hread by assumption. congruence. }
  destruct (d !! dest) as [[c |] |] eqn:Hdest.
  - apply Hw. discriminate.
  - intros [= <- <-]. unfold copyTo. now rewrite Hsrc, Hdest.
  - apply Hw. discriminate.
Qed.

Lemma copyTo_keeps_dir (dest p k : path) (d d' : gmap path node) (r : option error) :
  copyTo dest p d = (d', r) -> d !! k = Some Dir -> d' !! k = Some Dir.
Proof.
  intros H. apply copyTo_effects in H. destruct H as (Hg & _).
  now apply grows_Dir.
Qed.

Lemma sourceTree_eq (m : manager) (d d' : gmap path node) :
  assets.sourceTree m d' = assets.sourceTree m d <-> same_source m d d'.
Proof.
  unfold assets.sourceTree, same_source. split.
  - intros H k Hk. apply option_eq. intros n.
    assert (Hn := f_equal (fun t => t !! k) H). cbn in Hn.
    split; intros Hl.
    + assert (H1 : filter (fun kv => inputFolder m `prefix_of` kv.1) d !! k = Some n)
        by now apply map_lookup_filter_Some.
      rewrite <- Hn in H1. now apply map_lookup_filter_Some in H1.
    + assert (H1 : filter (fun kv => inputFolder m `prefix_of` kv.1) d' !! k = Some n)
        by now apply map_lookup_filter_Some.
      rewrite Hn in H1. now apply map_lookup_filter_Some in H1.
  - intros H. apply map_eq. intros k. apply option_eq. intros n.
    rewrite !map_lookup_filter_Some. cbn. split; intros [Hl Hk]; split; auto.
    + now rewrite (H k Hk).
    + now rewrite <- (H k Hk).
Qed.

Section Walks.

Variable m : manager.

Abbreviation walk := (filepath.walk id (assets.copyFn m)).

Lemma copyFn_fails_again (p : path) (info : result node) (e e' : gmap path node)
      (err : error) :
  assets.copyFn m p info e = (e', Some err) ->
  assets.copyFn m p info e' = (e', Some err).
Proof.
  destruct info as [info | e0]; [| now intros [= <- <-]].
  destruct (IsDir info) eqn:Hkind.
  { rewrite copyFn_dir by assumption. discriminate. }
  destruct (decide (inputFolder m `prefix_of` p)) as [[rel ->] | Hp].
  2: { intros H. assert (H' := H). apply copyFn_not_below in H'; [| assumption..].
       destruct H' as [-> _]. exact H. }
  rewrite !copyFn_file by assumption.
  destruct (os.MkdirAll e (outputFolder m ++ filepath.Dir rel)) as [d1 r1] eqn:Hmk.
  assert (Hspec := Hmk). apply MkdirAll_spec in Hspec.
  destruct Hspec as (_ & _ & Hdir & Hfail). destruct r1 as [e1 |].
  - intros [= <- <-]. rewrite Hfail in Hmk |- * by discriminate.
    now rewrite Hmk.
  - intros H. specialize (Hdir eq_refl).
    rewrite (MkdirAll_there e'); [exact (copyTo_fails_again _ _ _ _ _ H) |].
    eapply copyTo_keeps_dir; eassumption.
Qed.

Lemma walk_effects (fuel : nat) :
  forall r0 info e e' r,
    walk fuel (inputFolder m ++ r0) info e = Some (e', r) -> effects m r0 e e'.
Proof.
  induction fuel as [| fuel IH]; intros r0 info e e' r; cbn [filepath.walk];
    [discriminate |].
  destruct (IsDir info) eqn:Hkind; cbn [negb].
  - rewrite copyFn_dir by assumption. intros H.
    eapply effects_of_names, walkNames_effects, H.
    intros n fi e1 e2 r2. rewrite <- app_assoc. apply IH.
  - intros [= H]. exact (copyFn_effects_at m r0 (Ok info) e e' r H).
Qed.

Lemma walk_later (fuel : nat) :
  forall r0 info e e' r,
    walk fuel (inputFolder m ++ r0) info e = Some (e', r) ->
    same_source m e e' -> later m e e'.
Proof.
  induction fuel as [| fuel IH]; intros r0 info e e' r; cbn [filepath.walk];
    [discriminate |].
  destruct (IsDir info) eqn:Hkind; cbn [negb].
  - rewrite copyFn_dir by assumption. intros H Hsrc.
    eapply walkNames_later; [| | apply readDirNames_NoDup | exact H | exact Hsrc].
    + intros n fi e1 e2 r2. rewrite <- app_assoc. apply walk_effects.
    + intros n fi e1 e2 r2. rewrite <- app_assoc. apply IH.
  - intros [= H] Hsrc.
    exact (copyFn_later m (inputFolder m ++ r0) (Ok info) e e' r H Hsrc).
Qed.

Lemma names_same (r0 : path) (e x : gmap path node) :
  same_source m e x ->
  filepath.readDirNames x (inputFolder m ++ r0)
  = filepath.readDirNames e (inputFolder m ++ r0).
Proof.
  intros H. apply readDirNames_same. intros n. symmetry. apply H.
  rewrite <- app_assoc. now apply prefix_app_r.
Qed.

(** A walk that went through goes through again, and changes nothing,
    on any disk that comes after it. *)
Lemma walk_again (fuel : nat) :
  forall r0 info e e',
    walk fuel (inputFolder m ++ r0) info e = Some (e', None) ->
    same_source m e e' ->
    forall x, later m e' x -> walk fuel (inputFolder m ++ r0) info x = Some (x, None).
Proof.
  induction fuel as [| fuel IH]; intros r0 info e e'; cbn [filepath.walk];
    [discriminate |].
  destruct (IsDir info) eqn:Hkind; cbn [negb].
  - rewrite copyFn_dir by assumption. intros H Hsrc x Hx.
    rewrite copyFn_dir by assumption. unfold id in *.
    rewrite (names_same r0 e x).
    2: { eapply same_source_trans; [exact Hsrc | apply Hx]. }
    eapply walkNames_again;
      [| | | apply readDirNames_NoDup | exact H | exact Hsrc | exact Hx].
    + intros n fi e1 e2 r2. rewrite <- app_assoc. apply walk_effects.
    + intros n fi e1 e2 r2. rewrite <- app_assoc. apply walk_later.
    + intros n fi e1 e2. rewrite <- app_assoc. apply IH.
  - intros [= H] Hsrc x (_ & _ & Hx).
    assert (Hc : copied m (inputFolder m ++ r0) x).
    { apply Hx. eapply copied_after; [exact Hkind | exact H]. }
    unfold copied in Hc.
    rewrite (copyFn_info m _ info (File [])) by assumption. now rewrite Hc.
Qed.

(** A walk that failed fails again, at the same call and with nothing
    changed, on the disk it left. *)
Lemma walk_fails_again (fuel : nat) :
  forall r0 info e e' err,
    walk fuel (inputFolder m ++ r0) info e = Some (e', Some err) ->
    same_source m e e' ->
    walk fuel (inputFolder m ++ r0) info e' = Some (e', Some err).
Proof.
  induction fuel as [| fuel IH]; intros r0 info e e' err; cbn [filepath.walk];
    [discriminate |].
  destruct (IsDir info) eqn:Hkind; cbn [negb].
  - rewrite !copyFn_dir by assumption. intros H Hsrc. unfold id in *.
    rewrite (names_same r0 e e' Hsrc).
    eapply walkNames_fails_again;
      [| | | | apply readDirNames_NoDup | exact H | exact Hsrc].
    + intros n fi e1 e2 r2. rewrite <- app_assoc. apply walk_effects.
    + intros n fi e1 e2 r2. rewrite <- app_assoc. apply walk_later.
    + intros n fi e1 e2. rewrite <- app_assoc. apply walk_again.
    + intros n fi e1 e2 err2. rewrite <- app_assoc. apply IH.
  - intros [= H] _.
    now rewrite (copyFn_fails_again (inputFolder m ++ r0) (Ok info) e e' err H).
Qed.

End Walks.


(** ** Fuel *)

Section Fuel.

Context {St : Type}.
Variable dsk : St -> gmap path node.
Variable fn : path -> result node -> St -> St * option error.

Lemma walkNames_mono (rec rec' : path -> node -> St -> option (St * option error))
      (p : path) (names : list string) :
  (forall q info s x, rec q info s = Some x -> rec' q info s = Some x) ->
  forall s x,
    filepath.walkNames dsk fn rec p names s = Some x ->
    filepath.walkNames dsk fn rec' p names s = Some x.
Proof.
  intros Hrec. induction names as [| n ns IH]; intros s x; cbn; [auto |].
  destruct (os.Lstat (dsk s) (p ++ [n])) as [fi | e0].
  - destruct (rec (p ++ [n]) fi s) as [[s1 r1] |] eqn:H1; [| discriminate].
    rewrite (Hrec _ _ _ _ H1). destruct r1; auto.
  - destruct (fn (p ++ [n]) (Err e0) s) as [s1 [e1 |]]; auto.
Qed.

(** More fuel changes nothing to a walk that had enough. *)
Lemma walk_fuel_le (fuel fuel' : nat) :
  fuel <= fuel' ->
  forall p info s x,
    filepath.walk dsk fn fuel p info s = Some x ->
    filepath.walk dsk fn fuel' p info s = Some x.
Proof.
  revert fuel'. induction fuel as [| fuel IH]; intros fuel' Hle p info s x;
    [discriminate |].
  destruct fuel' as [| fuel']; [lia |]. cbn [filepath.walk].
  destruct (negb (IsDir info)); [auto |].
  destruct (fn p (Ok info) s) as [s1 [e1 |]]; [auto |].
  apply walkNames_mono. apply IH. lia.
Qed.

End Fuel.

Lemma CopyAll_fuel_le (fuel fuel' : nat) (m : manager) (d : gmap path node)
      (x : gmap path node * option error) :
  fuel <= fuel' ->
  assets.CopyAll fuel m d = Some x -> assets.CopyAll fuel' m d = Some x.
Proof.
  intros Hle. unfold assets.CopyAll, filepath.Walk.
  destruct (os.Lstat (id d) (inputFolder m)) as [info | e0]; [| auto].
  destruct (filepath.walk id (assets.copyFn m) fuel (inputFolder m) info d)
    as [y |] eqn:Hw; [| discriminate].
  now rewrite (walk_fuel_le id (assets.copyFn m) fuel fuel' Hle _ _ _ _ Hw).
Qed.

(** ** What a pass leaves alone *)

Section Frame.

Variable m : manager.

Lemma frame_refl (e : gmap path node) : frame m e e.
Proof. intros k _ _. reflexivity. Qed.

Lemma frame_trans (e1 e2 e3 : gmap path node) :
  frame m e1 e2 -> frame m e2 e3 -> frame m e1 e3.
Proof. intros H12 H23 k H1 H2. rewrite (H23 k H1 H2). now apply H12. Qed.

Lemma copyFn_frame (p : path) (info : result node) (e e' : gmap path node)
      (r : option error) :
  assets.copyFn m p info e = (e', r) -> frame m e e'.
Proof.
  intros H. destruct (copyFn_effects m _ _ _ _ _ H) as (Hg & Hk & Hn).
  intros k Hbelow Habove. destruct (e !! k) as [[c |] |] eqn:He.
  - destruct (Hk _ _ He) as [Hsame | (rel & _ & ->)]; [assumption |].
    destruct Hbelow. now apply prefix_app_r.
  - eapply grows_Dir; eassumption.
  - destruct (e' !! k) as [n |] eqn:He'; [| reflexivity].
    destruct (Hn k He (ex_intro _ n He')) as (rel & _ & Hpre).
    assert (Ho : outputFolder m `prefix_of` outputFolder m ++ rel)
      by now apply prefix_app_r.
    destruct (prefix_weak_total _ _ _ Hpre Ho); contradiction.
Qed.

Lemma walkNames_frame
      (rec : path -> node -> gmap path node -> option (gmap path node * option error))
      (p : path) :
  (forall q info e e' r, rec q info e = Some (e', r) -> frame m e e') ->
  forall names e e' r,
    filepath.walkNames id (assets.copyFn m) rec p names e = Some (e', r) ->
    frame m e e'.
Proof.
  intros Hrec names. induction names as [| n ns IH]; intros e e' r H.
  - injection H as <- <-. apply frame_refl.
  - apply walkNames_cons in H.
    destruct H as [(e0 & _ & -> & _) | (fi & _ & [(err & H & _) | (e1 & H1 & H2)])].
    + apply frame_refl.
    + eapply Hrec, H.
    + eapply frame_trans; [eapply Hrec, H1 | eapply IH, H2].
Qed.

Lemma walk_frame (fuel : nat) :
  forall p info e e' r,
    filepath.walk id (assets.copyFn m) fuel p info e = Some (e', r) -> frame m e e'.
Proof.
  induction fuel as [| fuel IH]; intros p info e e' r; cbn [filepath.walk];
    [discriminate |].
  destruct (IsDir info) eqn:Hkind; cbn [negb].
  - rewrite copyFn_dir by assumption. intros H.
    eapply walkNames_frame; [exact IH | exact H].
  - intros [= H]. exact (copyFn_frame p (Ok info) e e' r H).
Qed.

(** When neither folder is inside the other, a pass leaves the tree
    below the input folder as it found it. *)
Lemma CopyAll_keeps_source (fuel : nat) (d d1 : gmap path node) (r : option error) :
  ~ inputFolder m `prefix_of` outputFolder m ->
  ~ outputFolder m `prefix_of` inputFolder m ->
  assets.CopyAll fuel m d = Some (d1, r) ->
  assets.sourceTree m d1 = assets.sourceTree m d.
Proof.
  intros Hio Hoi Hrun. apply sourceTree_eq.
  assert (Hf : frame m d d1).
  { unfold assets.CopyAll, filepath.Walk in Hrun.
    destruct (os.Lstat (id d) (inputFolder m)) as [info | e0].
    - destruct (filepath.walk id (assets.copyFn m) fuel (inputFolder m) info d)
        as [[e' [err |]] |] eqn:Hw; [| | discriminate];
        injection Hrun as <- <-; exact (walk_frame _ _ _ _ _ _ Hw).
    - cbn in Hrun. injection Hrun as <- <-. apply frame_refl. }
  intros k Hk. symmetry. apply Hf.
  - intros Ho. destruct (prefix_weak_total _ _ _ Hk Ho); contradiction.
  - intros Ho. apply Hio. etrans; eassumption.
Qed.

(** ** Enough fuel *)

Hypothesis not_inside :
  inputFolder m `prefix_of` outputFolder m ->
  length (outputFolder m) <= length (inputFolder m).

Lemma copyFn_depth (B : nat) (p : path) (info : result node)
      (e e' : gmap path node) (r : option error) :
  length p <= B -> depth_bound m B e ->
  assets.copyFn m p info e = (e', r) -> depth_bound m B e'.
Proof.
  intros Hp Hb H. destruct (copyFn_effects m _ _ _ _ _ H) as (_ & _ & Hn).
  intros k Hk Hsome. destruct (e !! k) as [n |] eqn:He.
  { apply Hb; [assumption |]. rewrite He. eauto. }
  destruct (Hn k He Hsome) as (rel & -> & Hpre).
  assert (Hlen : length (outputFolder m) <= length (inputFolder m)).
  { assert (Ho : outputFolder m `prefix_of` outputFolder m ++ rel)
      by now apply prefix_app_r.
    destruct (prefix_weak_total _ _ _ Hpre Ho) as [Hko | Hok].
    - apply not_inside. etrans; eassumption.
    - destruct (prefix_weak_total _ _ _ Hk Hok) as [Hio | Hoi];
        [now apply not_inside | now apply prefix_length]. }
  apply prefix_length in Hpre. rewrite length_app in Hpre, Hp. lia.
Qed.

Lemma walkNames_total
      (rec : path -> node -> gmap path node -> option (gmap path node * option error))
      (B : nat) (r0 : path) :
  (forall n info e, depth_bound m B e -> length (inputFolder m ++ r0 ++ [n]) <= B ->
                    exists e' r, rec (inputFolder m ++ r0 ++ [n]) info e = Some (e', r)
                                 /\ depth_bound m B e' /\ grows e e') ->
  forall names e,
    depth_bound m B e ->
    (forall n, n ∈ names -> is_Some (e !! (inputFolder m ++ r0 ++ [n]))) ->
    exists e' r,
      filepath.walkNames id (assets.copyFn m) rec (inputFolder m ++ r0) names e
      = Some (e', r)
      /\ depth_bound m B e' /\ grows e e'.
Proof.
  intros Hrec names. induction names as [| n ns IH]; intros e Hb Hin.
  - exists e, None. split; [reflexivity |]. split; [assumption | apply grows_refl].
  - cbn [filepath.walkNames]. unfold os.Lstat, id. rewrite <- app_assoc.
    destruct (Hin n) as [fi Hfi]; [left |]. rewrite Hfi.
    destruct (Hrec n fi e Hb) as (e1 & r1 & H1 & Hb1 & G1).
    { apply Hb; [now apply prefix_app_r | eauto]. }
    rewrite H1. destruct r1 as [err |]; [eauto 6 |].
    destruct (IH e1 Hb1) as (e' & r & H2 & Hb2 & G2).
    { intros n' Hn'. destruct (Hin n') as [fi' Hfi']; [now right |].
      destruct (G1 _ _ Hfi') as (fi2 & Hfi2 & _). eauto. }
    exists e', r. split; [exact H2 |]. split; [assumption |].
    eapply grows_trans; eassumption.
Qed.

Lemma walk_total (B : nat) (fuel : nat) :
  forall r0 info e,
    depth_bound m B e ->
    length (inputFolder m ++ r0) <= B ->
    B < length (inputFolder m ++ r0) + fuel ->
    exists e' r,
      filepath.walk id (assets.copyFn m) fuel (inputFolder m ++ r0) info e = Some (e', r)
      /\ depth_bound m B e' /\ grows e e'.
Proof.
  induction fuel as [| fuel IH]; intros r0 info e Hb Hp Hfuel; [lia |].
  cbn [filepath.walk]. destruct (IsDir info) eqn:Hkind; cbn [negb].
  - rewrite copyFn_dir by assumption. unfold id at 2.
    apply walkNames_total; [| assumption |].
    + intros n fi e1 Hb1 Hlen. rewrite app_assoc. rewrite app_assoc in Hlen.
      rewrite <- app_assoc. rewrite <- app_assoc in Hlen.
      apply IH; [assumption.. |]. rewrite !length_app in *. cbn in *. lia.
    + intros n Hn. apply elem_of_readDirNames in Hn. now rewrite <- app_assoc in Hn.
  - destruct (assets.copyFn m (inputFolder m ++ r0) (Ok info) e) as [e' r] eqn:H.
    exists e', r. split; [reflexivity |]. split.
    + eapply copyFn_depth; eassumption.
    + now destruct (copyFn_effects m _ _ _ _ _ H).
Qed.

(** Unless the output folder is inside the input folder, [CopyAll]
    returns whenever the fuel is more than the depth of the disk. *)
Lemma CopyAll_total (d : gmap path node) :
  exists fuel0, forall fuel, fuel0 <= fuel -> is_Some (assets.CopyAll fuel m d).
Proof.
  set (B := max_list (length <$> elements (dom d))).
  assert (Hb : depth_bound m B d).
  { intros k _ Hk. apply max_list_elem_of_le, list_elem_of_fmap.
    exists k. split; [reflexivity |]. now apply elem_of_elements, elem_of_dom. }
  exists (S B). intros fuel Hfuel. unfold assets.CopyAll, filepath.Walk, os.Lstat.
  change (id d) with d. destruct (d !! inputFolder m) as [info |] eqn:Hroot.
  - destruct (walk_total B fuel [] info d Hb) as (e' & r & H & _).
    + rewrite app_nil_r. apply Hb; [reflexivity | eauto].
    + lia.
    + rewrite app_nil_r in H. rewrite H. destruct r; eauto.
  - cbn. eauto.
Qed.

End Frame.
(** C7: a second [CopyAll], run when the first has left the tree below
    the input folder as it found it, returns what the first returned and
    leaves the whole disk, the output tree with it, as the first left
    it.  The first pass leaves the source so whenever neither folder is
    inside the other. *)
Theorem CopyAll_idempotent (fuel : nat) (m : manager) (d d1 : gmap path node)
        (r : option error) :
  assets.CopyAll fuel m d = Some (d1, r) ->
  (assets.sourceTree m d1 = assets.sourceTree m d ->
   assets.CopyAll fuel m d1 = Some (d1, r))
  /\ (~ inputFolder m `prefix_of` outputFolder m ->
      ~ outputFolder m `prefix_of` inputFolder m ->
      assets.sourceTree m d1 = assets.sourceTree m d
      /\ assets.CopyAll fuel m d1 = Some (d1, r)).
Proof.
  intros Hrun.
  assert (Hagain : assets.sourceTree m d1 = assets.sourceTree m d ->
                   assets.CopyAll fuel m d1 = Some (d1, r)).
  { intros Hsrc. apply sourceTree_eq in Hsrc.
    assert (Hok := walk_again m fuel []).
    assert (Herr := walk_fails_again m fuel []).
    rewrite app_nil_r in Hok, Herr.
    unfold assets.CopyAll, filepath.Walk, os.Lstat in *.
    change (id d) with d in Hrun. change (id d1) with d1.
    assert (Hself : inputFolder m `prefix_of` inputFolder m) by reflexivity.
    rewrite <- (Hsrc (inputFolder m) Hself).
    destruct (d !! inputFolder m) as [info |] eqn:Hroot.
    - destruct (filepath.walk id (assets.copyFn m) fuel (inputFolder m) info d)
        as [[e' [err |]] |] eqn:Hwalk; [| | discriminate].
      + injection Hrun as <- <-. now rewrite (Herr info d e' err Hwalk Hsrc).
      + injection Hrun as <- <-.
        now rewrite (Hok info d e' Hwalk Hsrc e' (later_refl m e')).
    - cbn in Hrun |- *. injection Hrun as <- <-. reflexivity. }
  split; [exact Hagain |].
  intros Hio Hoi.
  assert (Hsrc := CopyAll_keeps_source m fuel d d1 r Hio Hoi Hrun).
  split; [exact Hsrc | exact (Hagain Hsrc)].
Qed.

Lemma CopyAll_idempotent_witness :
  assets.CopyAll 3 sampleManager syncedDisk = Some (syncedDisk, None)
  /\ assets.CopyAll 3 sampleManager blockedDisk
     = Some (blockedDisk, Some (Wrapped "error copying files" ENOTDIR)).
Proof.
  split.
  - apply (proj1 (CopyAll_idempotent 3 sampleManager sampleDisk syncedDisk None
                   ltac:(compute_done))).
    compute_done.
  - apply (proj2 (CopyAll_idempotent 3 sampleManager blockedDisk blockedDisk
                   (Some (Wrapped "error copying files" ENOTDIR))
                   ltac:(compute_done))); compute_done.
Defined.

Example CopyAll_sample :
  assets.CopyAll 3 sampleManager sampleDisk = Some (syncedDisk, None)
  /\ assets.CopyAll 2 sampleManager sampleDisk = None.
Proof. split; compute_done. Qed.

(** With the output folder inside the input folder the first pass adds
    to the source tree, and the second pass is not the first: it copies
    the copies. *)
Example CopyAll_into_itself :
  assets.CopyAll 5 nestedManager smallDisk = Some (nestedOnce, None)
  /\ assets.sourceTree nestedManager nestedOnce <> assets.sourceTree nestedManager smallDisk
  /\ assets.CopyAll 5 nestedManager nestedOnce = Some (nestedTwice, None)
  /\ nestedTwice <> nestedOnce.
Proof. repeat split; compute_done. Qed.

(** With the output folder equal to the input folder [os.Create]
    truncates the file that [io.Copy] is about to read: the pass empties
    the source, and only then is a fixed point. *)
Example CopyAll_onto_itself :
  assets.CopyAll 5 selfManager smallDisk = Some (emptiedDisk, None)
  /\ assets.sourceTree selfManager emptiedDisk <> assets.sourceTree selfManager smallDisk
  /\ assets.CopyAll 5 selfManager emptiedDisk = Some (emptiedDisk, None).
Proof. repeat split; compute_done. Qed.

(** ** Watch: the set-up *)

Section Register.

Variable w : World.
Variable d : gmap path node.

Hypothesis enough_watches : size (dom d) <= inotify_watches w.

(** With a watch to spare for every path of the disk, [watcher.Add]
    takes any path that is there. *)
Lemma Add_there (watcher : gset path) (p : path) :
  watcher ⊆ dom d -> is_Some (d !! p) ->
  exists watcher',
    fsnotify.Add w d watcher p = (watcher', None)
    /\ watcher ⊆ watcher' /\ watcher' ⊆ dom d /\ p ∈ watcher'.
Proof.
  intros Hsub [n Hn]. unfold fsnotify.Add. rewrite Hn.
  destruct (decide (p ∈ watcher)) as [Hin | Hout].
  { exists watcher. repeat split; auto. }
  assert (Hp : p ∈ dom d) by (apply elem_of_dom; eauto).
  assert (Hlt : size watcher < size (dom d)).
  { apply subset_size. split; [assumption |]. intros Hd. apply Hout, Hd, Hp. }
  destruct (decide (size watcher < inotify_watches w)) as [_ | Hfull]; [| lia].
  exists ({[p]} ∪ watcher).
  split; [reflexivity |]. split; [apply union_subseteq_r |].
  split; [| apply elem_of_union_l, elem_of_singleton; reflexivity].
  apply union_subseteq. split; [now apply singleton_subseteq_l | assumption].
Qed.

Lemma register_names
      (rec : path -> node -> gmap path node * gset path
             -> option ((gmap path node * gset path) * option error))
      (p : path) :
  (forall n info watcher,
      watcher ⊆ dom d -> is_Some (d !! (p ++ [n])) ->
      exists watcher', rec (p ++ [n]) info (d, watcher) = Some ((d, watcher'), None)
                       /\ watcher ⊆ watcher' /\ watcher' ⊆ dom d) ->
  forall names watcher,
    watcher ⊆ dom d ->
    (forall n, n ∈ names -> is_Some (d !! (p ++ [n]))) ->
    exists watcher',
      filepath.walkNames fst (assets.addFn w) rec p names (d, watcher)
      = Some ((d, watcher'), None)
      /\ watcher ⊆ watcher' /\ watcher' ⊆ dom d.
Proof.
  intros Hrec names. induction names as [| n ns IH]; intros watcher Hsub Hin.
  - exists watcher. repeat split; auto.
  - cbn [filepath.walkNames fst]. unfold os.Lstat.
    destruct (Hin n) as [fi Hfi]; [left |]. rewrite Hfi.
    destruct (Hrec n fi watcher Hsub) as (w1 & H1 & S1 & D1); [eauto |].
    rewrite H1. destruct (IH w1 D1) as (w2 & H2 & S2 & D2).
    { intros n' Hn'. apply Hin. now right. }
    exists w2. split; [exact H2 |]. split; [set_solver | assumption].
Qed.

(** The walk that fills the watcher goes through when the fuel is more
    than the depth of the disk. *)
Lemma register_walk (fuel : nat) :
  forall p info watcher,
    watcher ⊆ dom d -> is_Some (d !! p) ->
    shallower d (length p + fuel) ->
    exists watcher',
      filepath.walk fst (assets.addFn w) fuel p info (d, watcher)
      = Some ((d, watcher'), None)
      /\ watcher ⊆ watcher' /\ watcher' ⊆ dom d /\ p ∈ watcher'.
Proof.
  induction fuel as [| fuel IH]; intros p info watcher Hsub Hp Hdepth.
  { destruct Hp as [n Hn]. specialize (Hdepth p n Hn). cbn in Hdepth. lia. }
  cbn [filepath.walk]. unfold assets.addFn at 1 2. cbn [fst snd].
  destruct (Add_there watcher p Hsub Hp) as (w1 & H1 & S1 & D1 & P1). rewrite H1.
  destruct (negb (IsDir info)); [eauto 6 |].
  destruct (register_names (filepath.walk fst (assets.addFn w) fuel) p) with
    (names := filepath.readDirNames d p) (watcher := w1)
    as (w2 & H2 & S2 & D2); [| assumption | |].
  - intros n fi w0 Hw0 Hn.
    destruct (IH (p ++ [n]) fi w0 Hw0 Hn) as (w' & H' & S' & D' & _); [| eauto].
    intros k nk Hk. specialize (Hdepth k nk Hk). cbn in Hdepth |- *.
    rewrite length_app. cbn. lia.
  - intros n Hn. now apply elem_of_readDirNames.
  - exists w2. split; [exact H2 |]. repeat split; set_solver.
Qed.

End Register.

(** The walk that fills the watcher fails at once when the input folder
    is not there: [Lstat] fails, the callback is still called, and
    [watcher.Add] of a missing path returns an error. *)
Lemma register_missing_root (fuel : nat) (w : World) (root : path)
      (d : gmap path node) (watcher : gset path) :
  d !! root = None ->
  filepath.Walk fst (assets.addFn w) fuel root (d, watcher)
  = Some ((d, watcher), Some ErrNotExist).
Proof.
  intros Hroot. unfold filepath.Walk, os.Lstat, assets.addFn, fsnotify.Add.
  cbn [fst snd]. rewrite Hroot. reflexivity.
Qed.

(** C9: once the first [CopyAll] has returned, an error of
    [fsnotify.NewWatcher] and an error of the walk that fills the watcher
    both end [Watch] in a panic: it does not reach the loop.  A missing
    input folder is such an error of the walk. *)
Theorem Watch_setup_errors_fatal (fuel : nat) (m : manager) (w : World)
        (d1 : gmap path node) (err : option error) :
  assets.CopyAll fuel m (disk w) = Some (d1, err) ->
  (forall e, fsnotify.NewWatcher w = Err e ->
     assets.Watch fuel m w
     = Some (assets.Panicked (Wrapped "error creating watcher" e) (assets.logErr err)))
  /\ (forall watcher s e,
        fsnotify.NewWatcher w = Ok watcher ->
        filepath.Walk fst (assets.addFn w) fuel (inputFolder m) (d1, watcher)
        = Some (s, Some e) ->
        assets.Watch fuel m w
        = Some (assets.Panicked (Wrapped "error adding files to watcher" e)
                                (assets.logErr err)))
  /\ (forall watcher,
        fsnotify.NewWatcher w = Ok watcher ->
        d1 !! inputFolder m = None ->
        assets.Watch fuel m w
        = Some (assets.Panicked (Wrapped "error adding files to watcher" ErrNotExist)
                                (assets.logErr err)))
  /\ (forall e, fsnotify.NewWatcher w = Err e ->
        forall st, assets.Watch fuel m w <> Some (assets.Looping st))
  /\ (forall watcher s e,
        fsnotify.NewWatcher w = Ok watcher ->
        filepath.Walk fst (assets.addFn w) fuel (inputFolder m) (d1, watcher)
        = Some (s, Some e) ->
        forall st, assets.Watch fuel m w <> Some (assets.Looping st)).
Proof.
  intros Hcopy.
  assert (Hnew : forall e, fsnotify.NewWatcher w = Err e ->
     assets.Watch fuel m w
     = Some (assets.Panicked (Wrapped "error creating watcher" e) (assets.logErr err))).
  { intros e Hw. unfold assets.Watch. rewrite Hcopy, Hw. reflexivity. }
  assert (Hwalk : forall watcher s e,
        fsnotify.NewWatcher w = Ok watcher ->
        filepath.Walk fst (assets.addFn w) fuel (inputFolder m) (d1, watcher)
        = Some (s, Some e) ->
        assets.Watch fuel m w
        = Some (assets.Panicked (Wrapped "error adding files to watcher" e)
                                (assets.logErr err))).
  { intros watcher s e Hw Hreg. unfold assets.Watch.
    rewrite Hcopy, Hw, Hreg. reflexivity. }
  split; [exact Hnew |]. split; [exact Hwalk |]. split; [| split].
  - intros watcher Hw Hroot.
    apply (Hwalk watcher (d1, watcher) ErrNotExist Hw).
    apply register_missing_root; assumption.
  - intros e Hw st. rewrite (Hnew e Hw). discriminate.
  - intros watcher s e Hw Hreg st. rewrite (Hwalk watcher s e Hw Hreg). discriminate.
Qed.

Lemma Watch_setup_errors_fatal_witness :
  assets.Watch 3 sampleManager noInotifyWorld
  = Some (assets.Panicked (Wrapped "error creating watcher" ErrWatcher) [])
  /\ assets.Watch 3 lostManager devWorld
     = Some (assets.Panicked (Wrapped "error adding files to watcher" ErrNotExist)
               [assets.LogError (Wrapped "error copying files" ErrNotExist)]).
Proof.
  split.
  - refine (proj1 (Watch_setup_errors_fatal 3 sampleManager noInotifyWorld
                     syncedDisk None _) ErrWatcher _);
      compute_done.
  - refine (proj1 (proj2 (proj2 (Watch_setup_errors_fatal 3 lostManager devWorld
                     sampleDisk (Some (Wrapped "error copying files" ErrNotExist)) _)))
                  ∅ _ _);
      compute_done.
Defined.

(** C10, as stated, fails: an error of the first [CopyAll] does not
    always leave [Watch] on its way to the loop.  When the input folder
    is missing the first pass fails, the error is logged, and the walk
    that fills the watcher fails on the same folder: [Watch] panics. *)
Lemma Watch_first_copy_error_may_panic :
  ~ (forall (fuel : nat) (m : manager) (w : World) (d1 : gmap path node) (e : error),
        assets.CopyAll fuel m (disk w) = Some (d1, Some e) ->
        exists st, assets.Watch fuel m w = Some (assets.Looping st)).
Proof.
  intros H.
  destruct (H 3 lostManager devWorld sampleDisk
              (Wrapped "error copying files" ErrNotExist)) as [st Hst];
    [compute_done |].
  revert Hst. compute_done.
Qed.

(** C10 (amended): an error of the first [CopyAll] is written to the log
    and nothing else: it does not stop [Watch], which goes on to create
    the watcher and to fill it, and when these two steps go through
    [Watch] enters the loop, on the disk as the failed copy left it.
    They do whenever inotify has an instance left and a watch for every
    path, the input folder is there and the fuel covers the depth of the
    disk. *)
Theorem Watch_first_copy_error_logged (fuel : nat) (m : manager) (w : World)
        (d1 : gmap path node) (e : error) :
  assets.CopyAll fuel m (disk w) = Some (d1, Some e) ->
  (forall watcher s,
      fsnotify.NewWatcher w = Ok watcher ->
      filepath.Walk fst (assets.addFn w) fuel (inputFolder m) (d1, watcher)
      = Some (s, None) ->
      assets.Watch fuel m w
      = Some (assets.Looping (assets.mkLoop s.1 s.2 [assets.LogError e])))
  /\ (inotify_instances w <> 0 ->
      is_Some (d1 !! inputFolder m) ->
      size (dom d1) <= inotify_watches w ->
      shallower d1 (length (inputFolder m) + fuel) ->
      exists watcher,
        assets.Watch fuel m w
        = Some (assets.Looping (assets.mkLoop d1 watcher [assets.LogError e]))
        /\ inputFolder m ∈ watcher /\ watcher ⊆ dom d1).
Proof.
  intros Hcopy.
  assert (Hcond : forall watcher s,
      fsnotify.NewWatcher w = Ok watcher ->
      filepath.Walk fst (assets.addFn w) fuel (inputFolder m) (d1, watcher)
      = Some (s, None) ->
      assets.Watch fuel m w
      = Some (assets.Looping (assets.mkLoop s.1 s.2 [assets.LogError e]))).
  { intros watcher s Hw Hreg. unfold assets.Watch.
    rewrite Hcopy, Hw, Hreg. reflexivity. }
  split; [exact Hcond |].
  intros Hinst [info Hroot] Hwatches Hdepth.
  destruct (register_walk w d1 Hwatches fuel (inputFolder m) info ∅)
    as (watcher & Hwalk & _ & Hsub & Hin); [set_solver | eauto | assumption |].
  exists watcher. split; [| split; assumption].
  apply (Hcond ∅ (d1, watcher)).
  - unfold fsnotify.NewWatcher. destruct (decide (inotify_instances w = 0));
      [contradiction | reflexivity].
  - unfold filepath.Walk, os.Lstat. cbn [fst]. rewrite Hroot. exact Hwalk.
Qed.

Lemma Watch_first_copy_error_logged_witness :
  exists watcher,
    assets.Watch 3 sampleManager blockedWorld
    = Some (assets.Looping
              (assets.mkLoop blockedDisk watcher
                 [assets.LogError (Wrapped "error copying files" ENOTDIR)]))
    /\ inputFolder sampleManager ∈ watcher /\ watcher ⊆ dom blockedDisk.
Proof.
  apply (Watch_first_copy_error_logged 3 sampleManager blockedWorld blockedDisk
           (Wrapped "error copying files" ENOTDIR)); compute_done.
Defined.

Example Watch_blocked :
  assets.Watch 3 sampleManager blockedWorld
  = Some (assets.Looping
            (assets.mkLoop blockedDisk
               {[ ["assets"]; ["assets"; "a.js"]; ["assets"; "b.js"] ]}
               [assets.LogError (Wrapped "error copying files" ENOTDIR)])).
Proof. compute_done. Qed.

(** * Further properties *)

(** ** Names and the handler *)

Lemma scan_ext_go (s : string) :
  filepath.scan_ext (s +:+ ".go") = filepath.ExtFound ".go".
Proof.
  induction s as [| c s IH]; [reflexivity |].
  rewrite string_app_cons. cbn [filepath.scan_ext]. now rewrite IH.
Qed.

(** The extension is a suffix of the name. *)
Lemma scan_ext_suffix (name e : string) :
  filepath.scan_ext name = filepath.ExtFound e -> exists s, name = s +:+ e.
Proof.
  revert e. induction name as [| c name IH]; intros e; cbn [filepath.scan_ext];
    [discriminate |].
  destruct (filepath.scan_ext name) as [e' | |] eqn:Hscan.
  - intros [= <-]. destruct (IH e' eq_refl) as [s ->].
    exists (String c s). now rewrite string_app_cons.
  - discriminate.
  - destruct (Ascii.eqb c "."); [| destruct (Ascii.eqb c "/"); discriminate].
    intros [= <-]. now exists "".
Qed.

(** X1: [Open] answers not-found for every name that ends in ".go",
    whatever the mode and the two file systems, and the names it
    refuses for their extension are exactly those. *)
Theorem Open_refuses_go_suffix (m : manager) (w : World) (name : string) :
  (forall s, assets.Open m w (s +:+ ".go") = Err ErrNotExist)
  /\ (filepath.Ext name = ".go" <-> exists s, name = s +:+ ".go").
Proof.
  split.
  - intros s. apply Open_denylist. unfold filepath.Ext. now rewrite scan_ext_go.
  - split.
    + unfold filepath.Ext.
      destruct (filepath.scan_ext name) as [e | |] eqn:Hscan; try discriminate.
      intros ->. now apply scan_ext_suffix.
    + intros [s ->]. unfold filepath.Ext. now rewrite scan_ext_go.
Qed.

(** X2: outside development mode, for a name that is not refused for
    its extension, [ReadFile] returns the bytes of the very file that
    [Open] opens, and fails when [Open] fails. *)
Theorem ReadFile_agrees_with_Open (m : manager) (w : World) (name : string) :
  os.Getenv w "GO_ENV" <> "development" ->
  filepath.Ext name <> ".go" ->
  assets.ReadFile m w name
  = match assets.Open m w name with
    | Ok x => io.ReadAll x
    | Err e => Err e
    end.
Proof.
  intros Henv Hext. rewrite Open_by_mode by assumption.
  destruct (decide (os.Getenv w "GO_ENV" = "development")); [contradiction |].
  reflexivity.
Qed.

Lemma ReadFile_agrees_with_Open_witness :
  assets.ReadFile sampleManager prodWorld "main.js"
  = match assets.Open sampleManager prodWorld "main.js" with
    | Ok x => io.ReadAll x
    | Err e => Err e
    end.
Proof.
  apply (ReadFile_agrees_with_Open sampleManager prodWorld "main.js"); compute_done.
Defined.

Lemma strip_prefix_str_app (p s : string) :
  assets.strip_prefix_str p (p +:+ s) = Some s.
Proof.
  induction p as [| c p IH]; [reflexivity |].
  rewrite string_app_cons. cbn. now rewrite Ascii.eqb_refl.
Qed.

Lemma TrimPrefix_app (p s : string) : assets.TrimPrefix (p +:+ s) p = s.
Proof. unfold assets.TrimPrefix. now rewrite strip_prefix_str_app. Qed.

Lemma substring_app_l (p s : string) :
  substring 0 (String.length p) (p +:+ s) = p.
Proof.
  induction p as [| c p IH]; [now destruct s |].
  rewrite string_app_cons. cbn. now rewrite IH.
Qed.

Lemma substring_app_r (p s : string) :
  substring (String.length p) (String.length s) (p +:+ s) = s.
Proof.
  induction p as [| c p IH]; [| rewrite string_app_cons; exact IH].
  rewrite string_app_nil. cbn [String.length].
  induction s as [| c s IH]; [reflexivity |]. cbn. now rewrite IH.
Qed.

Lemma TrimSuffix_app (p suffix : string) :
  assets.TrimSuffix (p +:+ suffix) suffix = p.
Proof.
  unfold assets.TrimSuffix, assets.HasSuffix. rewrite string_app_length.
  replace (String.length p + String.length suffix - String.length suffix)
    with (String.length p) by lia.
  rewrite substring_app_r, substring_app_l, String.eqb_refl.
  destruct (Nat.leb_spec (String.length suffix)
              (String.length p + String.length suffix)); [reflexivity | lia].
Qed.

(** X3: the pattern and the handler agree.  With a serving path that is
    a prefix followed by one star, the pattern is the prefix of the
    handler followed by the star; a request for the prefix followed by a
    name is served under that name, from the manager itself; and for a
    name that ends in ".go" the file system the server is handed answers
    not-found. *)
Theorem HandlerFn_serves_stripped {Response : Type}
        (ServeFileFS : (string -> result node) -> string -> string -> Response)
        (m : manager) (w : World) (prefix : string) :
  servingPath m = prefix +:+ "*" ->
  assets.HandlerPattern m = assets.handlerPrefix m +:+ "*"
  /\ (forall name,
        assets.HandlerFn ServeFileFS m w (prefix +:+ name)
        = ServeFileFS (assets.Open m w) (prefix +:+ name) name)
  /\ (forall s,
        assets.Open m w
          (assets.TrimPrefix (prefix +:+ s +:+ ".go") (assets.handlerPrefix m))
        = Err ErrNotExist).
Proof.
  intros Hpath.
  assert (Hprefix : assets.handlerPrefix m = prefix).
  { unfold assets.handlerPrefix. rewrite Hpath. apply TrimSuffix_app. }
  split; [| split].
  - unfold assets.HandlerPattern. now rewrite Hprefix.
  - intros name. unfold assets.HandlerFn. now rewrite Hprefix, TrimPrefix_app.
  - intros s. rewrite Hprefix, TrimPrefix_app.
    apply Open_denylist. unfold filepath.Ext. now rewrite scan_ext_go.
Qed.

Lemma HandlerFn_serves_stripped_witness :
  assets.HandlerFn (fun open _ name => open name) sampleManager devWorld
    ("/public/" +:+ "main.js")
  = assets.Open sampleManager devWorld "main.js".
Proof.
  apply (proj1 (proj2 (HandlerFn_serves_stripped (fun open _ name => open name)
                         sampleManager devWorld "/public/" eq_refl))).
Defined.

(** ** What a pass does *)

Section Covers.

Variable m : manager.

Lemma dirs_above_same (e e1 : gmap path node) (r0 rel : path) :
  same_source m e e1 ->
  dirs_above e (inputFolder m ++ r0) rel -> dirs_above e1 (inputFolder m ++ r0) rel.
Proof.
  intros Hsrc H pre Hpre Hne. rewrite <- (H pre Hpre Hne). symmetry. apply Hsrc.
  rewrite <- app_assoc. now apply prefix_app_r.
Qed.

Lemma dirs_above_child (e : gmap path node) (p : path) (n : string) (rel : path) :
  dirs_above e p (n :: rel) -> dirs_above e (p ++ [n]) rel.
Proof.
  intros H pre Hpre Hne. rewrite <- app_assoc. cbn. apply H.
  - now apply (prefix_app [n]).
  - congruence.
Qed.

Section Names.

Variable rec : path -> node -> gmap path node -> option (gmap path node * option error).
Variable r0 : path.

Hypothesis rec_effects :
  forall n info e e' r,
    rec ((inputFolder m ++ r0) ++ [n]) info e = Some (e', r) ->
    effects m (r0 ++ [n]) e e'.

Hypothesis rec_later :
  forall n info e e' r,
    rec ((inputFolder m ++ r0) ++ [n]) info e = Some (e', r) ->
    same_source m e e' -> later m e e'.

Hypothesis rec_covers :
  forall n info e e',
    rec ((inputFolder m ++ r0) ++ [n]) info e = Some (e', None) ->
    same_source m e e' ->
    e !! ((inputFolder m ++ r0) ++ [n]) = Some info ->
    forall rel c,
      e !! (inputFolder m ++ (r0 ++ [n]) ++ rel) = Some (File c) ->
      dirs_above e (inputFolder m ++ r0 ++ [n]) rel ->
      copied m (inputFolder m ++ (r0 ++ [n]) ++ rel) e'.

(** A pass over the entries that went through has made the copy of
    every file it could come to. *)
Lemma walkNames_covers (names : list string) :
  NoDup names ->
  forall e e',
    filepath.walkNames id (assets.copyFn m) rec (inputFolder m ++ r0) names e
    = Some (e', None) ->
    same_source m e e' ->
    forall n rel c,
      n ∈ names ->
      e !! (inputFolder m ++ (r0 ++ [n]) ++ rel) = Some (File c) ->
      dirs_above e (inputFolder m ++ r0 ++ [n]) rel ->
      copied m (inputFolder m ++ (r0 ++ [n]) ++ rel) e'.
Proof.
  induction names as [| n0 ns IH]; intros Hnd e e' H Hsrc n rel c Hn Hfile Hdirs.
  { now apply elem_of_nil in Hn. }
  apply NoDup_cons in Hnd. destruct Hnd as [Hn0 Hnd].
  apply walkNames_cons in H.
  destruct H as [(e0 & _ & _ & [=]) | (fi & Hfi & [(err & _ & [=]) | (e1 & H1 & H2)])].
  assert (S1 : same_source m e e1).
  { eapply source_between; [exact Hn0 | eapply rec_effects, H1 | | exact Hsrc].
    eapply walkNames_effects; [exact rec_effects | exact H2]. }
  assert (S2 : same_source m e1 e').
  { eapply same_source_trans; [apply same_source_sym, S1 | exact Hsrc]. }
  assert (L2 : later m e1 e').
  { eapply walkNames_later; [exact rec_effects | exact rec_later | | |]; eassumption. }
  apply elem_of_cons in Hn. destruct Hn as [-> | Hn].
  - destruct L2 as (_ & _ & Hkeep). apply Hkeep.
    eapply rec_covers; eassumption.
  - eapply IH; [assumption | exact H2 | exact S2 | exact Hn | |].
    + rewrite <- Hfile. symmetry. apply S1. now apply prefix_app_r.
    + exact (dirs_above_same e e1 (r0 ++ [n]) rel S1 Hdirs).
Qed.

End Names.

(** A walk that went through, leaving the source alone, has made the
    copy of every regular file the walk comes to. *)
Lemma walk_covers (fuel : nat) :
  forall r0 info e e',
    filepath.walk id (assets.copyFn m) fuel (inputFolder m ++ r0) info e
    = Some (e', None) ->
    same_source m e e' ->
    e !! (inputFolder m ++ r0) = Some info ->
    forall rel c,
      e !! (inputFolder m ++ r0 ++ rel) = Some (File c) ->
      dirs_above e (inputFolder m ++ r0) rel ->
      copied m (inputFolder m ++ r0 ++ rel) e'.
Proof.
  induction fuel as [| fuel IH]; intros r0 info e e'; cbn [filepath.walk];
    [discriminate |].
  destruct (IsDir info) eqn:Hkind; cbn [negb].
  - rewrite copyFn_dir by assumption. intros H Hsrc Hinfo rel c Hfile Hdirs.
    destruct rel as [| n rel].
    { rewrite app_nil_r in Hfile. rewrite Hfile in Hinfo.
      injection Hinfo as <-. discriminate. }
    replace (r0 ++ n :: rel) with ((r0 ++ [n]) ++ rel) in *
      by (rewrite <- app_assoc; reflexivity).
    eapply (walkNames_covers (filepath.walk id (assets.copyFn m) fuel) r0);
      [| | | apply readDirNames_NoDup | exact H | exact Hsrc | | exact Hfile |].
    + intros n' fi e1 e2 r2. rewrite <- app_assoc. apply walk_effects.
    + intros n' fi e1 e2 r2. rewrite <- app_assoc. apply walk_later.
    + intros n' fi e1 e2 Hw Hs Hfi rel' c' Hf Hd.
      rewrite <- app_assoc in Hw, Hfi.
      exact (IH (r0 ++ [n']) fi e1 e2 Hw Hs Hfi rel' c' Hf Hd).
    + unfold id. apply elem_of_readDirNames.
      destruct rel as [| n2 rel].
      * assert (E : (inputFolder m ++ r0) ++ [n]
                    = inputFolder m ++ (r0 ++ [n]) ++ [])
          by (rewrite app_nil_r, <- app_assoc; reflexivity).
        rewrite E, Hfile. eauto.
      * rewrite (Hdirs [n]); [eauto | | congruence].
        apply (prefix_app [n] [] (n2 :: rel)), prefix_nil.
    + rewrite app_assoc. apply dirs_above_child. exact Hdirs.
  - intros [= H] Hsrc Hinfo rel c Hfile Hdirs.
    destruct rel as [| n rel].
    + rewrite app_nil_r. eapply copied_after; [exact Hkind | exact H].
    + assert (Hd := Hdirs [] (prefix_nil _) ltac:(discriminate)).
      rewrite app_nil_r, Hinfo in Hd. injection Hd as ->. discriminate Hkind.
Qed.

End Covers.

Lemma dirs_above_nil (d : gmap path node) (base : path) : dirs_above d base [].
Proof. intros pre Hpre Hne. apply prefix_nil_inv in Hpre. contradiction. Qed.

Lemma dirs_above_cons (d : gmap path node) (base : path) (n : string) (rel : path) :
  d !! base = Some Dir -> dirs_above d (base ++ [n]) rel ->
  dirs_above d base (n :: rel).
Proof.
  intros Hbase H pre Hpre Hne. destruct pre as [| x pre].
  - now rewrite app_nil_r.
  - assert (x = n) as -> by (destruct Hpre as [k Hk]; now injection Hk).
    apply prefix_cons_inv_2 in Hpre.
    replace (base ++ n :: pre) with ((base ++ [n]) ++ pre)
      by (rewrite <- app_assoc; reflexivity).
    apply H; [assumption | congruence].
Qed.

(** The two ways [CopyAll] goes: the input folder is not there, or the
    walk from it has run. *)
Lemma CopyAll_cases (fuel : nat) (m : manager) (d d1 : gmap path node)
      (r : option error) :
  assets.CopyAll fuel m d = Some (d1, r) ->
  (d !! inputFolder m = None /\ d1 = d
   /\ r = Some (Wrapped "error copying files" ErrNotExist))
  \/ (exists info r0,
        d !! inputFolder m = Some info
        /\ filepath.walk id (assets.copyFn m) fuel (inputFolder m) info d
           = Some (d1, r0)
        /\ r = Wrapped "error copying files" <$> r0).
Proof.
  unfold assets.CopyAll, filepath.Walk, os.Lstat. change (id d) with d.
  destruct (d !! inputFolder m) as [info |] eqn:Hroot.
  - destruct (filepath.walk id (assets.copyFn m) fuel (inputFolder m) info d)
      as [[e' [err |]] |] eqn:Hwalk.
    + intros [= <- <-]. right. exists info, (Some err). auto.
    + intros [= <- <-]. right. exists info, None. auto.
    + discriminate.
  - cbn. intros [= <- <-]. now left.
Qed.

(** A pass that went through, with neither folder inside the other, has
    the bytes of every file it came to in place. *)
Lemma CopyAll_covers (fuel : nat) (m : manager) (d d1 : gmap path node)
      (rel : path) (c : bytes) :
  ~ inputFolder m `prefix_of` outputFolder m ->
  ~ outputFolder m `prefix_of` inputFolder m ->
  assets.CopyAll fuel m d = Some (d1, None) ->
  d !! (inputFolder m ++ rel) = Some (File c) ->
  dirs_above d (inputFolder m) rel ->
  d1 !! (outputFolder m ++ rel) = Some (File c)
  /\ d1 !! (outputFolder m ++ filepath.Dir rel) = Some Dir
  /\ d1 !! (inputFolder m ++ rel) = Some (File c).
Proof.
  intros Hio Hoi Hrun Hfile Hdirs.
  assert (Hsrc : same_source m d d1).
  { apply sourceTree_eq. eapply CopyAll_keeps_source; eassumption. }
  assert (Hsame : d1 !! (inputFolder m ++ rel) = Some (File c)).
  { rewrite <- Hfile. symmetry. apply Hsrc. now apply prefix_app_r. }
  destruct (CopyAll_cases _ _ _ _ _ Hrun)
    as [(_ & _ & [=]) | (info & [err |] & Hroot & Hwalk & [=])].
  assert (Hc := walk_covers m fuel [] info d d1).
  rewrite app_nil_r in Hc.
  specialize (Hc Hwalk Hsrc Hroot rel c Hfile Hdirs).
  change ([] ++ rel) with rel in Hc.
  apply copied_iff in Hc. destruct Hc as (rel' & c' & E & Hq & Hdir & Hdest & _).
  apply app_inv_head in E. subst rel'.
  rewrite Hsame in Hq. injection Hq as <-. auto.
Qed.

(** What a pass does to the disk, as a whole. *)
Lemma CopyAll_effects (fuel : nat) (m : manager) (d d1 : gmap path node)
      (r : option error) :
  assets.CopyAll fuel m d = Some (d1, r) -> effects m [] d d1.
Proof.
  intros Hrun.
  destruct (CopyAll_cases _ _ _ _ _ Hrun)
    as [(_ & -> & _) | (info & r0 & _ & Hwalk & _)]; [apply effects_refl |].
  assert (H := walk_effects m fuel [] info d d1 r0).
  rewrite app_nil_r in H. now apply H.
Qed.

(** X4: with neither folder inside the other, a pass that returns no
    error has mirrored the source: every regular file that the walk from
    the input folder comes to has its bytes at the same relative path
    below the output folder, in a folder that is there, whatever was at
    that place before; the source file is as it was. *)
Theorem CopyAll_mirrors (fuel : nat) (m : manager) (d d1 : gmap path node)
        (rel : path) (c : bytes) :
  ~ inputFolder m `prefix_of` outputFolder m ->
  ~ outputFolder m `prefix_of` inputFolder m ->
  assets.CopyAll fuel m d = Some (d1, None) ->
  d !! (inputFolder m ++ rel) = Some (File c) ->
  dirs_above d (inputFolder m) rel ->
  d1 !! (outputFolder m ++ rel) = Some (File c)
  /\ d1 !! (outputFolder m ++ filepath.Dir rel) = Some Dir
  /\ d1 !! (inputFolder m ++ rel) = Some (File c).
Proof. apply CopyAll_covers. Qed.

Lemma CopyAll_mirrors_witness :
  syncedDisk !! (outputFolder sampleManager ++ ["sub"; "c.css"]) = Some (File (b "CC"))
  /\ syncedDisk !! (outputFolder sampleManager ++ filepath.Dir ["sub"; "c.css"])
     = Some Dir
  /\ syncedDisk !! (inputFolder sampleManager ++ ["sub"; "c.css"])
     = Some (File (b "CC")).
Proof.
  apply (CopyAll_mirrors 3 sampleManager sampleDisk syncedDisk ["sub"; "c.css"]
           (b "CC")); try compute_done.
  apply dirs_above_cons; [compute_done |].
  apply dirs_above_cons; [compute_done | apply dirs_above_nil].
Defined.

(** X5: a pass never removes an entry and never changes its kind: a
    directory stays a directory, a regular file stays a regular file,
    and its bytes change only if it lies at or below the output folder.
    So a file that has gone from the source keeps its copy. *)
Theorem CopyAll_never_removes (fuel : nat) (m : manager) (d d1 : gmap path node)
        (r : option error) :
  assets.CopyAll fuel m d = Some (d1, r) ->
  (forall k, d !! k = Some Dir -> d1 !! k = Some Dir)
  /\ (forall k c, d !! k = Some (File c) ->
        exists c', d1 !! k = Some (File c')
                   /\ (c' = c \/ outputFolder m `prefix_of` k)).
Proof.
  intros Hrun. destruct (CopyAll_effects _ _ _ _ _ Hrun) as [Hg Hk]. split.
  - intros k Hd. eapply grows_Dir; eassumption.
  - intros k c Hf. destruct (grows_File _ _ _ _ Hg Hf) as [c' Hc']. exists c'.
    split; [assumption |].
    destruct (Hk _ _ Hf) as [Hsame | Hbelow]; [left; congruence | right].
    unfold dest_below in Hbelow. now rewrite app_nil_r in Hbelow.
Qed.

Lemma CopyAll_never_removes_witness :
  (forall k, sampleDisk !! k = Some Dir -> syncedDisk !! k = Some Dir)
  /\ (forall k c, sampleDisk !! k = Some (File c) ->
        exists c', syncedDisk !! k = Some (File c')
                   /\ (c' = c \/ outputFolder sampleManager `prefix_of` k)).
Proof.
  apply (CopyAll_never_removes 3 sampleManager sampleDisk syncedDisk None).
  compute_done.
Defined.

(** X6: a pass writes nowhere but on the way to the output folder and
    below it: every other path of the disk is after the pass what it
    was before, the pass having failed or not. *)
Theorem CopyAll_writes_output_only (fuel : nat) (m : manager)
        (d d1 : gmap path node) (r : option error) (k : path) :
  assets.CopyAll fuel m d = Some (d1, r) ->
  ~ outputFolder m `prefix_of` k -> ~ k `prefix_of` outputFolder m ->
  d1 !! k = d !! k.
Proof.
  intros Hrun Hbelow Habove.
  destruct (CopyAll_cases _ _ _ _ _ Hrun)
    as [(_ & -> & _) | (info & r0 & _ & Hwalk & _)]; [reflexivity |].
  exact (walk_frame m fuel _ _ _ _ _ Hwalk k Hbelow Habove).
Qed.

Lemma CopyAll_writes_output_only_witness :
  syncedDisk !! ["assets"; "a.js"] = sampleDisk !! ["assets"; "a.js"].
Proof.
  apply (CopyAll_writes_output_only 3 sampleManager sampleDisk syncedDisk None);
    compute_done.
Defined.

(** X7: unless the output folder lies strictly inside the input folder,
    [CopyAll] returns: from some amount of fuel on it gives a result,
    and the same one whatever the fuel. *)
Theorem CopyAll_returns (m : manager) (d : gmap path node) :
  (inputFolder m `prefix_of` outputFolder m ->
   length (outputFolder m) <= length (inputFolder m)) ->
  exists fuel0 x, forall fuel, fuel0 <= fuel -> assets.CopyAll fuel m d = Some x.
Proof.
  intros Hin. destruct (CopyAll_total m Hin d) as [fuel0 Htotal].
  destruct (Htotal fuel0 (Nat.le_refl _)) as [x Hx].
  exists fuel0, x. intros fuel Hle. eapply CopyAll_fuel_le; eassumption.
Qed.

Lemma CopyAll_returns_witness :
  exists fuel0 x,
    forall fuel, fuel0 <= fuel -> assets.CopyAll fuel sampleManager sampleDisk = Some x.
Proof.
  apply (CopyAll_returns sampleManager sampleDisk).
  intros H. exfalso. revert H. compute_done.
Defined.

(** ** Sources without files, and a file for a source *)

Section NoFiles.

Context {St : Type}.
Variable dsk : St -> gmap path node.
Variable fn : path -> result node -> St -> St * option error.

Lemma walkNames_idle (rec : path -> node -> St -> option (St * option error))
      (p : path) (s : St) (names : list string) :
  (forall n, n ∈ names ->
     exists info, dsk s !! (p ++ [n]) = Some info
                  /\ rec (p ++ [n]) info s = Some (s, None)) ->
  filepath.walkNames dsk fn rec p names s = Some (s, None).
Proof.
  induction names as [| n ns IH]; intros H; [reflexivity |].
  cbn [filepath.walkNames]. unfold os.Lstat.
  destruct (H n) as (info & Hinfo & Hrec); [left |].
  rewrite Hinfo, Hrec. apply IH. intros n' Hn'. apply H. now right.
Qed.

End NoFiles.

Lemma walk_idle (m : manager) (B fuel : nat) (d : gmap path node) :
  forall p info,
    (forall k, p `prefix_of` k -> is_Some (d !! k) -> length k <= B) ->
    (forall k c, p `prefix_of` k -> d !! k <> Some (File c)) ->
    d !! p = Some info ->
    B < length p + fuel ->
    filepath.walk id (assets.copyFn m) fuel p info d = Some (d, None).
Proof.
  induction fuel as [| fuel IH]; intros p info Hb Hnone Hp Hfuel.
  - assert (length p <= B) by (apply Hb; [reflexivity | eauto]). lia.
  - destruct info as [c |]; [now destruct (Hnone p c) |].
    cbn [filepath.walk IsDir negb]. rewrite copyFn_dir by reflexivity.
    apply walkNames_idle. intros n Hn. unfold id in *.
    apply elem_of_readDirNames in Hn. destruct Hn as [info Hinfo].
    exists info. split; [assumption |]. apply IH.
    + intros k Hk. apply Hb. etransitivity; [| exact Hk]. now apply prefix_app_r.
    + intros k c Hk. apply Hnone. etransitivity; [| exact Hk]. now apply prefix_app_r.
    + assumption.
    + rewrite length_app. cbn. lia.
Qed.

(** X8: an input folder that is there and holds no regular file, at any
    depth, gives a pass that returns no error and leaves the disk as it
    was: directories of the source are not mirrored and the output
    folder is not made. *)
Theorem CopyAll_without_files (m : manager) (d : gmap path node) :
  is_Some (d !! inputFolder m) ->
  (forall k c, inputFolder m `prefix_of` k -> d !! k <> Some (File c)) ->
  exists fuel0, forall fuel, fuel0 <= fuel -> assets.CopyAll fuel m d = Some (d, None).
Proof.
  intros [info Hroot] Hnone.
  set (B := max_list (length <$> elements (dom d))).
  exists (S B). intros fuel Hfuel.
  unfold assets.CopyAll, filepath.Walk, os.Lstat. change (id d) with d.
  rewrite Hroot. rewrite (walk_idle m B fuel d); [reflexivity | | assumption.. | lia].
  intros k _ Hk. apply max_list_elem_of_le, list_elem_of_fmap.
  exists k. split; [reflexivity |]. now apply elem_of_elements, elem_of_dom.
Qed.

Lemma CopyAll_without_files_witness :
  exists fuel0, forall fuel,
      fuel0 <= fuel -> assets.CopyAll fuel sampleManager bareDisk = Some (bareDisk, None).
Proof.
  apply (CopyAll_without_files sampleManager bareDisk); [compute_done |].
  intros k c _ Hk.
  assert (H : map_Forall (fun _ v => v = Dir) bareDisk) by compute_done.
  apply H in Hk. discriminate.
Defined.

(** X9: when the name of the input folder is taken by a regular file, a
    pass always fails, with the wrapped error, and writes no file: it
    makes the output folder at most, and then gives up on creating a
    file in the place of that folder. *)
Theorem CopyAll_source_is_file (fuel : nat) (m : manager) (d : gmap path node)
        (c : bytes) :
  d !! inputFolder m = Some (File c) ->
  exists d1 e,
    assets.CopyAll (S fuel) m d = Some (d1, Some (Wrapped "error copying files" e))
    /\ (forall k c', d1 !! k = Some (File c') -> d !! k = Some (File c'))
    /\ (forall k n, d !! k = Some n -> d1 !! k = Some n).
Proof.
  intros Hroot. unfold assets.CopyAll, filepath.Walk, os.Lstat. change (id d) with d.
  rewrite Hroot. cbn [filepath.walk IsDir negb].
  assert (Hfn := copyFn_file m [] (File c) d eq_refl).
  change (filepath.Dir []) with (@nil string) in Hfn.
  rewrite !app_nil_r in Hfn. rewrite Hfn. clear Hfn.
  destruct (os.MkdirAll d (outputFolder m)) as [d1 r] eqn:Hmk.
  apply MkdirAll_spec in Hmk. destruct Hmk as (Hkeep & Hnew & Hdir & Hsame).
  assert (Hfiles : forall k c', d1 !! k = Some (File c') -> d !! k = Some (File c')).
  { intros k c' Hk. destruct (d !! k) as [n |] eqn:Hd.
    - apply Hkeep in Hd. congruence.
    - destruct (Hnew k Hd) as [Hk' _]; [eauto | congruence]. }
  destruct r as [e |]; [exists d1, e; auto |].
  specialize (Hdir eq_refl). unfold copyTo.
  rewrite (Hkeep _ _ Hroot), Hdir.
  exists d1, EISDIR. auto.
Qed.

Lemma CopyAll_source_is_file_witness :
  exists d1 e,
    assets.CopyAll 1 sampleManager fileDisk
    = Some (d1, Some (Wrapped "error copying files" e))
    /\ (forall k c', d1 !! k = Some (File c') -> fileDisk !! k = Some (File c'))
    /\ (forall k n, fileDisk !! k = Some n -> d1 !! k = Some n).
Proof.
  apply (CopyAll_source_is_file 0 sampleManager fileDisk (b "AA")). compute_done.
Defined.

(** ** The goroutine *)

Lemma Add_bounds (w : World) (d : gmap path node) (watcher watcher' : gset path)
      (p : path) (r : option error) :
  fsnotify.Add w d watcher p = (watcher', r) ->
  watcher ⊆ watcher' /\ forall k, k ∈ watcher' -> k ∈ watcher \/ k = p.
Proof.
  unfold fsnotify.Add.
  destruct (d !! p); [| intros [= <- <-]; auto].
  destruct (decide (p ∈ watcher)); [intros [= <- <-]; auto |].
  destruct (decide (size watcher < inotify_watches w)); intros [= <- <-]; [| auto].
  split; [apply union_subseteq_r |].
  intros k Hk. apply elem_of_union in Hk. destruct Hk as [Hk | Hk]; [| auto].
  apply elem_of_singleton in Hk. auto.
Qed.

(** The error of a pass is always the wrapped one. *)
Lemma CopyAll_error (fuel : nat) (m : manager) (d d1 : gmap path node) (e : error) :
  assets.CopyAll fuel m d = Some (d1, Some e) ->
  exists e0, e = Wrapped "error copying files" e0.
Proof.
  intros H. destruct (CopyAll_cases _ _ _ _ _ H)
    as [(_ & _ & [= ->]) | (info & [e0 |] & _ & _ & [= ->])]; eauto.
Qed.

(** One turn: when it ends the loop, and what it may do to the watcher
    and to the log. *)
Lemma turn_spec (fuel : nat) (m : manager) (w : World) (msg : assets.message)
      (st st' : assets.loopState) (c : assets.control) :
  assets.turn fuel m w msg st = Some (st', c) ->
  (c = assets.Return <-> exists err, msg = assets.FromErrors false err)
  /\ assets.l_watcher st ⊆ assets.l_watcher st'
  /\ (forall k, k ∈ assets.l_watcher st' ->
        k ∈ assets.l_watcher st
        \/ exists event, msg = assets.FromEvents true event
                         /\ fsnotify.Has event fsnotify.Create = true
                         /\ k = fsnotify.Name event)
  /\ exists lines,
      assets.l_log st' = assets.l_log st ++ lines
      /\ forall l, l ∈ lines ->
           (exists e, l = assets.LogError (Wrapped "error copying files" e))
           \/ (exists e, l = assets.LogPrefixed "error:" e
                         /\ msg = assets.FromErrors true e).
Proof.
  assert (Hnil : forall l : assets.logline, l ∈ @nil assets.logline ->
            (exists e, l = assets.LogError (Wrapped "error copying files" e))
            \/ (exists e, l = assets.LogPrefixed "error:" e
                          /\ msg = assets.FromErrors true e)).
  { intros l Hl. now apply elem_of_nil in Hl. }
  destruct msg as [ok event | ok err]; cbn [assets.turn].
  - assert (Hc : assets.Continue = assets.Return <->
                 exists err, assets.FromEvents ok event = assets.FromErrors false err).
    { split; [discriminate | intros [err [=]]]. }
    destruct ok; cbn [negb].
    2: { intros [= <- <-]. split; [exact Hc |]. split; [reflexivity |].
         split; [auto |]. exists []. now rewrite app_nil_r. }
    destruct (assets.needsCopy event); cbn [negb].
    2: { intros [= <- <-]. split; [exact Hc |]. split; [reflexivity |].
         split; [auto |]. exists []. now rewrite app_nil_r. }
    destruct (assets.CopyAll fuel m (assets.l_disk st)) as [[d' err] |] eqn:Hcopy;
      [| discriminate].
    intros [= <- <-]. cbn [assets.l_watcher assets.l_log].
    split; [exact Hc |].
    assert (Hlog : exists lines,
               assets.l_log st ++ assets.logErr err = assets.l_log st ++ lines
               /\ forall l, l ∈ lines ->
                    (exists e, l = assets.LogError (Wrapped "error copying files" e))
                    \/ (exists e, l = assets.LogPrefixed "error:" e
                                  /\ assets.FromEvents true event
                                     = assets.FromErrors true e)).
    { exists (assets.logErr err). split; [reflexivity |].
      destruct err as [e |]; cbn [assets.logErr]; [| exact Hnil].
      destruct (CopyAll_error _ _ _ _ _ Hcopy) as [e0 ->].
      intros l Hl. apply list_elem_of_singleton in Hl. left. eauto. }
    destruct (fsnotify.Has event fsnotify.Create) eqn:Hcreate.
    + destruct (fsnotify.Add w d' (assets.l_watcher st) (fsnotify.Name event))
        as [watcher' r] eqn:Hadd.
      apply Add_bounds in Hadd. destruct Hadd as [Hsub Hnew]. cbn [fst].
      split; [exact Hsub |]. split; [| exact Hlog].
      intros k Hk. destruct (Hnew k Hk) as [| ->]; [auto | right; eauto].
    + split; [reflexivity |]. split; [auto | exact Hlog].
  - destruct ok; cbn [negb]; intros [= <- <-].
    + split; [split; [discriminate | intros [e [=]]] |].
      split; [reflexivity |]. split; [auto |].
      exists [assets.LogPrefixed "error:" err]. split; [reflexivity |].
      intros l Hl. apply list_elem_of_singleton in Hl. right. eauto.
    + split; [split; [eauto | reflexivity] |].
      split; [reflexivity |]. split; [auto |].
      exists []. split; [now rewrite app_nil_r |].
      intros l Hl. now apply elem_of_nil in Hl.
Qed.

(** X10: the goroutine ends when, and only when, it receives from the
    closed Errors channel; a closed Events channel, an error received
    and a pass that fails all leave it running. *)
Theorem loop_returns_iff_errors_closed (fuel : nat) (m : manager) (w : World)
        (history : list assets.input) (st st' : assets.loopState)
        (c : assets.control) :
  assets.loop fuel m w history st = Some (st', c) ->
  (c = assets.Return <-> Exists closes history).
Proof.
  revert st. induction history as [| i rest IH]; intros st; cbn [assets.loop].
  - intros [= <- <-]. split; [discriminate |]. intros H. inversion H.
  - destruct i as [msg | d].
    + destruct (assets.turn fuel m w msg st) as [[st1 c1] |] eqn:Hturn;
        [| discriminate].
      apply turn_spec in Hturn. destruct Hturn as (Hret & _).
      destruct c1.
      * intros Hrest. rewrite (IH _ Hrest). rewrite Exists_cons.
        split; [auto |]. intros [[err [= ->]] | H]; [| exact H].
        assert (assets.Continue = assets.Return) by (apply Hret; eauto).
        discriminate.
      * intros [= <- <-]. split; [| reflexivity]. intros _.
        apply Exists_cons_hd. destruct (proj1 Hret eq_refl) as [err ->].
        now exists err.
    + intros Hrest. rewrite (IH _ Hrest). rewrite Exists_cons.
      split; [auto |]. intros [[err [=]] | H]; exact H.
Qed.

Lemma loop_returns_iff_errors_closed_witness :
  assets.Return = assets.Return <-> Exists closes closingHistory.
Proof.
  apply (loop_returns_iff_errors_closed 3 sampleManager devWorld closingHistory
           (assets.mkLoop syncedDisk ∅ [])
           (assets.mkLoop syncedDisk ∅ [assets.LogPrefixed "error:" ErrWatcher])).
  compute_done.
Defined.

(** X11: what comes from a closed Events channel, and every event that
    is neither a Create, a Write nor a Rename (a Remove or a Chmod,
    then), is passed over: a history of such messages leaves the disk,
    the watcher and the log as they were, and runs no pass. *)
Theorem loop_passes_over (fuel : nat) (m : manager) (w : World)
        (history : list assets.input) (st : assets.loopState) :
  (forall event,
      assets.needsCopy event = false <->
      forall op, op ∈ fsnotify.Ops event ->
                 op = fsnotify.Remove \/ op = fsnotify.Chmod)
  /\ (Forall ignored history ->
      assets.loop fuel m w history st = Some (st, assets.Continue)).
Proof.
  split.
  - intros event. unfold assets.needsCopy, fsnotify.Has.
    rewrite !orb_false_iff, !bool_decide_eq_false. split.
    + intros [[Hc Hw] Hr] op Hop.
      destruct op; auto; contradiction.
    + intros H. repeat split; intros Hop; destruct (H _ Hop); discriminate.
  - induction 1 as [| i rest Hi _ IH]; [reflexivity |].
    destruct Hi as (ok & event & -> & Hi). cbn [assets.loop assets.turn].
    destruct Hi as [-> | Hno]; cbn [negb]; [exact IH |].
    destruct ok; cbn [negb]; [| exact IH]. rewrite Hno. exact IH.
Qed.

Lemma loop_passes_over_witness :
  assets.loop 0 sampleManager devWorld quietHistory (assets.mkLoop syncedDisk ∅ [])
  = Some (assets.mkLoop syncedDisk ∅ [], assets.Continue).
Proof.
  apply (loop_passes_over 0 sampleManager devWorld quietHistory).
  repeat constructor.
  - exists false, (fsnotify.mkEvent [] []). auto.
  - exists true, (fsnotify.mkEvent ["assets"; "a.js"] [fsnotify.Remove]). auto.
  - exists true,
      (fsnotify.mkEvent ["assets"; "a.js"] [fsnotify.Chmod; fsnotify.Remove]). auto.
Defined.

(** X12: the goroutine takes no path out of the watcher, and puts in
    nothing but the name of a Create event it has received: what lies
    inside a folder that was just made is not added. *)
Theorem loop_watcher_grows (fuel : nat) (m : manager) (w : World)
        (history : list assets.input) (st st' : assets.loopState)
        (c : assets.control) :
  assets.loop fuel m w history st = Some (st', c) ->
  assets.l_watcher st ⊆ assets.l_watcher st'
  /\ forall k, k ∈ assets.l_watcher st' ->
       k ∈ assets.l_watcher st
       \/ exists event,
           assets.Recv (assets.FromEvents true event) ∈ history
           /\ fsnotify.Has event fsnotify.Create = true
           /\ k = fsnotify.Name event.
Proof.
  revert st. induction history as [| i rest IH]; intros st; cbn [assets.loop].
  - intros [= <- <-]. split; [reflexivity | auto].
  - assert (Hrest : forall st1,
               assets.l_watcher st ⊆ assets.l_watcher st1 ->
               (forall k, k ∈ assets.l_watcher st1 ->
                  k ∈ assets.l_watcher st
                  \/ exists event,
                      i = assets.Recv (assets.FromEvents true event)
                      /\ fsnotify.Has event fsnotify.Create = true
                      /\ k = fsnotify.Name event) ->
               assets.loop fuel m w rest st1 = Some (st', c) ->
               assets.l_watcher st ⊆ assets.l_watcher st'
               /\ forall k, k ∈ assets.l_watcher st' ->
                    k ∈ assets.l_watcher st
                    \/ exists event,
                        assets.Recv (assets.FromEvents true event) ∈ i :: rest
                        /\ fsnotify.Has event fsnotify.Create = true
                        /\ k = fsnotify.Name event).
    { intros st1 Hsub Hnew Hloop. destruct (IH _ Hloop) as [Hsub' Hnew'].
      split; [etransitivity; eassumption |].
      intros k Hk. destruct (Hnew' k Hk) as [Hk1 | (event & Hin & Hc & ->)].
      - destruct (Hnew k Hk1) as [| (event & -> & Hc & ->)]; [auto |].
        right. exists event. split; [left | auto].
      - right. exists event. split; [now right | auto]. }
    destruct i as [msg | d].
    + destruct (assets.turn fuel m w msg st) as [[st1 c1] |] eqn:Hturn;
        [| discriminate].
      apply turn_spec in Hturn. destruct Hturn as (_ & Hsub & Hnew & _).
      assert (Hnew1 : forall k, k ∈ assets.l_watcher st1 ->
                k ∈ assets.l_watcher st
                \/ exists event,
                    assets.Recv msg = assets.Recv (assets.FromEvents true event)
                    /\ fsnotify.Has event fsnotify.Create = true
                    /\ k = fsnotify.Name event).
      { intros k Hk. destruct (Hnew k Hk) as [| (event & -> & Hc & ->)]; [auto |].
        right. eauto. }
      destruct c1; [now apply Hrest |].
      intros [= <- <-]. split; [assumption |].
      intros k Hk. destruct (Hnew1 k Hk) as [| (event & -> & Hc & ->)]; [auto |].
      right. exists event. split; [left | auto].
    + apply Hrest; [reflexivity | auto].
Qed.

Lemma loop_watcher_grows_witness :
  assets.l_watcher watchingState ⊆ assets.l_watcher grownState
  /\ forall k, k ∈ assets.l_watcher grownState ->
       k ∈ assets.l_watcher watchingState
       \/ exists event,
           assets.Recv (assets.FromEvents true event) ∈ createHistory
           /\ fsnotify.Has event fsnotify.Create = true
           /\ k = fsnotify.Name event.
Proof.
  apply (loop_watcher_grows 3 sampleManager devWorld createHistory
           watchingState grownState assets.Continue).
  compute_done.
Defined.

(** X13: the log of the goroutine only grows, and by two kinds of line:
    the wrapped error of a pass, and an error received from the Errors
    channel under the mark of the code.  What [watcher.Add] returns in
    the loop is never logged. *)
Theorem loop_log_grows (fuel : nat) (m : manager) (w : World)
        (history : list assets.input) (st st' : assets.loopState)
        (c : assets.control) :
  assets.loop fuel m w history st = Some (st', c) ->
  exists lines,
    assets.l_log st' = assets.l_log st ++ lines
    /\ forall l, l ∈ lines ->
         (exists e, l = assets.LogError (Wrapped "error copying files" e))
         \/ (exists e, l = assets.LogPrefixed "error:" e
                       /\ assets.Recv (assets.FromErrors true e) ∈ history).
Proof.
  revert st. induction history as [| i rest IH]; intros st; cbn [assets.loop].
  - intros [= <- <-]. exists []. split; [now rewrite app_nil_r |].
    intros l Hl. now apply elem_of_nil in Hl.
  - assert (Hrest : forall st1 lines1,
               assets.l_log st1 = assets.l_log st ++ lines1 ->
               (forall l, l ∈ lines1 ->
                  (exists e, l = assets.LogError (Wrapped "error copying files" e))
                  \/ (exists e, l = assets.LogPrefixed "error:" e
                                /\ i = assets.Recv (assets.FromErrors true e))) ->
               assets.loop fuel m w rest st1 = Some (st', c) ->
               exists lines,
                 assets.l_log st' = assets.l_log st ++ lines
                 /\ forall l, l ∈ lines ->
                      (exists e, l = assets.LogError (Wrapped "error copying files" e))
                      \/ (exists e, l = assets.LogPrefixed "error:" e
                                    /\ assets.Recv (assets.FromErrors true e)
                                       ∈ i :: rest)).
    { intros st1 lines1 Hlog1 Hlines1 Hloop.
      destruct (IH _ Hloop) as (lines2 & Hlog2 & Hlines2).
      exists (lines1 ++ lines2). split; [now rewrite Hlog2, Hlog1, app_assoc |].
      intros l Hl. apply elem_of_app in Hl. destruct Hl as [Hl | Hl].
      - destruct (Hlines1 l Hl) as [| (e & -> & ->)]; [auto |].
        right. exists e. split; [reflexivity | left].
      - destruct (Hlines2 l Hl) as [| (e & -> & Hin)]; [auto |].
        right. exists e. split; [reflexivity | now right]. }
    destruct i as [msg | d].
    + destruct (assets.turn fuel m w msg st) as [[st1 c1] |] eqn:Hturn;
        [| discriminate].
      apply turn_spec in Hturn. destruct Hturn as (_ & _ & _ & lines1 & Hlog1 & Hl1).
      assert (Hlines1 : forall l, l ∈ lines1 ->
                (exists e, l = assets.LogError (Wrapped "error copying files" e))
                \/ (exists e, l = assets.LogPrefixed "error:" e
                              /\ assets.Recv msg
                                 = assets.Recv (assets.FromErrors true e))).
      { intros l Hl. destruct (Hl1 l Hl) as [| (e & -> & ->)]; [auto |].
        right. eauto. }
      destruct c1; [now apply (Hrest st1 lines1) |].
      intros [= <- <-]. exists lines1. split; [assumption |].
      intros l Hl. destruct (Hlines1 l Hl) as [| (e & -> & ->)]; [auto |].
      right. exists e. split; [reflexivity | left].
    + apply (Hrest _ []); [cbn; now rewrite app_nil_r |].
      intros l Hl. now apply elem_of_nil in Hl.
Qed.

Lemma loop_log_grows_witness :
  exists lines,
    assets.l_log grownState = assets.l_log watchingState ++ lines
    /\ forall l, l ∈ lines ->
         (exists e, l = assets.LogError (Wrapped "error copying files" e))
         \/ (exists e, l = assets.LogPrefixed "error:" e
                       /\ assets.Recv (assets.FromErrors true e) ∈ createHistory).
Proof.
  apply (loop_log_grows 3 sampleManager devWorld createHistory
           watchingState grownState assets.Continue).
  compute_done.
Defined.

(** ** What Watch registers *)

Lemma reached_root (d : gmap path node) (p : path) :
  is_Some (d !! p) -> reached d p p.
Proof.
  intros H. exists []. rewrite app_nil_r. split; [reflexivity |].
  split; [assumption | apply dirs_above_nil].
Qed.

Lemma reached_child (d : gmap path node) (p : path) (n : string) (k : path) :
  d !! p = Some Dir -> reached d (p ++ [n]) k -> reached d p k.
Proof.
  intros Hp (rel & -> & Hk & Hdirs). exists (n :: rel).
  rewrite <- app_assoc in Hk |- *. split; [reflexivity |]. split; [assumption |].
  now apply dirs_above_cons.
Qed.

Lemma reached_step (d : gmap path node) (p k : path) :
  reached d p k ->
  k = p
  \/ (d !! p = Some Dir
      /\ exists n, is_Some (d !! (p ++ [n])) /\ reached d (p ++ [n]) k).
Proof.
  intros (rel & -> & Hk & Hdirs). destruct rel as [| n rel].
  { left. now rewrite app_nil_r. }
  right. split.
  { rewrite <- (app_nil_r p). apply Hdirs; [apply prefix_nil | discriminate]. }
  exists n. split.
  - destruct rel as [| n' rel]; [assumption |].
    rewrite (Hdirs [n]); [eauto | | discriminate].
    now apply (prefix_app [n]), prefix_nil.
  - exists rel. rewrite <- app_assoc. split; [reflexivity |].
    split; [assumption | now apply dirs_above_child].
Qed.

Section Registered.

Variable w : World.
Variable d : gmap path node.

Lemma addFn_spec (p : path) (info : result node) (watcher : gset path)
      (s : gmap path node * gset path) :
  assets.addFn w p info (d, watcher) = (s, None) ->
  s.1 = d /\ is_Some (d !! p) /\ watcher ⊆ s.2 /\ p ∈ s.2
  /\ forall k, k ∈ s.2 -> k ∈ watcher \/ k = p.
Proof.
  unfold assets.addFn, fsnotify.Add. cbn [fst snd].
  destruct (d !! p) as [n |]; [| discriminate].
  destruct (decide (p ∈ watcher)) as [Hin | Hout].
  { intros [= <-]. cbn. repeat split; eauto. }
  destruct (decide (size watcher < inotify_watches w)); [| discriminate].
  intros [= <-]. cbn. split; [reflexivity |]. split; [eauto |].
  split; [apply union_subseteq_r |].
  split; [apply elem_of_union_l, elem_of_singleton; reflexivity |].
  intros k Hk. apply elem_of_union in Hk. destruct Hk as [Hk | Hk]; [| auto].
  apply elem_of_singleton in Hk. auto.
Qed.

Lemma walkNames_registers
      (rec : path -> node -> gmap path node * gset path
             -> option ((gmap path node * gset path) * option error))
      (p : path) :
  (forall n info watcher s,
      d !! (p ++ [n]) = Some info ->
      rec (p ++ [n]) info (d, watcher) = Some (s, None) ->
      s.1 = d /\ watcher ⊆ s.2
      /\ (forall k, reached d (p ++ [n]) k -> k ∈ s.2)
      /\ (forall k, k ∈ s.2 -> k ∈ watcher \/ reached d (p ++ [n]) k)) ->
  forall names watcher s,
    filepath.walkNames fst (assets.addFn w) rec p names (d, watcher) = Some (s, None) ->
    s.1 = d /\ watcher ⊆ s.2
    /\ (forall n k, n ∈ names -> reached d (p ++ [n]) k -> k ∈ s.2)
    /\ (forall k, k ∈ s.2 ->
          k ∈ watcher \/ exists n, n ∈ names /\ reached d (p ++ [n]) k).
Proof.
  intros Hrec names. induction names as [| n ns IH]; intros watcher s.
  - intros [= <-]. cbn. split; [reflexivity |]. split; [reflexivity |].
    split; [| auto]. intros n k Hn. now apply elem_of_nil in Hn.
  - cbn [filepath.walkNames fst]. unfold os.Lstat.
    destruct (d !! (p ++ [n])) as [info |] eqn:Hinfo.
    2: { unfold assets.addFn, fsnotify.Add. cbn [fst snd]. rewrite Hinfo.
         discriminate. }
    destruct (rec (p ++ [n]) info (d, watcher)) as [[[d1 w1] [e |]] |] eqn:H1;
      [discriminate | | discriminate].
    apply Hrec in H1; [| assumption]. cbn [fst snd] in H1.
    destruct H1 as (-> & S1 & C1 & B1).
    intros H2. apply IH in H2. destruct H2 as (Hd & S2 & C2 & B2).
    split; [assumption |]. split; [etransitivity; eassumption |]. split.
    + intros n' k Hn' Hk. apply elem_of_cons in Hn'. destruct Hn' as [-> | Hn'].
      * apply S2, C1, Hk.
      * eapply C2; eassumption.
    + intros k Hk. destruct (B2 k Hk) as [Hk1 | (n' & Hn' & Hr)].
      * destruct (B1 k Hk1) as [| Hr]; [auto |]. right. exists n.
        split; [left | assumption].
      * right. exists n'. split; [now right | assumption].
Qed.

Lemma walk_registers (fuel : nat) :
  forall p info watcher s,
    d !! p = Some info ->
    filepath.walk fst (assets.addFn w) fuel p info (d, watcher) = Some (s, None) ->
    s.1 = d /\ watcher ⊆ s.2
    /\ (forall k, reached d p k -> k ∈ s.2)
    /\ (forall k, k ∈ s.2 -> k ∈ watcher \/ reached d p k).
Proof.
  induction fuel as [| fuel IH]; intros p info watcher s Hp; [discriminate |].
  cbn [filepath.walk].
  destruct (assets.addFn w p (Ok info) (d, watcher)) as [[d1 w1] r1] eqn:Hadd.
  destruct info as [c |]; cbn [IsDir negb].
  - intros [= <- ->]. apply addFn_spec in Hadd. cbn [fst snd] in *.
    destruct Hadd as (-> & Hsome & S1 & P1 & B1).
    split; [reflexivity |]. split; [assumption |]. split.
    + intros k Hk. apply reached_step in Hk.
      destruct Hk as [-> | [Hdir _]]; [assumption | congruence].
    + intros k Hk. destruct (B1 k Hk) as [| ->]; [auto |].
      right. now apply reached_root.
  - destruct r1 as [e |]; [discriminate |].
    apply addFn_spec in Hadd. cbn [fst snd] in *.
    destruct Hadd as (-> & Hsome & S1 & P1 & B1).
    intros Hnames. apply walkNames_registers in Hnames.
    2: { intros n fi w0 s0 Hn H0. exact (IH _ _ _ _ Hn H0). }
    destruct Hnames as (Hd & S2 & C2 & B2).
    split; [assumption |]. split; [etransitivity; eassumption |]. split.
    + intros k Hk. apply reached_step in Hk.
      destruct Hk as [-> | (_ & n & Hn & Hr)]; [now apply S2 |].
      apply (C2 n); [| assumption]. now apply elem_of_readDirNames.
    + intros k Hk. destruct (B2 k Hk) as [Hk1 | (n & _ & Hr)].
      * destruct (B1 k Hk1) as [| ->]; [auto |]. right. now apply reached_root.
      * right. eapply reached_child; eassumption.
Qed.

End Registered.

(** X14: when [Watch] comes to its loop, the watcher holds the paths
    that the walk from the input folder comes to on the disk that the
    first pass has left, and no other: the input folder, and every
    entry below it, regular files as well as folders. *)
Theorem Watch_registers_tree (fuel : nat) (m : manager) (w : World)
        (st : assets.loopState) (k : path) :
  assets.Watch fuel m w = Some (assets.Looping st) ->
  k ∈ assets.l_watcher st <-> reached (assets.l_disk st) (inputFolder m) k.
Proof.
  unfold assets.Watch.
  destruct (assets.CopyAll fuel m (disk w)) as [[d1 err] |]; [| discriminate].
  unfold fsnotify.NewWatcher.
  destruct (decide (inotify_instances w = 0)); [discriminate |].
  destruct (filepath.Walk fst (assets.addFn w) fuel (inputFolder m) (d1, ∅))
    as [[s [e |]] |] eqn:Hwalk; [discriminate | | discriminate].
  intros [= <-]. cbn [assets.l_watcher assets.l_disk].
  unfold filepath.Walk, os.Lstat in Hwalk. cbn [fst] in Hwalk.
  destruct (d1 !! inputFolder m) as [info |] eqn:Hroot.
  2: { unfold assets.addFn, fsnotify.Add in Hwalk. cbn [fst snd] in Hwalk.
       rewrite Hroot in Hwalk. discriminate. }
  apply walk_registers in Hwalk; [| assumption].
  destruct Hwalk as (-> & _ & Hall & Honly). split; [| apply Hall].
  intros Hk. destruct (Honly k Hk) as [Hempty | Hr]; [| assumption].
  now apply elem_of_empty in Hempty.
Qed.

Lemma Watch_registers_tree_witness :
  ["assets"; "sub"; "c.css"] ∈ assets.l_watcher startedState
  <-> reached (assets.l_disk startedState) (inputFolder sampleManager)
              ["assets"; "sub"; "c.css"].
Proof.
  apply (Watch_registers_tree 3 sampleManager devWorld startedState).
  compute_done.
Defined.

(** ** Passes that cannot go through, and passes on events *)

(** X15: a pass makes no file of a directory and no directory of a
    file: when the place of a copy is taken by a directory, or the place
    of its folder by a regular file, the pass does not go through,
    whatever the fuel. *)
Theorem CopyAll_kind_clash (fuel : nat) (m : manager) (d d1 : gmap path node)
        (r : option error) (rel : path) (c : bytes) :
  ~ inputFolder m `prefix_of` outputFolder m ->
  ~ outputFolder m `prefix_of` inputFolder m ->
  d !! (inputFolder m ++ rel) = Some (File c) ->
  dirs_above d (inputFolder m) rel ->
  d !! (outputFolder m ++ rel) = Some Dir
  \/ (exists c', d !! (outputFolder m ++ filepath.Dir rel) = Some (File c')) ->
  assets.CopyAll fuel m d = Some (d1, r) ->
  r <> None.
Proof.
  intros Hio Hoi Hfile Hdirs Hclash Hrun ->.
  destruct (CopyAll_covers _ _ _ _ _ _ Hio Hoi Hrun Hfile Hdirs) as (Hdest & Hdir & _).
  destruct (CopyAll_effects _ _ _ _ _ Hrun) as [Hg _].
  destruct Hclash as [Hd | [c' Hf]].
  - apply (grows_Dir _ _ _ Hg) in Hd. congruence.
  - destruct (grows_File _ _ _ _ Hg Hf) as [c'' Hc'']. congruence.
Qed.

Lemma CopyAll_kind_clash_witness :
  Some (Wrapped "error copying files" EISDIR) <> None.
Proof.
  apply (CopyAll_kind_clash 3 sampleManager clashDisk clashDisk
           (Some (Wrapped "error copying files" EISDIR)) ["a.js"] (b "AA"));
    try compute_done.
  - apply dirs_above_cons; [compute_done | apply dirs_above_nil].
  - left. compute_done.
Defined.

(** X16: an event that asks for a copy has the whole tree copied, not
    the file it names: after a turn on a Create, Write or Rename event
    that has logged nothing, every regular file that the walk from the
    input folder comes to has its bytes below the output folder. *)
Theorem turn_copies_whole_tree (fuel : nat) (m : manager) (w : World)
        (event : fsnotify.Event) (st st' : assets.loopState) (c : assets.control)
        (rel : path) (data : bytes) :
  ~ inputFolder m `prefix_of` outputFolder m ->
  ~ outputFolder m `prefix_of` inputFolder m ->
  assets.needsCopy event = true ->
  assets.turn fuel m w (assets.FromEvents true event) st = Some (st', c) ->
  assets.l_log st' = assets.l_log st ->
  assets.l_disk st !! (inputFolder m ++ rel) = Some (File data) ->
  dirs_above (assets.l_disk st) (inputFolder m) rel ->
  assets.l_disk st' !! (outputFolder m ++ rel) = Some (File data).
Proof.
  intros Hio Hoi Hneeds Hturn Hlog Hfile Hdirs.
  cbn [assets.turn negb] in Hturn. rewrite Hneeds in Hturn. cbn [negb] in Hturn.
  destruct (assets.CopyAll fuel m (assets.l_disk st)) as [[d' err] |] eqn:Hcopy;
    [| discriminate].
  injection Hturn as <- <-. cbn [assets.l_log assets.l_disk] in *.
  destruct err as [e |].
  { cbn in Hlog. apply (f_equal length) in Hlog. rewrite length_app in Hlog.
    cbn in Hlog. lia. }
  now destruct (CopyAll_covers _ _ _ _ _ _ Hio Hoi Hcopy Hfile Hdirs).
Qed.

Lemma turn_copies_whole_tree_witness :
  assets.l_disk grownState !! (outputFolder sampleManager ++ ["sub"; "c.css"])
  = Some (File (b "CC")).
Proof.
  apply (turn_copies_whole_tree 3 sampleManager devWorld
           (fsnotify.mkEvent ["assets"; "img"] [fsnotify.Create])
           (assets.mkLoop grownDisk {[ ["assets"] ]}
              [assets.LogPrefixed "error:" ErrWatcher])
           grownState assets.Continue ["sub"; "c.css"] (b "CC"));
    try compute_done.
  apply dirs_above_cons; [compute_done |].
  apply dirs_above_cons; [compute_done | apply dirs_above_nil].
Defined.

(** ** A pass onto the input folder *)

Lemma emptied_refl (e : gmap path node) : emptied e e.
Proof. intros k. now left. Qed.

Lemma emptied_trans (e1 e2 e3 : gmap path node) :
  emptied e1 e2 -> emptied e2 e3 -> emptied e1 e3.
Proof.
  intros H12 H23 k. destruct (H23 k) as [E | (c & Hc & E)].
  - rewrite E. apply H12.
  - right. destruct (H12 k) as [E' | (c' & Hc' & E')].
    + exists c. split; [congruence | assumption].
    + exists c'. split; assumption.
Qed.

Lemma emptied_Dir (e e' : gmap path node) (k : path) :
  emptied e e' -> e !! k = Some Dir -> e' !! k = Some Dir.
Proof. intros H Hk. destruct (H k) as [E | (c & Hc & _)]; congruence. Qed.

Lemma emptied_File (e e' : gmap path node) (k : path) (c : bytes) :
  emptied e e' -> e !! k = Some (File c) -> exists c', e' !! k = Some (File c').
Proof.
  intros H Hk. destruct (H k) as [E | (c' & _ & E)]; [exists c; congruence | eauto].
Qed.

Lemma emptied_empty (e e' : gmap path node) (k : path) :
  emptied e e' -> e !! k = Some (File []) -> e' !! k = Some (File []).
Proof. intros H Hk. destruct (H k) as [E | (c' & _ & E)]; congruence. Qed.

Lemma emptied_is_Some (e e' : gmap path node) (k : path) :
  emptied e e' -> is_Some (e !! k) -> is_Some (e' !! k).
Proof.
  intros H [n Hk]. destruct (H k) as [E | (c' & _ & E)]; rewrite E; eauto.
Qed.

Lemma emptied_dirs_above (e e' : gmap path node) (base rel : path) :
  emptied e e' -> dirs_above e base rel -> dirs_above e' base rel.
Proof. intros H Hd pre Hpre Hne. eapply emptied_Dir; eauto. Qed.

Lemma emptied_insert (e : gmap path node) (p : path) (c : bytes) :
  e !! p = Some (File c) -> emptied e (<[p := File []]> e).
Proof.
  intros Hp k. destruct (decide (k = p)) as [-> | Hne].
  - right. exists c. now rewrite lookup_insert_eq.
  - left. now rewrite lookup_insert_ne.
Qed.

Section Self.

Variable m : manager.

Hypothesis same_folder : outputFolder m = inputFolder m.

(** The copy of a file onto itself empties it: [os.Create] cuts it
    before [io.Copy] reads it. *)
Lemma copyFn_self (q : path) (n : string) (c : bytes) (e : gmap path node) :
  inputFolder m `prefix_of` q ->
  e !! q = Some Dir ->
  e !! (q ++ [n]) = Some (File c) ->
  assets.copyFn m (q ++ [n]) (Ok (File c)) e = (<[q ++ [n] := File []]> e, None).
Proof.
  intros [r0 ->] Hq Hp. rewrite <- app_assoc in Hp |- *.
  rewrite copyFn_file by reflexivity.
  unfold filepath.Dir. rewrite removelast_last, same_folder.
  rewrite MkdirAll_there by assumption.
  unfold copyTo. rewrite Hp, lookup_insert_eq. reflexivity.
Qed.

Section Names.

Variable rec : path -> node -> gmap path node -> option (gmap path node * option error).
Variable p : path.

Hypothesis rec_self :
  forall n info e e' r,
    e !! (p ++ [n]) = Some info -> e !! p = Some Dir ->
    rec (p ++ [n]) info e = Some (e', r) ->
    r = None /\ emptied e e'
    /\ forall rel c,
        e !! ((p ++ [n]) ++ rel) = Some (File c) ->
        dirs_above e (p ++ [n]) rel ->
        e' !! ((p ++ [n]) ++ rel) = Some (File []).

Lemma walkNames_self (names : list string) :
  forall e e' r,
    e !! p = Some Dir ->
    (forall n, n ∈ names -> is_Some (e !! (p ++ [n]))) ->
    filepath.walkNames id (assets.copyFn m) rec p names e = Some (e', r) ->
    r = None /\ emptied e e'
    /\ forall n rel c,
        n ∈ names ->
        e !! ((p ++ [n]) ++ rel) = Some (File c) ->
        dirs_above e (p ++ [n]) rel ->
        e' !! ((p ++ [n]) ++ rel) = Some (File []).
Proof.
  induction names as [| n ns IH]; intros e e' r Hdir Hin.
  - intros [= <- <-]. split; [reflexivity |]. split; [apply emptied_refl |].
    intros n rel c Hn. now apply elem_of_nil in Hn.
  - cbn [filepath.walkNames]. unfold os.Lstat. change (id e) with e.
    destruct (Hin n) as [info Hinfo]; [left |]. rewrite Hinfo.
    destruct (rec (p ++ [n]) info e) as [[e1 r1] |] eqn:H1; [| discriminate].
    destruct (rec_self _ _ _ _ _ Hinfo Hdir H1) as (-> & E1 & C1).
    intros H2. apply IH in H2.
    + destruct H2 as (-> & E2 & C2). split; [reflexivity |].
      split; [eapply emptied_trans; eassumption |].
      intros n' rel c Hn' Hfile Hdirs. apply elem_of_cons in Hn'.
      destruct Hn' as [-> | Hn'].
      * eapply emptied_empty; [exact E2 |]. eapply C1; eassumption.
      * destruct (emptied_File _ _ _ _ E1 Hfile) as [c' Hc'].
        apply (C2 n' rel c' Hn' Hc'). eapply emptied_dirs_above; eassumption.
    + eapply emptied_Dir; eassumption.
    + intros n' Hn'. eapply emptied_is_Some; [exact E1 |]. apply Hin. now right.
Qed.

End Names.

Lemma walk_self (fuel : nat) :
  forall p info e e' r,
    inputFolder m `prefix_of` p ->
    e !! p = Some info ->
    (IsDir info = false ->
     exists q n, p = q ++ [n] /\ inputFolder m `prefix_of` q /\ e !! q = Some Dir) ->
    filepath.walk id (assets.copyFn m) fuel p info e = Some (e', r) ->
    r = None /\ emptied e e'
    /\ forall rel c,
        e !! (p ++ rel) = Some (File c) ->
        dirs_above e p rel ->
        e' !! (p ++ rel) = Some (File []).
Proof.
  induction fuel as [| fuel IH]; intros p info e e' r Hpre Hp Hparent;
    [discriminate |].
  cbn [filepath.walk]. destruct info as [c |]; cbn [IsDir negb].
  - destruct (Hparent eq_refl) as (q & n & -> & Hq & Hdir).
    rewrite copyFn_self by assumption. intros [= <- <-].
    split; [reflexivity |]. split; [eapply emptied_insert; eassumption |].
    intros rel c' Hfile Hdirs. destruct rel as [| x rel].
    + rewrite app_nil_r. apply lookup_insert_eq.
    + assert (H := Hdirs [] (prefix_nil _) ltac:(discriminate)).
      rewrite app_nil_r in H. congruence.
  - rewrite copyFn_dir by reflexivity. change (id e) with e.
    intros Hnames. apply walkNames_self in Hnames.
    + destruct Hnames as (-> & E & C). split; [reflexivity |].
      split; [assumption |].
      intros rel c Hfile Hdirs. destruct rel as [| n rel].
      { rewrite app_nil_r in Hfile. congruence. }
      replace (p ++ n :: rel) with ((p ++ [n]) ++ rel) in Hfile |- *
        by (rewrite <- app_assoc; reflexivity).
      apply (C n rel c); [| assumption | now apply dirs_above_child].
      apply elem_of_readDirNames. destruct rel as [| n' rel].
      * rewrite app_nil_r in Hfile. eauto.
      * rewrite (Hdirs [n]); [eauto | | discriminate].
        now apply (prefix_app [n]), prefix_nil.
    + intros n info e0 e0' r0 Hinfo Hdir Hrec.
      apply (IH _ _ _ _ _ (transitivity Hpre (prefix_app_r p p [n] (reflexivity p)))
                Hinfo); [| exact Hrec].
      intros _. exists p, n. auto.
    + assumption.
    + intros n Hn. now apply elem_of_readDirNames in Hn.
Qed.

End Self.

(** X17: when the output folder is the input folder, a pass goes through
    and leaves every regular file it comes to with no bytes: each file
    is copied onto itself, and cut before it is read.  Nothing else on
    the disk changes. *)
Theorem CopyAll_onto_input_empties (fuel : nat) (m : manager)
        (d d1 : gmap path node) (r : option error) :
  outputFolder m = inputFolder m ->
  d !! inputFolder m = Some Dir ->
  assets.CopyAll fuel m d = Some (d1, r) ->
  r = None
  /\ (forall rel c,
        d !! (inputFolder m ++ rel) = Some (File c) ->
        dirs_above d (inputFolder m) rel ->
        d1 !! (inputFolder m ++ rel) = Some (File []))
  /\ (forall k, d1 !! k = d !! k
                \/ exists c, d !! k = Some (File c) /\ d1 !! k = Some (File [])).
Proof.
  intros Hsame Hroot Hrun.
  destruct (CopyAll_cases _ _ _ _ _ Hrun)
    as [(Hnone & _) | (info & r0 & Hinfo & Hwalk & ->)]; [congruence |].
  apply (walk_self m Hsame) in Hwalk; [| reflexivity | assumption |].
  - destruct Hwalk as (-> & E & C). auto.
  - intros Hfile. rewrite Hroot in Hinfo. injection Hinfo as <-. discriminate.
Qed.

Lemma CopyAll_onto_input_empties_witness :
  emptiedDisk !! (inputFolder selfManager ++ ["a.js"]) = Some (File []).
Proof.
  refine (proj1 (proj2 (CopyAll_onto_input_empties 3 selfManager smallDisk emptiedDisk
                          None _ _ _)) ["a.js"] (b "AA") _ _); try compute_done.
  apply dirs_above_cons; [compute_done | apply dirs_above_nil].
Defined.

(** ** From a pass to the handler *)

(** X18: in development mode, with the live folder of the manager on its
    output folder, what [Open] serves after a pass that went through is
    the bytes of the source file of that name, whatever the output
    folder held before.  The name is one that [os.DirFS] takes, a valid
    path with no NUL byte, other than the root ".", and does not end in
    [.go], which [Open] refuses. *)
Theorem Open_serves_the_copy (fuel : nat) (m : manager) (w : World)
        (d1 : gmap path node) (name : string) (c : bytes) :
  folder m = os.DirFS (outputFolder m) ->
  os.Getenv w "GO_ENV" = "development" ->
  fs.ValidPath name = true ->
  os.hasNUL name = false ->
  name <> "." ->
  filepath.Ext name <> ".go" ->
  ~ inputFolder m `prefix_of` outputFolder m ->
  ~ outputFolder m `prefix_of` inputFolder m ->
  assets.CopyAll fuel m (disk w) = Some (d1, None) ->
  disk w !! (inputFolder m ++ components name) = Some (File c) ->
  dirs_above (disk w) (inputFolder m) (components name) ->
  assets.Open m (mkWorld (env w) d1 (inotify_instances w) (inotify_watches w)) name
  = Ok (File c).
Proof.
  intros Hfolder Henv Hvalid Hnul Hdot Hext Hio Hoi Hrun Hfile Hdirs.
  set (w1 := mkWorld (env w) d1 (inotify_instances w) (inotify_watches w)).
  assert (Henv1 : os.Getenv w1 "GO_ENV" = "development") by exact Henv.
  rewrite (Open_live_reads_disk m w1 (outputFolder m) name Hfolder Hext Henv1).
  rewrite (join_valid _ _ Hvalid Hnul Hdot). cbn [disk w1].
  destruct (CopyAll_covers _ _ _ _ _ _ Hio Hoi Hrun Hfile Hdirs) as (-> & _).
  reflexivity.
Qed.

Lemma Open_serves_the_copy_witness :
  assets.Open sampleManager
    (mkWorld (env devWorld) syncedDisk (inotify_instances devWorld)
             (inotify_watches devWorld))
    "sub/c.css"
  = Ok (File (b "CC")).
Proof.
  apply (Open_serves_the_copy 3 sampleManager devWorld syncedDisk "sub/c.css"
           (b "CC")); try compute_done.
  change (components "sub/c.css") with ["sub"; "c.css"].
  apply dirs_above_cons; [compute_done |].
  apply dirs_above_cons; [compute_done | apply dirs_above_nil].
Defined.
